(** * The IPA pipeline and its resumable experiment runner

    A shallow embedding of [src/ida/ida.py] and
    [src/ida/experiments/experiment.py], with the statements that the
    specification makes about them; and of the perturbers of concept
    counts of [src/simexp/make_train_data.py], the batching of
    [src/simadv/describe/torch_based/base.py] and the nested logging of
    [src/simexp/common.py].

    Conventions.  Python integers are [Z]; lengths and positions in a list
    are [nat].  Exceptions are values of [exn], carried by the [result]
    monad.  Floating point numbers that the code only copies are elements of
    an arbitrary type; the ones it divides and compares (influence ratios,
    sort keys) are exact rationals [Q].  Collaborators whose code is not
    part of the development (the explainers, the grid search, the scoring)
    are parameters, with the exceptions they may raise. *)

From Stdlib Require Import ZArith QArith Qround Qcanon Lqa.
From stdpp Require Import base tactics option list gmap strings sorting.

#[local] Open Scope Z_scope.

(** ** Exceptions *)

Inductive exn : Set :=
  | TypeError
  | ValueError
  | IndexError
  | AssertionError
  | ZeroDivisionError
  | NotFittedError
  | AttributeError
  | StopIteration.

Inductive result (A : Type) : Type :=
  | Ok (a : A)
  | Raise (e : exn).
Arguments Ok {A} a.
Arguments Raise {A} e.

#[global] Instance result_ret : MRet result := λ A a, Ok a.
#[global] Instance result_bind : MBind result := λ A B f m,
  match m with
  | Ok a => f a
  | Raise e => Raise e
  end.
#[global] Instance result_fmap : FMap result := λ A B f m,
  match m with
  | Ok a => Ok (f a)
  | Raise e => Raise e
  end.

Definition assert (b : bool) : result unit :=
  if b then Ok tt else Raise AssertionError.

Definition is_ok {A} (r : result A) : bool :=
  match r with Ok _ => true | Raise _ => false end.

(** ** Python built-ins used by the code *)

(** [sorted(l, key=...)]: a stable sort; [le x y] tells that the key of [x]
    is at most the key of [y]. *)
Fixpoint insert_sorted {A} (le : A → A → bool) (x : A) (l : list A) : list A :=
  match l with
  | [] => [x]
  | y :: l' => if le x y then x :: y :: l' else y :: insert_sorted le x l'
  end.

Definition sorted {A} (le : A → A → bool) (l : list A) : list A :=
  foldr (insert_sorted le) [] l.

(** [collections.Counter]: a dict from elements to counts, in the order of
    first insertion. *)
Fixpoint counter_add (x : Z) (c : list (Z * Z)) : list (Z * Z) :=
  match c with
  | [] => [(x, 1)]
  | (y, n) :: c' =>
      if Z.eqb x y then (y, n + 1) :: c' else (y, n) :: counter_add x c'
  end.

Definition Counter (xs : list Z) : list (Z * Z) :=
  foldl (λ c x, counter_add x c) [] xs.

(** The number of occurrences of [s] in [xs]. *)
Definition occurrences (s : Z) (xs : list Z) : Z :=
  Z.of_nat (length (filter (λ x, x = s) xs)).

(** [c[s]], 0 for a missing key *)
Fixpoint counter_get (s : Z) (c : list (Z * Z)) : Z :=
  match c with
  | [] => 0
  | (y, n) :: c' => if Z.eqb s y then n else counter_get s c'
  end.

(** [Counter.most_common()]: the items by decreasing count, ties in the
    order of first insertion. *)
Definition most_common (c : list (Z * Z)) : list (Z * Z) :=
  sorted (λ x y, Z.leb (snd y) (snd x)) c.

(** [np.isin(xs, ys)] *)
Definition isin (xs ys : list Z) : list bool :=
  map (λ x, existsb (Z.eqb x) ys) xs.

(** [a[mask]] for a boolean mask of the length of [a]. *)
Fixpoint mask_select {A} (mask : list bool) (l : list A) : list A :=
  match mask, l with
  | b :: mask', x :: l' =>
      if b then x :: mask_select mask' l' else mask_select mask' l'
  | _, _ => []
  end.

(** ** [ida.py]: fold planning *)

(** The sort key of [class_counts] is [(1.0 / (c + 1), s)]; the quotient is
    kept exact. *)
Definition count_key (x : Z * Z) : Q * Z := (/ inject_Z (snd x + 1), fst x)%Q.

Definition count_key_le (x y : Z * Z) : bool :=
  let (k1, s1) := count_key x in
  let (k2, s2) := count_key y in
  negb (Qle_bool k2 k1) || (Qeq_bool k1 k2 && Z.leb s1 s2).

(** [Counter(it.chain(predicted_classes, all_classes))]: chaining [None]
    fails when the counter reaches it. *)
Definition Counter_chain (predicted_classes : list Z)
    (all_classes : option (list Z)) : result (list (Z * Z)) :=
  match all_classes with
  | Some ac => Ok (Counter (predicted_classes ++ ac))
  | None => Raise TypeError
  end.

Definition class_counts (predicted_classes : list Z)
    (all_classes : option (list Z)) : result (list (Z * Z)) :=
  counts ← Counter_chain predicted_classes all_classes;
  let m := match all_classes with None => 0 | Some _ => 1 end in
  let items := map (λ sc, (fst sc, snd sc - m)) counts in
  if existsb (λ sc, Z.eqb (snd sc + 1) 0) items
  then Raise ZeroDivisionError
  else Ok (sorted count_key_le items).

Definition enough_samples (counts : list (Z * Z)) (min_k_folds : Z) : list Z :=
  map fst (filter (λ sc, min_k_folds ≤ snd sc) counts).

Definition filter_for_split (predicted_classes : list Z) (min_k_folds : Z)
    (all_classes : option (list Z)) : result (list bool) :=
  counts ← class_counts predicted_classes all_classes;
  Ok (isin predicted_classes (enough_samples counts min_k_folds)).

Definition determine_k_folds (predicted_classes : list Z) (max_k_folds : Z)
    : result Z :=
  match last (most_common (Counter predicted_classes)) with
  | Some sc => Ok (Z.min max_k_folds (snd sc))
  | None => Raise IndexError
  end.

(** The cross-validation splitters of scikit-learn, as the arguments they
    are constructed with. *)
Inductive cv_splitter : Set :=
  | KFold (n_splits : Z)
  | StratifiedKFold (n_splits : Z).

Definition n_splits (cv : cv_splitter) : Z :=
  match cv with KFold n => n | StratifiedKFold n => n end.

(** [KFold(n_splits=...)] and [StratifiedKFold(n_splits=...)]: both
    constructors refuse a number of splits below 2. *)
Definition check_n_splits (n_splits : Z) : result unit :=
  if Z.leb n_splits 1 then Raise ValueError else Ok tt.

(** Lines 103-114 of [run_cv]: the inclusion mask and the splitter. *)
Definition run_cv_plan (predicted_classes : list Z)
    (all_classes : option (list Z)) (min_k_folds max_k_folds : Z)
    : result (list bool * cv_splitter) :=
  _ ← assert (bool_decide (min_k_folds ≤ max_k_folds));
  indices ← filter_for_split predicted_classes min_k_folds all_classes;
  if negb (existsb id indices)
  then
    _ ← check_n_splits min_k_folds;
    Ok (map (λ _, true) indices, KFold min_k_folds)
  else
    k_folds ← determine_k_folds (mask_select indices predicted_classes) max_k_folds;
    _ ← check_n_splits k_folds;
    Ok (indices, StratifiedKFold k_folds).

(** ** NumPy indexing of a one-dimensional array *)

(** [a[i]] for an integer [i]: negative positions count from the end. *)
Definition np_index_int {A} (a : list A) (i : Z) : result A :=
  let n := Z.of_nat (length a) in
  if (Z.leb (- n) i && Z.ltb i n)%bool
  then match a !! Z.to_nat (if Z.ltb i 0 then i + n else i) with
       | Some x => Ok x
       | None => Raise IndexError
       end
  else Raise IndexError.

(** [a[mask]]: the mask must have the length of [a]. *)
Definition np_index_mask {A} (a : list A) (mask : list bool) : result (list A) :=
  if Nat.eqb (length mask) (length a)
  then Ok (mask_select mask a)
  else Raise IndexError.

(** ** [ida.py]: [ImageList] *)

Module ImageList.
Section ImageList.
Context {image : Type}.

(** An image is a [uint8] pixel array; [shape] is its [shape]. *)
Variable shape : image → list nat.

Record t : Type := mk { image_ids : list string; images : list image }.

  (** What [__getitem__] may be given. *)
Inductive index : Type :=
    | IdxInt (i : Z)
    | IdxList (l : list Z)
    | IdxMask (m : list bool)
    | IdxSlice (start stop step : option Z)
    | IdxBool (b : bool)
    | IdxFloat (q : Q)
    | IdxNone.

  (** [isinstance(idx, Iterable)] *)
Definition is_iterable (idx : index) : bool :=
    match idx with IdxList _ | IdxMask _ => true | _ => false end.

  (** [np.issubdtype(type(idx), np.integer)] *)
Definition is_integer (idx : index) : bool :=
    match idx with IdxInt _ => true | _ => false end.

  (** [__init__]: the number of ids and of images agree.  The ids are
      strings, so that their array has one dimension.  The check of the
      four dimensions of the stacked images is made in
      [memory_mapped_image_list], where the images are stacked; indexing
      the stack by a list or a mask keeps its four dimensions. *)
Definition init (image_ids : list string) (images : list image) : result t :=
    _ ← assert (Nat.eqb (length image_ids) (length images));
    Ok (mk image_ids images).

  (** [a[idx]] for an iterable [idx] *)
Definition np_index_iterable {A} (a : list A) (idx : index) : result (list A) :=
    match idx with
    | IdxList l => mapM (np_index_int a) l
    | IdxMask m => np_index_mask a m
    | _ => Raise IndexError
    end.

Inductive item : Type :=
    | Single (image_id : string) (img : image)
    | Sub (il : t).

Definition getitem (self : t) (idx : index) : result item :=
    if is_iterable idx then
      ids ← np_index_iterable (image_ids self) idx;
      imgs ← np_index_iterable (images self) idx;
      il ← init ids imgs;
      Ok (Sub il)
    else if is_integer idx then
      match idx with
      | IdxInt i =>
          id ← np_index_int (image_ids self) i;
          img ← np_index_int (images self) i;
          Ok (Single id img)
      | _ => Raise TypeError
      end
    else Raise ValueError.

Definition len (self : t) : nat := length (image_ids self).

  (** Iteration over a [Sequence]: [self[0]], [self[1]], ... until the
      first [IndexError]. *)
Definition iter (self : t) : list (string * image) :=
    zip (image_ids self) (images self).

  (** [np.array(images, dtype=np.uint8)]: the pixel arrays are stacked,
      which needs arrays of one shape. *)
Definition np_array (images : list image) : result (list image) :=
    match images with
    | [] => Ok []
    | img :: images' =>
        if forallb (λ i, bool_decide (shape i = shape img)) images'
        then Ok images
        else Raise ValueError
    end.

  (** [len(images.shape)] of the stack *)
Definition ndim (images : list image) : nat :=
    match images with
    | [] => 1
    | img :: _ => S (length (shape img))
    end.

  (** [memory_mapped_image_list]: [image_ids, images = list(zip( *image_iter))]
      needs at least one image; the images are stacked and handed to
      [__init__], which wants a stack of four dimensions.  The temporary
      files are written and read back without failure. *)
Definition memory_mapped_image_list (image_iter : list (string * image))
      : result t :=
    match image_iter with
    | [] => Raise ValueError
    | _ =>
        images ← np_array (map snd image_iter);
        il ← init (map fst image_iter) images;
        _ ← assert (Nat.eqb (ndim images) 4);
        Ok il
    end.
End ImageList.
Arguments t : clear implicits.
Arguments item : clear implicits.
End ImageList.

(** ** [ida.py]: [run_cv] *)

Section run_cv.
Context {image search : Type}.

  (** [GridSearchCV(estimator=pipeline, param_grid=param_grid, cv=cv, ...).fit(X, y)] *)
Variable search_fit :
    cv_splitter → ImageList.t image → list Z → result search.

Definition run_cv (images : ImageList.t image) (predicted_classes : list Z)
      (all_classes : option (list Z)) (min_k_folds max_k_folds : Z)
      : result search :=
    plan ← run_cv_plan predicted_classes all_classes min_k_folds max_k_folds;
    let (indices, cv) := plan : list bool * cv_splitter in
    X ← ImageList.getitem images (ImageList.IdxMask indices);
    match X with
    | ImageList.Sub X =>
        y ← np_index_mask predicted_classes indices;
        search_fit cv X y
    | ImageList.Single _ _ => Raise TypeError
    end.
End run_cv.


(** ** NumPy reductions used by the selector *)

(** [np.sum(np.asarray(rows), axis=0)]: the sums of the columns.  Rows of
    different lengths make no rectangular array. *)
Definition sum_axis0 (rows : list (list Z)) : result (list Z) :=
match rows with
| [] => Ok []
| r :: rs =>
    if forallb (λ r', Nat.eqb (length r') (length r)) rs
    then Ok (foldl (zip_with Z.add) r rs)
    else Raise ValueError
end.

(** [np.sum] of a vector *)
Definition np_sum (v : list Z) : Z := foldr Z.add 0 v.

(** [np.asarray(rows)[:, cols]] *)
Definition select_columns (rows : list (list Z)) (cols : list nat)
  : result (list (list Z)) :=
match rows with
| [] => Ok []
| r :: rs =>
    if forallb (λ r', Nat.eqb (length r') (length r)) rs
    then mapM (λ row, mapM (λ c, match row !! c with
                                 | Some x => Ok x
                                 | None => Raise IndexError
                                 end) cols) rows
    else Raise ValueError
end.

(** The distinct values of a list of rationals, [np.unique]. *)
Fixpoint np_unique (l : list Q) : list Q :=
match l with
| [] => []
| x :: l' => x :: filter (λ y, negb (Qeq_bool x y)) (np_unique l')
end.

(** [np.quantile(a, q)] with the default linear interpolation: the value at
    the fractional position [q * (n - 1)] of the sorted data.  [None] is
    NaN, the quantile of no data. *)
Definition np_quantile (a : list Q) (q : Q) : result (option Q) :=
if negb (Qle_bool 0 q && Qle_bool q 1) then Raise ValueError
else match a with
     | [] => Ok None
     | x :: _ =>
         let s := sorted Qle_bool a in
         let n := Z.of_nat (length a) in
         let pos := (q * inject_Z (n - 1))%Q in
         let lo := Qfloor pos in
         let hi := Z.min (lo + 1) (n - 1) in
         let g := (pos - inject_Z lo)%Q in
         let a_lo := nth (Z.to_nat lo) s x in
         let a_hi := nth (Z.to_nat hi) s x in
         Ok (Some (a_lo + g * (a_hi - a_lo))%Q)
     end.

(** [i > threshold], false against NaN *)
Definition exceeds (i : Q) (threshold : option Q) : bool :=
match threshold with
| Some t => negb (Qle_bool i t)
| None => false
end.

(** ** Calls to the explainer

    A computation of the selector returns its result together with the ids
    of the images it has handed to the explainer, in order. *)

Definition traced (A : Type) : Type := list string * result A.

#[global] Instance traced_ret : MRet traced := λ A a, ([], Ok a).
#[global] Instance traced_bind : MBind traced := λ A B f m,
  match m with
  | (l, Ok a) => let (l', r) := f a in (l ++ l', r)
  | (l, Raise e) => (l, Raise e)
  end.

Definition lift {A} (r : result A) : traced A := ([], r).

(** ** [ida.py]: [InterpretPickTransformer] *)

Module InterpretPickTransformer.
Section InterpretPickTransformer.
Context {image mask stats : Type}.

(** [self.type2(image=image, image_id=image_id)]: the concept occurrences
    on an image, each with its mask and its influence flag. *)
Variable type2 : string → image → result (list (Z * mask * bool)).
(** [self.type2.stats] *)
Variable type2_stats : stats.
(** [self.interpreter.concepts] *)
Variable concepts : list string.
(** [self.interpreter.concept_ids_to_counts], defined outside [src/]. *)
Variable concept_ids_to_counts : list Z → list Z.

(** The attributes set by fitting. *)
Record fitted : Type := mk_fitted {
  num_influential_concept_instances_ : Z;
  stats_ : stats;
  concept_influences_ : list Q;
  picked_concepts_ : list nat;
  picked_concept_names_ : list string
}.

Record t : Type := mk {
  threshold : Q;
  quantile : bool;
  attrs : option fitted
}.

(** [list(zip( *rows))] followed by the unpacking into two names *)
Definition unpack2 {A B} (rows : list (A * B)) : result (list A * list B) :=
match rows with
| [] => Raise ValueError
| _ => Ok (map fst rows, map snd rows)
end.

Definition _get_single_counts (image_id : string) (img : image)
  : traced (list Z * list Z) :=
  r ← ([image_id], type2 image_id img);
  cols ← lift (unpack2 r);
  let concept_ids := map fst (fst cols) in
  let influences := snd cols in
  let counts := concept_ids_to_counts concept_ids in
  let influential_concept_ids :=
    map fst (filter (λ ci, snd ci = true) (zip concept_ids influences)) in
  let influential_counts := concept_ids_to_counts influential_concept_ids in
  mret (counts, influential_counts).

(** The zipped result, before any unpacking. *)
Definition _get_counts (X : ImageList.t image) : traced (list (list Z * list Z)) :=
  mapM (λ x, _get_single_counts (fst x) (snd x)) (ImageList.iter X).

Definition get_influential_concepts (threshold : Q) (quantile : bool)
    (concept_influences_ : list Q) : result (list nat) :=
  let pick threshold :=
    map fst (filter (λ ii, exceeds (snd ii) threshold = true)
                    (imap (λ idx i, (idx, i)) concept_influences_)) in
  if quantile then
    if Nat.eqb (length (np_unique concept_influences_)) 1
    then Ok (seq 0 (length concept_influences_))
    else
      threshold ← np_quantile concept_influences_ threshold;
      Ok (pick threshold)
  else Ok (pick (Some threshold)).

(** The body of the loop of [_evaluate_counters]: the influence ratio of a
    concept, from the summed counts. *)
Definition influence_ratio (counts influential_counts : list Z) (concept_id : nat)
  : result Q :=
  match influential_counts !! concept_id with
  | None => Raise IndexError
  | Some influential_count =>
      match counts !! concept_id with
      | None => Raise IndexError
      | Some total_count =>
          if Z.eqb total_count 0 then Ok 0%Q
          else Ok (inject_Z influential_count / inject_Z total_count)%Q
      end
  end.

Definition _evaluate_counters (self : t) (counts influential_counts : list (list Z))
  : result t :=
  counts ← sum_axis0 counts;
  influential_counts ← sum_axis0 influential_counts;
  let num := np_sum influential_counts in
  concept_influences ← mapM (influence_ratio counts influential_counts)
                            (seq 0 (length concepts));
  picked ← get_influential_concepts (threshold self) (quantile self) concept_influences;
  names ← mapM (λ c, match concepts !! c with
                     | Some n => Ok n
                     | None => Raise IndexError
                     end) picked;
  Ok (mk (threshold self) (quantile self)
         (Some (mk_fitted num type2_stats concept_influences picked names))).

Definition fit (self : t) (X : ImageList.t image) : traced t :=
  zipped ← _get_counts X;
  cols ← lift (unpack2 zipped);
  lift (_evaluate_counters self (fst cols) (snd cols)).

(** [check_is_fitted(self)] *)
Definition check_is_fitted (self : t) : result unit :=
match attrs self with
| Some _ => Ok tt
| None => Raise NotFittedError
end.

(** [self.picked_concepts_] *)
Definition get_picked_concepts_ (self : t) : result (list nat) :=
match attrs self with
| Some f => Ok (picked_concepts_ f)
| None => Raise AttributeError
end.

Definition transform (self : t) (X : ImageList.t image) : traced (list (list Z)) :=
  _ ← lift (check_is_fitted self);
  zipped ← _get_counts X;
  cols ← lift (unpack2 zipped);
  picked ← lift (get_picked_concepts_ self);
  lift (select_columns (fst cols) picked).

Definition fit_transform (self : t) (X : ImageList.t image)
  : traced (t * list (list Z)) :=
  zipped ← _get_counts X;
  cols ← lift (unpack2 zipped);
  self' ← lift (_evaluate_counters self (fst cols) (snd cols));
  picked ← lift (get_picked_concepts_ self');
  m ← lift (select_columns (fst cols) picked);
  mret (self', m).

(** [fit] followed by [transform] on the same selector and the same
    images, to be compared with [fit_transform]. *)
Definition fit_then_transform (self : t) (X : ImageList.t image)
  : traced (t * list (list Z)) :=
  self' ← fit self X;
  m ← transform self' X;
  mret (self', m).

End InterpretPickTransformer.
Arguments fitted : clear implicits.
Arguments t : clear implicits.
End InterpretPickTransformer.


(** ** NumPy sorting and searching used by the experiment *)

(** [np.argsort(names)]: the positions of [names] in increasing order of
    the strings. *)
Definition np_argsort (names : list string) : list nat :=
  sorted (λ i j, String.leb (nth i names EmptyString) (nth j names EmptyString))
         (seq 0 (length names)).

(** The binary search of [np.searchsorted(a, v, side='left', sorter=sorter)]
    for one key, between [min_idx] and [max_idx]: the array is read through
    [sorter].  [fuel] bounds the number of halvings. *)
Fixpoint binsearch (fuel : nat) (a : list Z) (sorter : list nat) (key : Z)
    (min_idx max_idx : nat) : result nat :=
  if Nat.ltb min_idx max_idx then
    match fuel with
    | O => Raise ValueError
    | S fuel =>
        let mid_idx := (min_idx + Nat.div2 (max_idx - min_idx))%nat in
        match sorter !! mid_idx with
        | None => Raise ValueError
        | Some sort_idx =>
            match a !! sort_idx with
            | None => Raise ValueError
            | Some mid_val =>
                if Z.ltb mid_val key
                then binsearch fuel a sorter key (S mid_idx) max_idx
                else binsearch fuel a sorter key min_idx mid_idx
            end
        end
    end
  else Ok min_idx.

(** The loop over the keys: the bounds of a search start from those the
    previous key has left. *)
Fixpoint searchsorted_keys (a : list Z) (sorter : list nat) (keys : list Z)
    (last_key : Z) (min_idx max_idx : nat) : result (list nat) :=
  match keys with
  | [] => Ok []
  | key :: keys' =>
      let arr_len := length a in
      let bounds :=
        if Z.ltb last_key key then (min_idx, arr_len)
        else (0%nat, if Nat.ltb max_idx arr_len then S max_idx else arr_len) in
      r ← binsearch (S arr_len) a sorter key (fst bounds) (snd bounds);
      rs ← searchsorted_keys a sorter keys' key r r;
      Ok (r :: rs)
  end.

Definition np_searchsorted (a v : list Z) (sorter : list nat) : result (list nat) :=
  if negb (Nat.eqb (length sorter) (length a)) then Raise ValueError
  else match v with
       | [] => Ok []
       | key0 :: _ => searchsorted_keys a sorter v key0 0 (length a)
       end.

(** ** [experiment.py]: parameters of an experiment *)

(** The values of a parameter dict: strings, numbers (an [int] and a
    [float] of the same value are equal in Python) and lists of strings. *)
Inductive value : Type :=
  | VStr (s : string)
  | VNum (q : Qc)
  | VList (l : list string).

(** The same after [_freeze]: a list has become a tuple. *)
Inductive fvalue : Type :=
  | FStr (s : string)
  | FNum (q : Qc)
  | FTuple (l : list string).

Definition VInt (n : Z) : value := VNum (Q2Qc (inject_Z n)).

#[global] Instance fvalue_eq_dec : EqDecision fvalue.
Proof. solve_decision. Defined.

#[global] Instance fvalue_countable : Countable fvalue.
Proof.
  refine (inj_countable'
    (λ v, match v with
          | FStr s => inl s
          | FNum q => inr (inl q)
          | FTuple l => inr (inr l)
          end)
    (λ x, match x with
          | inl s => FStr s
          | inr (inl q) => FNum q
          | inr (inr l) => FTuple l
          end) _).
  intros []; reflexivity.
Defined.

Definition KEY_PARAMS : list string :=
  ["classifier"; "images_url"; "num_train_obs"; "num_calibration_obs";
   "interpreter"; "type2"; "type1"; "model_agnostic_picker";
   "max_perturbed_area"; "min_overlap_for_concept_merge"]%string.

(** [_freeze] on a value that is no dict *)
Definition _freeze_value (obj : value) : fvalue :=
  match obj with
  | VList l => FTuple l
  | VStr s => FStr s
  | VNum q => FNum q
  end.

(** [_freeze] on a dict.  The frozen set of the pairs [(k, v)] of a dict
    holds one pair for a key: it is the finite map of these pairs. *)
Definition _freeze (obj : gmap string value) : gmap string fvalue :=
  let obj :=
    match obj !! "model_agnostic_picker"%string with
    | None => <["model_agnostic_picker"%string := VStr "passthrough"]> obj
    | Some _ => obj
    end in
  _freeze_value <$> filter (λ kv, fst kv ∈ KEY_PARAMS) obj.

(** ** [experiment.py]: [Experiment] *)

Module Experiment.
Section Experiment.
Context {image F : Type}.

(** The rows [(image_id, image)] that a reader of the store at a url
    yields, in order. *)
Variable dataset : string → list (string * image).
(** The probability [0.] *)
Variable zero : F.

Record t : Type := mk {
  random_state : Z;
  repetitions : nat;
  images_url : string;
  num_train_obs : nat;
  num_calibration_obs : nat;
  num_test_obs : nat;
  class_names : list string;
  (** the collaborators, as far as [params] reads them *)
  classifier_name : string;
  num_classes : nat;
  interpreter_str : string;
  concept_names : list string;
  type2_str : string;
  type1_str : string;
  model_agnostic_picker_str : string;
  max_perturbed_area : Qc;
  max_concept_overlap : Qc
}.

(** [__post_init__] *)
Definition post_init (self : t) : result unit :=
  assert (Nat.eqb (length (class_names self)) (num_classes self)).

Definition params (self : t) : gmap string value :=
  list_to_map
    [("classifier", VStr (classifier_name self));
     ("class_names", VList (class_names self));
     ("images_url", VStr (images_url self));
     ("num_train_obs", VInt (Z.of_nat (num_train_obs self)));
     ("num_calibration_obs", VInt (Z.of_nat (num_calibration_obs self)));
     ("interpreter", VStr (interpreter_str self));
     ("concept_names", VList (concept_names self));
     ("type2", VStr (type2_str self));
     ("type1", VStr (type1_str self));
     ("model_agnostic_picker", VStr (model_agnostic_picker_str self));
     ("num_test_obs", VInt (Z.of_nat (num_test_obs self)));
     ("max_perturbed_area", VNum (max_perturbed_area self));
     ("min_overlap_for_concept_merge", VNum (max_concept_overlap self))]%string.

Definition is_multi_class (self : t) : bool := Nat.ltb 2 (num_classes self).

Definition all_class_ids (self : t) : list Z :=
  map Z.of_nat (seq 0 (num_classes self)).

(** [_prepare_image_iter]: a fresh reader, [skip] rows dropped. *)
Definition _prepare_image_iter (images_url : string) (skip : nat)
  : list (string * image) :=
  drop skip (dataset images_url).

(** [it.islice(iterator, n)], consumed to its end: the items delivered
    and the iterator after them. *)
Definition islice {A} (iterator : list A) (n : nat) : list A * list A :=
  (take n iterator, drop n iterator).

(** The images of [_prepare_test_observations] *)
Definition test_images (self : t) : list (string * image) :=
  fst (islice (_prepare_image_iter (images_url self) 0) (num_test_obs self)).

(** The collaborators of [run], as far as [run] depends on them: what
    they raise.  Each is a function of what it is given. *)
Record collaborators : Type := mk_collaborators {
  (** the shape of the pixel array of an image *)
  shape : image → list nat;
  (** [_prepare_test_observations], on the test images *)
  prepare_test_observations : t → list (string * image) → result unit;
  (** [self.type2.calibrate], on the calibration slice *)
  calibrate : t → list (string * image) → result unit;
  (** the rest of a repetition: what [ipa] does with the memory-mapped
      training slice (the classifier is observed, the grid search is run),
      then [self.score] and [self.type1.serialize] *)
  fit_and_score : t → ImageList.t image → result unit
}.

Variable collab : collaborators.

(** What a repetition of [run] draws from the stream.  The calibration of
    the explainer and [ipa] each exhaust the slice they are given. *)
Record repetition : Type := mk_repetition {
  rep_no : nat;
  calibration_images : list (string * image);
  train_images : list (string * image)
}.

(** The loop over the repetitions.  [run] is a generator: it yields a
    repetition when the repetition is through, and passes on what a
    collaborator raises.  The result is the list of the repetitions
    yielded when nothing is raised, and the exception otherwise; the
    repetitions yielded before an exception are not part of it. *)
Fixpoint run_loop (self : t) (rep_nos : list nat)
    (train_images_iter : list (string * image)) : result (list repetition) :=
  match rep_nos with
  | [] => Ok []
  | rep_no :: rep_nos' =>
      let (calibration, it1) := islice train_images_iter (num_calibration_obs self) in
      _ ← calibrate collab self calibration;
      let (train, it2) := islice it1 (num_train_obs self) in
      images ← ImageList.memory_mapped_image_list (shape collab) train;
      _ ← fit_and_score collab self images;
      results ← run_loop self rep_nos' it2;
      Ok (mk_repetition rep_no calibration train :: results)
  end.

Definition run (self : t) (resume_at : nat) : result (list repetition) :=
  _ ← assert (Nat.leb 1 resume_at);
  _ ← prepare_test_observations collab self (test_images self);
  let skip_count := (num_test_obs self + (resume_at - 1) * num_train_obs self)%nat in
  let train_images_iter := _prepare_image_iter (images_url self) skip_count in
  run_loop self (seq resume_at (repetitions self + 1 - resume_at)) train_images_iter.

(** [proba_ordered[:, idx] = probs], on one row *)
Definition assign_columns (row : list F) (idx : list nat) (probs : list F)
  : result (list F) :=
  let n := length idx in
  vals ← (if Nat.eqb (length probs) n then Ok probs
          else match probs with
               | [p] => Ok (replicate n p)
               | _ => Raise ValueError
               end);
  Ok (foldl (λ row cv, <[fst cv := snd cv]> row) row (zip idx vals)).

Definition _spread_probs_to_all_classes (self : t) (probs : list (list F))
    (classes_ : list Z) : result (list (list F)) :=
  let proba_ordered := map (λ _, replicate (length (class_names self)) zero) probs in
  let sorter := np_argsort (class_names self) in
  found ← np_searchsorted (all_class_ids self) classes_ sorter;
  idx ← mapM (λ i, match sorter !! i with
                   | Some c => Ok c
                   | None => Raise IndexError
                   end) found;
  mapM (λ rp, assign_columns (fst rp) idx (snd rp)) (zip proba_ordered probs).

(** A prediction is a matrix, or in the binary case a vector. *)
Inductive prediction : Type :=
  | Matrix (rows : list (list F))
  | Vector (col : list F).

(** [pred = surrogate.predict_proba(counts)] is an argument here. *)
Definition _get_predictions (self : t) (pred : list (list F)) (classes_ : list Z)
  : result prediction :=
  pred ← _spread_probs_to_all_classes self pred classes_;
  if Nat.eqb (length (class_names self)) 2
  then Vector <$> mapM (λ row, match row !! 1%nat with
                               | Some p => Ok p
                               | None => Raise IndexError
                               end) pred
  else Ok (Matrix pred).

End Experiment.
Arguments t : clear implicits.
Arguments collaborators : clear implicits.
Arguments repetition : clear implicits.
Arguments prediction : clear implicits.
Arguments params : simpl never.
End Experiment.
Arguments _freeze : simpl never.

(** ** [experiment.py]: [run_experiments] *)

(** A row of [results_packed.csv], as far as the runner reads it back. *)
Record row : Type := mk_row {
  row_exp_no : Z;
  row_params : gmap string value;
  row_rep_no : nat
}.

(** The bookkeeping of the runner: [done_counter], [exp_no_by_params] and
    [next_exp_no]. *)
Record runner : Type := mk_runner {
  done_counter : gmap (gmap string fvalue) nat;
  exp_no_by_params : gmap (gmap string fvalue) Z;
  next_exp_no : Z
}.

Definition runner_init : runner := mk_runner ∅ ∅ 1.

(** [done_counter[params]]: a counter holds 0 for a missing key. *)
Definition done_count (st : runner) (params : gmap string fvalue) : nat :=
  default 0%nat (done_counter st !! params).

(** The body of the loop over the rows of the previous run. *)
Definition load_row (st : runner) (e : row) : result runner :=
  let params := _freeze (row_params e) in
  st' ← match exp_no_by_params st !! params with
        | Some n =>
            _ ← assert (Z.eqb n (row_exp_no e));
            Ok st
        | None =>
            Ok (mk_runner (done_counter st)
                          (<[params := row_exp_no e]> (exp_no_by_params st))
                          (Z.max (row_exp_no e + 1) (next_exp_no st)))
        end;
  Ok (mk_runner (<[params := S (done_count st' params)]> (done_counter st'))
                (exp_no_by_params st') (next_exp_no st')).

Fixpoint load_rows (st : runner) (rows : list row) : result runner :=
  match rows with
  | [] => Ok st
  | e :: rows' => st' ← load_row st e; load_rows st' rows'
  end.

Section run_experiments.
Context {image : Type}.
Variable dataset : string → list (string * image).
Variable collab : Experiment.collaborators image.

(** The body of the loop over the experiments: the new bookkeeping and the
    rows written. *)
Definition run_experiment (st : runner) (e : Experiment.t)
  : result (runner * list row) :=
  let params := _freeze (Experiment.params e) in
  if Nat.leb (Experiment.repetitions e) (done_count st params)
  then Ok (st, [])
  else
    let (exp_no, st1) :=
      match exp_no_by_params st !! params with
      | Some exp_no => (exp_no, st)
      | None =>
          (next_exp_no st,
           mk_runner (done_counter st)
                     (<[params := next_exp_no st]> (exp_no_by_params st))
                     (next_exp_no st + 1))
      end in
    let st2 := mk_runner (<[params := S (done_count st1 params)]> (done_counter st1))
                         (exp_no_by_params st1) (next_exp_no st1) in
    results ← Experiment.run dataset collab e (done_count st2 params);
    Ok (st2, map (λ r, mk_row exp_no (Experiment.params e) (Experiment.rep_no r))
                 results).

Fixpoint run_experiment_list (st : runner) (experiments : list Experiment.t)
  : result (runner * list row) :=
  match experiments with
  | [] => Ok (st, [])
  | e :: es =>
      r ← run_experiment st e;
      r' ← run_experiment_list (fst r) es;
      Ok (fst r', snd r ++ snd r')
  end.

(** [run_experiments]: [previous] holds the rows of the run that is
    continued, and is [None] for a new run; the directory of the results
    exists in the first case and does not in the second.  The result is
    the rows the csv file holds after a run that raises nothing, and the
    exception otherwise: the rows flushed before an exception are not
    part of it. *)
Definition run_experiments (previous : option (list row))
    (experiments : list Experiment.t) : result (list row) :=
  st ← match previous with
       | Some rows =>
           st ← load_rows runner_init rows;
           (* the first row is read to check the fields of the file *)
           match rows with
           | [] => Raise StopIteration
           | _ => Ok st
           end
       | None => Ok runner_init
       end;
  r ← run_experiment_list st experiments;
  Ok (default [] previous ++ snd r).

End run_experiments.

(** ** [make_train_data.py]: perturbers of concept counts

    Count arrays are [np.uint8] arrays: lists of integers from 0 to 255,
    with arithmetic modulo 256. *)

Definition uint8 (z : Z) : Z := z `mod` 256.

Module GlobalPerturber.

(** [perturb]: the count arrays yielded, each with the id of the image it
    was sampled from, and the sampler after the draws.  [sampler] is the
    sequence of pairs that the shared sampler would yield; all arrays have
    the same length. *)
Definition perturb (num_perturbations : nat) (influential_counts counts : list Z)
    (sampler : list (list Z * string))
  : list (list Z * option string) * list (list Z * string) :=
  if existsb (λ c, negb (Z.eqb c 0)) influential_counts
  then
    ((counts, None) ::
       map (λ s, (zip_with Z.max influential_counts (fst s), Some (snd s)))
           (take num_perturbations sampler),
     drop num_perturbations sampler)
  else ([(counts, None)], sampler).

End GlobalPerturber.

Module LocalPerturber.

(** [it.product( *pools)]: the last pool varies fastest. *)
Fixpoint product {A} (pools : list (list A)) : list (list A) :=
  match pools with
  | [] => [[]]
  | pool :: pools' => x ← pool; rest ← product pools'; [x :: rest]
  end.

(** [np.flatnonzero(a)] *)
Definition flatnonzero (a : list Z) : list nat :=
  map fst (filter (λ ic, snd ic ≠ 0) (imap (λ i c, (i, c)) a)).

(** [range(0, n)] *)
Definition range (n : Z) : list Z := map Z.of_nat (seq 0 (Z.to_nat n)).

(** [perturbed[drop_index] -= drop_count], for every pair of [drops] *)
Definition apply_drops (counts : list Z) (drops : list (Z * nat)) : list Z :=
  foldl (λ perturbed d,
           match perturbed !! snd d with
           | Some c => <[snd d := uint8 (c - fst d)]> perturbed
           | None => perturbed
           end) counts drops.

Definition _perturb_exhaustive (counts droppable_counts : list Z)
  : list (list Z * option string) :=
  let gens :=
    map (λ droppable_index,
           map (λ drop_count, (drop_count, droppable_index))
               (range (nth droppable_index droppable_counts 0 + 1)))
        (flatnonzero droppable_counts) in
  map (λ drops, (apply_drops counts drops, None)) (product gens).

(** [_perturb_random]: [randint k high] is the result of the [k]-th call of
    [np.random.randint], made with the bound [high]; [calls] counts the
    calls made before. *)
Fixpoint random_drops (randint : nat → Z → Z) (droppable_counts : list Z)
    (indices : list nat) (calls : nat) : list (Z * nat) :=
  match indices with
  | [] => []
  | drop_index :: indices' =>
      (randint calls (nth drop_index droppable_counts 0 + 1), drop_index)
      :: random_drops randint droppable_counts indices' (S calls)
  end.

Fixpoint random_rounds (randint : nat → Z → Z) (counts droppable_counts : list Z)
    (rounds calls : nat) : list (list Z * option string) :=
  match rounds with
  | O => []
  | S rounds' =>
      let indices := flatnonzero droppable_counts in
      (apply_drops counts (random_drops randint droppable_counts indices calls), None)
      :: random_rounds randint counts droppable_counts rounds'
           (calls + length indices)
  end.

Definition _perturb_random (randint : nat → Z → Z) (max_perturbations : Z)
    (counts droppable_counts : list Z) : list (list Z * option string) :=
  random_rounds randint counts droppable_counts (Z.to_nat max_perturbations) 0.

(** [np.multiply.reduce(a)] of a [uint8] array: the product, in a 64-bit
    unsigned integer. *)
Definition multiply_reduce (a : list Z) : Z := foldr Z.mul 1 a `mod` 2 ^ 64.

Definition perturb (randint : nat → Z → Z) (max_perturbations : Z)
    (influential_counts counts : list Z) : list (list Z * option string) :=
  let droppable_counts := zip_with (λ c i, uint8 (c - i)) counts influential_counts in
  if Z.ltb max_perturbations
       (multiply_reduce (map (λ d, uint8 (d + 1)) droppable_counts))
  then _perturb_random randint max_perturbations counts droppable_counts
  else _perturb_exhaustive counts droppable_counts.

End LocalPerturber.

(** ** [base.py]: [BatchedTorchImageDescriber.batch_iter]

    The batches, as the lists of rows handed to [to_tensor]. *)

Fixpoint batch_loop {A} (batch_size : Z) (rows current_batch : list A)
  : list (list A) :=
  match rows with
  | [] => match current_batch with [] => [] | _ => [current_batch] end
  | row :: rows' =>
      let current_batch := current_batch ++ [row] in
      if Z.ltb (Z.of_nat (length current_batch)) batch_size
      then batch_loop batch_size rows' current_batch
      else current_batch :: batch_loop batch_size rows' []
  end.

Definition batch_iter {A} (batch_size : Z) (rows : list A) : list (list A) :=
  batch_loop batch_size rows [].

(** ** [common.py]: [LoggingMixin] *)

Module LoggingMixin.

(** The nesting counter and the messages logged so far. *)
Record t : Type := mk { log_nesting : Z; messages : list string }.

(** [s * n] for a string [s] *)
Definition str_mul (s : string) (n : Z) : string :=
  String.concat "" (replicate (Z.to_nat n) s).

Definition _log (self : t) (msg : string) : t :=
  let prefix :=
    if Z.eqb (log_nesting self) 0 then ""
    else (str_mul "--" (log_nesting self) +:+ " ")%string in
  mk (log_nesting self) (messages self ++ [(prefix +:+ msg)%string]).

Definition _log_item (self : t) (msg : string) : t :=
  _log self ("<" +:+ msg +:+ "/>")%string.

Definition _log_group_start (self : t) (msg : string) : t :=
  let self := _log self ("<" +:+ msg +:+ ">")%string in
  mk (log_nesting self + 1) (messages self).

Definition _log_group_end (self : t) : t :=
  let self := mk (log_nesting self - 1) (messages self) in
  _log self "<done/>".

(** [with self._log_task(msg): body]: the group is closed on all exits of
    the body. *)
Definition _log_task {A} (self : t) (msg : string) (body : t → result A * t)
  : result A * t :=
  let self := _log_group_start self msg in
  let (r, self) := body self in
  (r, _log_group_end self).

End LoggingMixin.

(** ** Vocabulary of the statements about the runner *)

(** Two parameter dicts differ at most outside the key parameters. *)
Definition agree_on_key_params (p1 p2 : gmap string value) : Prop :=
  ∀ k, k ∈ KEY_PARAMS → p1 !! k = p2 !! k.

(** The rows hold one experiment number for a fingerprint, and one
    fingerprint for an experiment number. *)
Definition consistent (rows : list row) : Prop :=
  ∀ r1 r2, r1 ∈ rows → r2 ∈ rows →
    _freeze (row_params r1) = _freeze (row_params r2)
    ↔ row_exp_no r1 = row_exp_no r2.

(** The bookkeeping of the runner agrees with the rows written so far:
    numbers are below [next_exp_no], no number is given twice, and every
    row has the number of its fingerprint. *)
Definition runner_inv (st : runner) (rows : list row) : Prop :=
  (∀ fp n, exp_no_by_params st !! fp = Some n → n < next_exp_no st)
  ∧ (∀ fp1 fp2 n, exp_no_by_params st !! fp1 = Some n →
                  exp_no_by_params st !! fp2 = Some n → fp1 = fp2)
  ∧ (∀ r, r ∈ rows →
          exp_no_by_params st !! _freeze (row_params r) = Some (row_exp_no r)).

(** Every number of the bookkeeping is the number of a row. *)
Definition runner_from_rows (st : runner) (rows : list row) : Prop :=
  ∀ fp n, exp_no_by_params st !! fp = Some n →
    ∃ r, r ∈ rows ∧ _freeze (row_params r) = fp ∧ row_exp_no r = n.

(** ** Data for the examples *)

(** An experiment over [class_names], with its sizes; the other fields are
    fixed. *)
Definition experiment_of (class_names : list string)
    (repetitions num_train_obs num_calibration_obs num_test_obs : nat)
  : Experiment.t :=
  Experiment.mk 42 repetitions "file:///images" num_train_obs
    num_calibration_obs num_test_obs class_names "resnet18"
    (length class_names) "ground_truth_objects" ["person"; "car"]
    "SaliencyType2Explainer(quantile_level=0.5)" "tree" "passthrough"
    (Q2Qc (3 # 5)) (Q2Qc (2 # 5)).

(** Collaborators that raise nothing, on images that all have the shape
    of a pixel array of height 2, width 2 and 3 channels. *)
Definition quiet : Experiment.collaborators nat :=
  Experiment.mk_collaborators (λ _, [2; 2; 3]%nat)
    (λ _ _, Ok tt) (λ _ _, Ok tt) (λ _ _, Ok tt).

(** A store of ten images, numbered from 0. *)
Definition ten_images (url : string) : list (string * nat) :=
  map (λ i, (String (Ascii.ascii_of_nat (48 + i)) EmptyString, i)) (seq 0 10).

(** An explainer that finds the concepts 0 (influential) and 1 (not
    influential) on every image, and the counting of concept ids over two
    concepts. *)
Definition two_concepts_type2 (image_id : string) (img : nat)
  : result (list (Z * unit * bool)) :=
  Ok [(0, tt, true); (1, tt, false)].

Definition two_concepts_counts (concept_ids : list Z) : list Z :=
  map (λ c, occurrences c concept_ids) [0; 1].

(** * Properties *)

(** A decidable proposition on concrete data is settled by evaluation. *)
Ltac by_compute := apply (bool_decide_unpack _); vm_compute; exact I.

(** ** Sorting *)

Section sorted_facts.
Context {A : Type} (le : A → A → bool).

Lemma insert_sorted_perm x l : insert_sorted le x l ≡ₚ x :: l.
Proof.
  induction l as [|y l IH]; simpl; [done|].
  destruct (le x y); [done|].
  rewrite IH. apply Permutation_swap.
Qed.

Lemma sorted_perm l : sorted le l ≡ₚ l.
Proof.
  induction l as [|x l IH]; simpl; [done|].
  unfold sorted in IH. rewrite insert_sorted_perm. by rewrite IH.
Qed.

Lemma sorted_length l : length (sorted le l) = length l.
Proof. by rewrite sorted_perm. Qed.

Lemma elem_of_sorted x l : x ∈ sorted le l ↔ x ∈ l.
Proof. by rewrite sorted_perm. Qed.

Hypothesis le_total : ∀ x y, le x y = true ∨ le y x = true.
Hypothesis le_trans : ∀ x y z, le x y = true → le y z = true → le x z = true.

Lemma insert_sorted_StronglySorted x l :
  StronglySorted (λ a b, le a b = true) l →
  StronglySorted (λ a b, le a b = true) (insert_sorted le x l).
Proof.
  induction 1 as [|y l Hs IH Hy]; simpl.
  - repeat constructor.
  - destruct (le x y) eqn:Hxy.
    + constructor; [by constructor|].
      constructor; [done|].
      eapply Forall_impl; [exact Hy|]. intros z Hz. by eapply le_trans.
    + constructor; [done|].
      rewrite insert_sorted_perm. constructor; [|done].
      destruct (le_total x y); congruence.
Qed.

Lemma sorted_StronglySorted l :
  StronglySorted (λ a b, le a b = true) (sorted le l).
Proof.
  induction l as [|x l IH]; simpl; [constructor|].
  by apply insert_sorted_StronglySorted.
Qed.

Lemma last_sorted_least l z :
  last (sorted le l) = Some z → ∀ x, x ∈ l → le x z = true.
Proof.
  intros Hlast x Hx. apply elem_of_sorted in Hx.
  pose proof (sorted_StronglySorted l) as Hs.
  revert Hs Hlast Hx. generalize (sorted le l). clear l. intros l Hs.
  induction Hs as [|y l Hs IH Hy]; intros Hlast Hx; [by inversion Hx|].
  destruct l as [|y' l'].
  - simpl in Hlast. injection Hlast as <-.
    apply list_elem_of_singleton in Hx as ->.
    destruct (le_total y y); done.
  - change (last (y :: y' :: l')) with (last (y' :: l')) in Hlast.
    apply elem_of_cons in Hx as [->|Hx]; [|by apply IH].
    rewrite Forall_forall in Hy. apply Hy.
    by apply last_Some_elem_of in Hlast.
Qed.

End sorted_facts.

(** ** Counters *)

Lemma occurrences_nil s : occurrences s [] = 0.
Proof. done. Qed.

Lemma occurrences_cons s x xs :
  occurrences s (x :: xs) = (if decide (x = s) then 1 else 0) + occurrences s xs.
Proof.
  unfold occurrences. rewrite filter_cons.
  destruct (decide (x = s)); simpl; lia.
Qed.

Lemma occurrences_app s xs ys :
  occurrences s (xs ++ ys) = occurrences s xs + occurrences s ys.
Proof. unfold occurrences. rewrite filter_app, length_app. lia. Qed.

Lemma occurrences_nonneg s xs : 0 ≤ occurrences s xs.
Proof. unfold occurrences. lia. Qed.

Lemma occurrences_pos s xs : 0 < occurrences s xs ↔ s ∈ xs.
Proof.
  induction xs as [|x xs IH]; rewrite ?occurrences_nil, ?occurrences_cons.
  - split; [lia|by inversion 1].
  - rewrite elem_of_cons. pose proof (occurrences_nonneg s xs).
    destruct (decide (x = s)) as [->|Hne]; [split; [by left|lia]|].
    rewrite Z.add_0_l, IH. split; [by right|]. intros [->|]; done.
Qed.

Lemma occurrences_NoDup s xs : NoDup xs → occurrences s xs ≤ 1.
Proof.
  induction 1 as [|x xs Hx Hnd IH]; rewrite ?occurrences_nil, ?occurrences_cons; [lia|].
  destruct (decide (x = s)) as [->|]; [|lia].
  pose proof (occurrences_pos s xs). pose proof (occurrences_nonneg s xs).
  destruct (decide (0 < occurrences s xs)); [tauto|lia].
Qed.

Lemma occurrences_filter (P : Z → Prop) `{!∀ x, Decision (P x)} s xs :
  occurrences s (filter P xs) = if decide (P s) then occurrences s xs else 0.
Proof.
  induction xs as [|x xs IH]; [by destruct (decide (P s))|].
  rewrite filter_cons, occurrences_cons.
  destruct (decide (P x)) as [HP|HP]; rewrite ?occurrences_cons, IH;
    destruct (decide (x = s)) as [->|], (decide (P s)); try done; lia.
Qed.

Lemma counter_get_add s x c :
  counter_get s (counter_add x c)
  = counter_get s c + (if decide (x = s) then 1 else 0).
Proof.
  induction c as [|[y n] c IH]; simpl.
  - destruct (Z.eqb_spec s x), (decide (x = s)); try done; congruence.
  - destruct (Z.eqb_spec x y) as [->|Hxy]; simpl.
    + destruct (Z.eqb_spec s y), (decide (y = s)); try lia; congruence.
    + destruct (Z.eqb_spec s y) as [->|]; [|done].
      destruct (decide (x = y)); [done|lia].
Qed.

Lemma counter_add_keys x c :
  map fst (counter_add x c)
  = if decide (x ∈ map fst c) then map fst c else map fst c ++ [x].
Proof.
  induction c as [|[y n] c IH]; simpl; [done|].
  destruct (Z.eqb_spec x y) as [->|Hxy]; simpl.
  - rewrite decide_True; [done|by left].
  - rewrite IH. destruct (decide (x ∈ map fst c)) as [Hin|Hin].
    + rewrite decide_True; [done|by right].
    + rewrite decide_False; [done|]. by intros [?|?]%elem_of_cons.
Qed.

Lemma counter_add_NoDup x c : NoDup (map fst c) → NoDup (map fst (counter_add x c)).
Proof.
  intros Hnd. rewrite counter_add_keys. case_decide; [done|].
  apply NoDup_app. split_and!; [done| |apply NoDup_singleton].
  intros y Hy ->%list_elem_of_singleton. done.
Qed.

Lemma counter_get_elem_of s n c :
  NoDup (map fst c) → (s, n) ∈ c → counter_get s c = n.
Proof.
  induction c as [|[y m] c IH]; simpl; [by inversion 2|].
  intros [Hy Hnd]%NoDup_cons [Heq|Hin]%elem_of_cons.
  - injection Heq as -> ->. by rewrite Z.eqb_refl.
  - destruct (Z.eqb_spec s y) as [->|]; [|by apply IH].
    destruct Hy. by apply (list_elem_of_fmap_2 fst) in Hin.
Qed.

Lemma Counter_foldl s c xs :
  counter_get s (foldl (λ c x, counter_add x c) c xs)
  = counter_get s c + occurrences s xs.
Proof.
  revert c. induction xs as [|x xs IH]; intros c; simpl.
  - rewrite occurrences_nil. lia.
  - rewrite IH, counter_get_add, occurrences_cons. lia.
Qed.

Lemma Counter_foldl_NoDup c xs :
  NoDup (map fst c) → NoDup (map fst (foldl (λ c x, counter_add x c) c xs)).
Proof.
  revert c. induction xs as [|x xs IH]; intros c Hc; simpl; [done|].
  by apply IH, counter_add_NoDup.
Qed.

Lemma Counter_foldl_keys s c xs :
  s ∈ map fst (foldl (λ c x, counter_add x c) c xs) ↔ s ∈ map fst c ∨ s ∈ xs.
Proof.
  revert c. induction xs as [|x xs IH]; intros c; simpl.
  - split; [by left|]. intros [?|Hs]; [done|by inversion Hs].
  - rewrite IH, counter_add_keys, elem_of_cons.
    case_decide as Hx; [|rewrite elem_of_app, list_elem_of_singleton].
    + split; [tauto|]. intros [?|[->|?]]; tauto.
    + tauto.
Qed.

Lemma Counter_get s xs : counter_get s (Counter xs) = occurrences s xs.
Proof. unfold Counter. by rewrite Counter_foldl. Qed.

Lemma Counter_NoDup xs : NoDup (map fst (Counter xs)).
Proof. apply Counter_foldl_NoDup. constructor. Qed.

(** The items of a counter are the elements counted, each with the number
    of its occurrences. *)
Lemma elem_of_Counter s n xs :
  (s, n) ∈ Counter xs ↔ s ∈ xs ∧ n = occurrences s xs.
Proof.
  split.
  - intros Hin. split.
    + apply (list_elem_of_fmap_2 fst) in Hin. simpl in Hin.
      apply Counter_foldl_keys in Hin as [Hin|]; [by inversion Hin|done].
    + rewrite <- Counter_get. symmetry.
      apply counter_get_elem_of; [apply Counter_NoDup|done].
  - intros [Hs ->].
    assert (s ∈ map fst (Counter xs)) as Hk
      by (apply Counter_foldl_keys; by right).
    apply list_elem_of_fmap in Hk as ([s' n] & -> & Hin). simpl.
    rewrite <- Counter_get.
    by rewrite (counter_get_elem_of _ _ _ (Counter_NoDup xs) Hin).
Qed.

(** ** Fold planning *)

Example class_counts_scenario :
  class_counts [0;0;1;0;2;0;1;0;1;0;0;0;0;0] (Some [0;1;2])
  = Ok [(0, 10); (1, 3); (2, 1)].
Proof. vm_compute. reflexivity. Qed.

Example run_cv_plan_scenario :
  run_cv_plan [0;0;1;0;2;0;1;0;1;0;0;0;0;0] (Some [0;1;2]) 5 7
  = Ok ([true;true;false;true;false;true;false;true;false;true;true;true;true;true],
        StratifiedKFold 7).
Proof. vm_compute. reflexivity. Qed.

Lemma existsb_eqb_elem_of (x : Z) (ys : list Z) :
  existsb (Z.eqb x) ys = bool_decide (x ∈ ys).
Proof.
  induction ys as [|y ys IH].
  - symmetry. apply bool_decide_eq_false_2. by inversion 1.
  - cbn [existsb]. rewrite IH. destruct (Z.eqb_spec x y) as [->|Hne].
    + symmetry. apply bool_decide_eq_true_2. by left.
    + apply bool_decide_ext. rewrite elem_of_cons. tauto.
Qed.

Lemma mask_select_map {A} (f : A → bool) (l : list A) :
  mask_select (map f l) l = filter (λ x, f x = true) l.
Proof.
  induction l as [|x l IH]; [done|]. simpl. rewrite filter_cons, IH.
  destruct (f x); by simplify_option_eq.
Qed.

Lemma existsb_id_map {A} (f : A → bool) (l : list A) :
  existsb id (map f l) = true ↔ ∃ x, x ∈ l ∧ f x = true.
Proof.
  rewrite existsb_exists. setoid_rewrite in_map_iff.
  setoid_rewrite <- list_elem_of_In. unfold id. split.
  - intros (b & (x & <- & Hx) & Hb). eauto.
  - intros (x & Hx & Hb). exists true. split; [|done]. exists x. by rewrite Hb.
Qed.

(** With a class universe, [class_counts] raises nothing: no count is -1. *)
Lemma class_counts_Some predicted_classes ac :
  class_counts predicted_classes (Some ac)
  = Ok (sorted count_key_le
          (map (λ sc, (fst sc, snd sc - 1)) (Counter (predicted_classes ++ ac)))).
Proof.
  unfold class_counts. simpl.
  destruct (existsb _ _) eqn:Hex; [|done].
  apply existsb_exists in Hex as ([s c] & Hin & Hc).
  apply in_map_iff in Hin as ([s' n] & [= <- <-] & Hin).
  apply list_elem_of_In, elem_of_Counter in Hin as [Hs ->].
  apply occurrences_pos in Hs. simpl in Hc. lia.
Qed.

(** The counts of [class_counts]: every class predicted or in the universe,
    with the number of its occurrences in both together, less one. *)
Lemma elem_of_class_counts predicted_classes ac counts s c :
  class_counts predicted_classes (Some ac) = Ok counts →
  (s, c) ∈ counts ↔
    s ∈ predicted_classes ++ ac ∧ c = occurrences s (predicted_classes ++ ac) - 1.
Proof.
  rewrite class_counts_Some. intros [= <-].
  rewrite elem_of_sorted, list_elem_of_fmap. split.
  - intros ([s' n] & [= -> ->] & [Hs ->]%elem_of_Counter). done.
  - intros [Hs ->]. exists (s, occurrences s (predicted_classes ++ ac)).
    split; [done|]. by apply elem_of_Counter.
Qed.

Lemma elem_of_enough_samples counts min_k_folds s :
  s ∈ enough_samples counts min_k_folds ↔ ∃ c, (s, c) ∈ counts ∧ min_k_folds ≤ c.
Proof.
  unfold enough_samples. rewrite list_elem_of_fmap. split.
  - intros ([s' c] & -> & [Hc Hin]%list_elem_of_filter). eauto.
  - intros (c & Hin & Hc). exists (s, c). split; [done|].
    by apply list_elem_of_filter.
Qed.

(** The mask of [filter_for_split]: an observation is kept when its
    predicted class occurs at least [min_k_folds + 1] times in the
    predictions and the universe together. *)
Lemma filter_for_split_Some predicted_classes min_k_folds ac :
  filter_for_split predicted_classes min_k_folds (Some ac)
  = Ok (map (λ p, bool_decide
                    (min_k_folds ≤ occurrences p (predicted_classes ++ ac) - 1))
            predicted_classes).
Proof.
  unfold filter_for_split.
  destruct (class_counts predicted_classes (Some ac)) as [counts|e] eqn:Hcc;
    [|by rewrite class_counts_Some in Hcc].
  simpl. f_equal. unfold isin. apply map_ext_in. intros p Hp%list_elem_of_In.
  rewrite existsb_eqb_elem_of. apply bool_decide_ext.
  rewrite elem_of_enough_samples. split.
  - intros (c & Hin & Hc).
    apply (elem_of_class_counts _ _ _ _ _ Hcc) in Hin as [_ ->]. done.
  - intros Hc. eexists. split; [|exact Hc].
    apply (elem_of_class_counts _ _ _ _ _ Hcc). split; [|done].
    apply elem_of_app. by left.
Qed.

Lemma most_common_le_total (x y : Z * Z) :
  Z.leb (snd y) (snd x) = true ∨ Z.leb (snd x) (snd y) = true.
Proof. rewrite !Z.leb_le. lia. Qed.

Lemma most_common_le_trans (x y z : Z * Z) :
  Z.leb (snd y) (snd x) = true → Z.leb (snd z) (snd y) = true →
  Z.leb (snd z) (snd x) = true.
Proof. rewrite !Z.leb_le. lia. Qed.

(** [determine_k_folds] on predictions that are not empty: the least
    number of occurrences of a class, capped by [max_k_folds]. *)
Lemma determine_k_folds_spec predicted_classes max_k_folds :
  predicted_classes ≠ [] →
  ∃ s, s ∈ predicted_classes
     ∧ (∀ s', s' ∈ predicted_classes →
              occurrences s predicted_classes ≤ occurrences s' predicted_classes)
     ∧ determine_k_folds predicted_classes max_k_folds
       = Ok (Z.min max_k_folds (occurrences s predicted_classes)).
Proof.
  intros Hne. unfold determine_k_folds.
  destruct (last (most_common (Counter predicted_classes))) as [[s n]|] eqn:Hlast.
  - pose proof (last_Some_elem_of _ _ Hlast) as Hin.
    unfold most_common in Hin. apply elem_of_sorted, elem_of_Counter in Hin as [Hs ->].
    exists s. split_and!; [done| |done].
    intros s' Hs'.
    pose proof (last_sorted_least _ most_common_le_total most_common_le_trans
                  _ _ Hlast (s', occurrences s' predicted_classes)) as Hle.
    simpl in Hle. apply Z.leb_le, Hle. by apply elem_of_Counter.
  - apply last_None in Hlast. unfold most_common in Hlast.
    destruct predicted_classes as [|p l]; [done|].
    assert ((p, occurrences p (p :: l)) ∈ sorted (λ x y, Z.leb (snd y) (snd x))
              (Counter (p :: l))) as Hin.
    { apply elem_of_sorted, elem_of_Counter. split; [by left|done]. }
    rewrite Hlast in Hin. by inversion Hin.
Qed.

Lemma mask_select_all_true {A} (l : list A) (mask : list bool) :
  length mask = length l → mask_select (map (λ _, true) mask) l = l.
Proof.
  revert l. induction mask as [|b mask IH]; intros [|x l]; simpl; try done.
  intros [= Hlen]. by rewrite IH.
Qed.

Lemma existsb_id_false (mask : list bool) :
  existsb id mask = false ↔ ∀ b, b ∈ mask → b = false.
Proof.
  induction mask as [|b mask IH]; simpl.
  - split; [by inversion 2|done].
  - rewrite orb_false_iff, IH. unfold id. split.
    + intros [-> Hm] b' [->|?]%elem_of_cons; auto.
    + intros Hm. split; [apply Hm; by left|]. intros b' ?. apply Hm. by right.
Qed.

(** The constructors of the splitters accept 2 splits and more. *)
Lemma check_n_splits_Ok (n_splits : Z) : 2 ≤ n_splits → check_n_splits n_splits = Ok tt.
Proof. intros Hn. unfold check_n_splits. by destruct (Z.leb_spec n_splits 1); [lia|]. Qed.

Lemma check_n_splits_error (n_splits : Z) :
  n_splits ≤ 1 → check_n_splits n_splits = Raise ValueError.
Proof. intros Hn. unfold check_n_splits. by destruct (Z.leb_spec n_splits 1); [|lia]. Qed.

(** With a single fold the plan is refused by the constructor of the
    splitter, when a class is retained and when none is. *)
Example run_cv_plan_single_fold :
  run_cv_plan [0; 1; 1] (Some [0; 1]) 1 5 = Raise ValueError
  ∧ run_cv_plan [] (Some [0]) 1 1 = Raise ValueError.
Proof. split; vm_compute; reflexivity. Qed.

(** C6.  When every predicted class occurs fewer than [min_k_folds] times
    (the class universe lists no class twice, and [min_k_folds] is a number
    of splits that [KFold] accepts: 2 or more), the fold planning of
    [run_cv] keeps every observation and chooses a plain [KFold] with
    [min_k_folds] splits. *)
Theorem plan_all_classes_rare predicted_classes ac min_k_folds max_k_folds :
  2 ≤ min_k_folds →
  min_k_folds ≤ max_k_folds →
  NoDup ac →
  (∀ s, s ∈ predicted_classes → occurrences s predicted_classes < min_k_folds) →
  run_cv_plan predicted_classes (Some ac) min_k_folds max_k_folds
  = Ok (replicate (length predicted_classes) true, KFold min_k_folds).
Proof.
  intros Hmin Hk Hnd Hrare. unfold run_cv_plan.
  rewrite bool_decide_eq_true_2 by done. simpl.
  rewrite filter_for_split_Some. simpl.
  set (mask := map _ predicted_classes).
  assert (existsb id mask = false) as ->.
  { apply existsb_id_false. intros b (p & -> & Hp)%list_elem_of_fmap.
    apply bool_decide_eq_false_2. rewrite occurrences_app.
    pose proof (occurrences_NoDup p ac Hnd). specialize (Hrare p Hp). lia. }
  simpl. rewrite check_n_splits_Ok by done. simpl.
  do 2 f_equal. unfold mask. rewrite map_map.
  clear. induction predicted_classes; simpl; by f_equal.
Qed.

Lemma plan_all_classes_rare_witness :
  run_cv_plan [0; 1; 1; 2; 0; 2; 1] (Some [0; 1; 2]) 5 5
  = Ok (replicate 7 true, KFold 5).
Proof.
  apply (plan_all_classes_rare [0; 1; 1; 2; 0; 2; 1] [0; 1; 2] 5 5).
  - lia.
  - lia.
  - by_compute.
  - apply Forall_forall. by_compute.
Defined.

(** C7.  When the class universe is duplicate-free and holds every
    predicted class, [min_k_folds] is at least 2 (the least number of
    splits that [StratifiedKFold] accepts) and some class occurs at
    least [min_k_folds] times, then the plan is a [StratifiedKFold] whose
    number of splits is the minimum of [max_k_folds] and of the number of
    occurrences of the least-represented retained class, and the mask
    selects exactly the observations whose predicted class is retained. *)
Theorem plan_some_class_retained predicted_classes ac min_k_folds max_k_folds :
  2 ≤ min_k_folds → min_k_folds ≤ max_k_folds →
  NoDup ac → (∀ p, p ∈ predicted_classes → p ∈ ac) →
  (∃ s, min_k_folds ≤ occurrences s predicted_classes) →
  ∃ s_min k_folds,
    min_k_folds ≤ occurrences s_min predicted_classes
    ∧ (∀ s, min_k_folds ≤ occurrences s predicted_classes →
            occurrences s_min predicted_classes ≤ occurrences s predicted_classes)
    ∧ k_folds = Z.min max_k_folds (occurrences s_min predicted_classes)
    ∧ k_folds ≤ max_k_folds
    ∧ run_cv_plan predicted_classes (Some ac) min_k_folds max_k_folds
      = Ok (map (λ p, bool_decide (min_k_folds ≤ occurrences p predicted_classes))
                predicted_classes,
            StratifiedKFold k_folds).
Proof.
  intros Hmin Hk Hnd Hsub (s0 & Hs0).
  set (retained := λ p, bool_decide (min_k_folds ≤ occurrences p predicted_classes)).
  assert (filter_for_split predicted_classes min_k_folds (Some ac)
          = Ok (map retained predicted_classes)) as Hmask.
  { rewrite filter_for_split_Some. f_equal. apply map_ext_in.
    intros p Hp%list_elem_of_In. apply bool_decide_ext.
    rewrite occurrences_app.
    pose proof (occurrences_NoDup p ac Hnd).
    pose proof (proj2 (occurrences_pos p ac) (Hsub p Hp)). lia. }
  assert (s0 ∈ predicted_classes) as Hs0in by (apply occurrences_pos; lia).
  set (R := filter (λ p, retained p = true) predicted_classes).
  assert (s0 ∈ R) as HR0.
  { apply list_elem_of_filter. split; [|done]. by apply bool_decide_eq_true_2. }
  assert (R ≠ []) as HRne by (intros HR; rewrite HR in HR0; by inversion HR0).
  destruct (determine_k_folds_spec R max_k_folds HRne) as (s & Hs & Hleast & Hdet).
  assert (∀ p, retained p = true → occurrences p R = occurrences p predicted_classes)
    as HoccR.
  { intros p Hp. unfold R. rewrite occurrences_filter. by rewrite decide_True. }
  apply list_elem_of_filter in Hs as [Hsret Hsin].
  exists s, (Z.min max_k_folds (occurrences s predicted_classes)).
  split_and!; [by apply bool_decide_eq_true_1 in Hsret| |done|lia|].
  - intros s' Hs'.
    assert (retained s' = true) as Hret' by (by apply bool_decide_eq_true_2).
    rewrite <- (HoccR s Hsret), <- (HoccR s' Hret'). apply Hleast.
    apply list_elem_of_filter. split; [done|]. apply occurrences_pos. lia.
  - unfold run_cv_plan. rewrite bool_decide_eq_true_2 by done. simpl.
    rewrite Hmask. simpl.
    assert (existsb id (map retained predicted_classes) = true) as ->.
    { apply existsb_id_map. exists s0. split; [done|]. by apply bool_decide_eq_true_2. }
    simpl. rewrite mask_select_map. fold R. rewrite Hdet. simpl.
    rewrite (HoccR s Hsret).
    apply bool_decide_eq_true_1 in Hsret.
    by rewrite check_n_splits_Ok by lia.
Qed.

Lemma plan_some_class_retained_witness :
  ∃ s_min k_folds,
    run_cv_plan [0;0;1;0;2;0;1;0;1;0;0;0;0;0] (Some [0; 1; 2]) 5 7
    = Ok (map (λ p, bool_decide (5 ≤ occurrences p [0;0;1;0;2;0;1;0;1;0;0;0;0;0]))
              [0;0;1;0;2;0;1;0;1;0;0;0;0;0],
          StratifiedKFold k_folds)
    ∧ k_folds = Z.min 7 (occurrences s_min [0;0;1;0;2;0;1;0;1;0;0;0;0;0]).
Proof.
  destruct (plan_some_class_retained [0;0;1;0;2;0;1;0;1;0;0;0;0;0] [0; 1; 2] 5 7)
    as (s_min & k_folds & _ & _ & Hk & _ & Hplan).
  - lia.
  - lia.
  - by_compute.
  - apply Forall_forall. by_compute.
  - exists 0. by vm_compute.
  - exists s_min, k_folds. done.
Defined.

(** ** [run_cv] on an empty inclusion mask *)

Lemma mask_select_repeat_true {A} (l : list A) (mask : list bool) :
  length mask = length l →
  np_index_mask l (map (λ _, true) mask) = Ok l.
Proof.
  intros Hlen. unfold np_index_mask.
  rewrite length_map, Hlen, Nat.eqb_refl. by rewrite mask_select_all_true.
Qed.

(** C2, as the code has it.  When the mask of [filter_for_split] is empty,
    [run_cv] raises nothing of its own: it hands every image and every
    predicted class to the grid search, with a plain [KFold] of
    [min_k_folds] splits ([min_k_folds] being a number of splits that
    [KFold] accepts: 2 or more). *)
Theorem run_cv_empty_mask_fits_everything {image search : Type}
    (search_fit : cv_splitter → ImageList.t image → list Z → result search)
    (images : ImageList.t image) predicted_classes ac min_k_folds max_k_folds mask :
  2 ≤ min_k_folds →
  min_k_folds ≤ max_k_folds →
  length (ImageList.image_ids images) = length predicted_classes →
  length (ImageList.images images) = length predicted_classes →
  filter_for_split predicted_classes min_k_folds (Some ac) = Ok mask →
  (∀ b, b ∈ mask → b = false) →
  run_cv search_fit images predicted_classes (Some ac) min_k_folds max_k_folds
  = search_fit (KFold min_k_folds) images predicted_classes.
Proof.
  intros Hmin Hk Hids Himgs Hmask Hempty. unfold run_cv, run_cv_plan.
  rewrite bool_decide_eq_true_2 by done. simpl. rewrite Hmask. simpl.
  apply existsb_id_false in Hempty. rewrite Hempty. simpl.
  rewrite check_n_splits_Ok by done. simpl.
  assert (length mask = length predicted_classes) as Hlen.
  { rewrite filter_for_split_Some in Hmask. injection Hmask as <-.
    by rewrite length_map. }
  unfold ImageList.getitem. simpl.
  rewrite !mask_select_repeat_true by congruence. simpl.
  unfold ImageList.init. rewrite Hids, Himgs, Nat.eqb_refl. simpl.
  by destruct images.
Qed.

Lemma run_cv_empty_mask_fits_everything_witness :
  run_cv (λ cv X y, Ok (cv, X, y))
         (ImageList.mk ["a"; "b"; "c"; "d"; "e"; "f"] [10; 11; 12; 13; 14; 15]%nat)
         [0; 1; 2; 0; 1; 2] (Some [0; 1; 2]) 5 5
  = Ok (KFold 5,
        ImageList.mk ["a"; "b"; "c"; "d"; "e"; "f"] [10; 11; 12; 13; 14; 15]%nat,
        [0; 1; 2; 0; 1; 2]).
Proof.
  apply (run_cv_empty_mask_fits_everything (image := nat)
           (λ cv X y, Ok (cv, X, y))
           (ImageList.mk ["a"; "b"; "c"; "d"; "e"; "f"] [10; 11; 12; 13; 14; 15]%nat)
           [0; 1; 2; 0; 1; 2] [0; 1; 2] 5 5
           [false; false; false; false; false; false]).
  - lia.
  - lia.
  - reflexivity.
  - reflexivity.
  - vm_compute. reflexivity.
  - apply Forall_forall. by_compute.
Defined.

(** C2 as stated fails: six observations of three classes, two each, with
    [min_k_folds = 5].  The mask is empty and [run_cv] raises nothing; the
    grid search is run on all six observations. *)
Lemma run_cv_empty_mask_no_error :
  filter_for_split [0; 1; 2; 0; 1; 2] 5 (Some [0; 1; 2]) = Ok (replicate 6 false)
  ∧ ¬ (∃ e, run_cv (λ cv X y, Ok (cv, X, y))
              (ImageList.mk ["a"; "b"; "c"; "d"; "e"; "f"]
                            [10; 11; 12; 13; 14; 15]%nat)
              [0; 1; 2; 0; 1; 2] (Some [0; 1; 2]) 5 5 = Raise e).
Proof.
  split; [by vm_compute|]. intros [e He]. vm_compute in He. discriminate He.
Qed.

(** ** Indexing an [ImageList] *)

Lemma np_index_int_error {A} (a : list A) i e :
  np_index_int a i = Raise e → e = IndexError.
Proof.
  unfold np_index_int. repeat case_match; congruence.
Qed.

Lemma mapM_error {A B} (f : A → result B) (l : list A) e :
  mapM f l = Raise e → ∃ x, x ∈ l ∧ f x = Raise e.
Proof.
  induction l as [|x l IH]; simpl; [done|].
  destruct (f x) as [y|e'] eqn:Hfx; simpl.
  - destruct (mapM f l) as [k|e'']; simpl; [done|].
    intros [= ->]. destruct IH as (x' & ? & ?); [done|].
    exists x'. split; [by right|done].
  - intros [= ->]. exists x. split; [by left|done].
Qed.

Lemma mapM_ok_length {A B} (f : A → result B) (l : list A) k :
  mapM f l = Ok k → length k = length l.
Proof.
  revert k. induction l as [|x l IH]; intros k; simpl; [by intros [= <-]|].
  destruct (f x); simpl; [|done].
  destruct (mapM f l); simpl; [|done].
  intros [= <-]. simpl. f_equal. by apply IH.
Qed.

Lemma np_index_iterable_error {A} (a : list A) (idx : ImageList.index) e :
  ImageList.np_index_iterable a idx = Raise e → e = IndexError.
Proof.
  destruct idx; simpl; try congruence.
  - intros (x & _ & Hx)%mapM_error. by eapply np_index_int_error.
  - unfold np_index_mask. case_match; congruence.
Qed.

(** C10.  A slice is no supported key of an [ImageList]: it raises
    [ValueError].  More generally a key yields a single pair only if it is
    an integer and a sub-corpus only if it is iterable, and [ValueError] is
    raised exactly for the keys that are neither. *)
Theorem getitem_supported_keys {image} (self : ImageList.t image) :
  (∀ start stop step,
     ImageList.getitem self (ImageList.IdxSlice start stop step) = Raise ValueError)
  ∧ ∀ idx,
      match ImageList.getitem self idx with
      | Ok (ImageList.Single _ _) => ImageList.is_integer idx = true
      | Ok (ImageList.Sub _) => ImageList.is_iterable idx = true
      | Raise ValueError =>
          ImageList.is_iterable idx = false ∧ ImageList.is_integer idx = false
      | Raise _ =>
          ImageList.is_iterable idx = true ∨ ImageList.is_integer idx = true
      end.
Proof.
  split; [done|]. intros idx. unfold ImageList.getitem.
  destruct (ImageList.is_iterable idx) eqn:Hit.
  - destruct (ImageList.np_index_iterable (ImageList.image_ids self) idx)
      as [ids|e] eqn:Hids; simpl.
    + destruct (ImageList.np_index_iterable (ImageList.images self) idx)
        as [imgs|e] eqn:Himgs; simpl.
      * unfold ImageList.init, assert.
        destruct (Nat.eqb (length ids) (length imgs)); simpl; [done|by left].
      * apply np_index_iterable_error in Himgs as ->. by left.
    + apply np_index_iterable_error in Hids as ->. by left.
  - destruct idx; simpl in *; try done.
    destruct (np_index_int (ImageList.image_ids self) i) as [id|e] eqn:Hid; simpl.
    + destruct (np_index_int (ImageList.images self) i) as [img|e] eqn:Himg; simpl;
        [done|].
      apply np_index_int_error in Himg as ->. by right.
    + apply np_index_int_error in Hid as ->. by right.
Qed.

(** ** The concept-influence selector *)

Lemma mapM_ok_lookup {A B} (f : A → result B) (l : list A) k i x :
  mapM f l = Ok k → l !! i = Some x → ∃ y, f x = Ok y ∧ k !! i = Some y.
Proof.
  revert k i. induction l as [|x' l IH]; intros k i; simpl; [done|].
  destruct (f x') as [y'|] eqn:Hfx; simpl; [|done].
  destruct (mapM f l) as [k'|]; simpl; [|done].
  intros [= <-]. destruct i as [|i]; simpl.
  - intros [= <-]. eauto.
  - intros Hi. by apply IH.
Qed.

Lemma filter_none {A} (P : A → Prop) `{!∀ x, Decision (P x)} (l : list A) :
  Forall (λ x, ¬ P x) l → filter P l = [].
Proof.
  induction 1 as [|x l Hx _ IH]; [done|].
  by rewrite filter_cons, decide_False.
Qed.

Lemma elem_of_np_unique x l : x ∈ np_unique l → x ∈ l.
Proof.
  revert x. induction l as [|y l IH]; intros x; simpl; [done|].
  intros [->|[_ Hx]%list_elem_of_filter]%elem_of_cons; [by left|].
  right. by apply IH.
Qed.

Lemma np_unique_identical l :
  l ≠ [] → (∀ x y, x ∈ l → y ∈ l → Qeq x y) → length (np_unique l) = 1%nat.
Proof.
  destruct l as [|x l]; [done|]. intros _ Heq. simpl.
  rewrite filter_none; [done|].
  apply Forall_forall. intros y Hy%elem_of_np_unique Hneq.
  apply Is_true_true, negb_true_iff in Hneq.
  assert (Qeq_bool x y = true); [|congruence].
  apply Qeq_bool_iff, Heq; [by left|by right].
Qed.

Section selector_facts.
Context {stats : Type}.
Variable type2_stats : stats.
Variable concepts : list string.

#[local] Abbreviation _evaluate_counters :=
  (InterpretPickTransformer._evaluate_counters type2_stats concepts).
#[local] Abbreviation fitted := (InterpretPickTransformer.fitted stats).
#[local] Abbreviation t := (InterpretPickTransformer.t stats).

(** What a successful [_evaluate_counters] has computed. *)
Lemma evaluate_counters_Ok (self self' : t) counts influential_counts :
  _evaluate_counters self counts influential_counts = Ok self' →
  ∃ totals influential infl picked names,
    sum_axis0 counts = Ok totals
    ∧ sum_axis0 influential_counts = Ok influential
    ∧ mapM (InterpretPickTransformer.influence_ratio totals influential) (seq 0 (length concepts)) = Ok infl
    ∧ InterpretPickTransformer.get_influential_concepts
        (InterpretPickTransformer.threshold self)
        (InterpretPickTransformer.quantile self) infl = Ok picked
    ∧ self' = InterpretPickTransformer.mk
        (InterpretPickTransformer.threshold self)
        (InterpretPickTransformer.quantile self)
        (Some (InterpretPickTransformer.mk_fitted
                 (np_sum influential) type2_stats infl picked names)).
Proof.
  unfold InterpretPickTransformer._evaluate_counters.
  destruct (sum_axis0 counts) as [totals|]; simpl; [|done].
  destruct (sum_axis0 influential_counts) as [influential|]; simpl; [|done].
  destruct (mapM _ (seq 0 (length concepts))) as [infl|] eqn:Hinfl; simpl; [|done].
  destruct (InterpretPickTransformer.get_influential_concepts _ _ infl)
    as [picked|] eqn:Hpick; simpl; [|done].
  destruct (mapM _ picked) as [names|]; simpl; [|done].
  intros [= <-]. by exists totals, influential, infl, picked, names.
Qed.

Lemma elem_of_pick (threshold : option Q) (infl : list Q) c :
  c ∈ map fst (filter (λ ii, exceeds (snd ii) threshold = true)
                      (imap (λ idx i, (idx, i)) infl))
  ↔ ∃ i, infl !! c = Some i ∧ exceeds i threshold = true.
Proof.
  rewrite list_elem_of_fmap. split.
  - intros ([c' i] & -> & [Hex Hin]%list_elem_of_filter).
    apply elem_of_lookup_imap in Hin as (j & y & [= -> ->] & Hj). eauto.
  - intros (i & Hi & Hex). exists (c, i). split; [done|].
    apply list_elem_of_filter. split; [done|].
    apply elem_of_lookup_imap. eauto.
Qed.

(** C8.  After fitting in quantile mode, if all influence ratios are
    equal, every concept is picked, whatever the configured threshold. *)
Theorem quantile_identical_ratios_pick_all (self self' : t)
    counts influential_counts f :
  InterpretPickTransformer.quantile self = true →
  _evaluate_counters self counts influential_counts = Ok self' →
  InterpretPickTransformer.attrs self' = Some f →
  (∀ x y, x ∈ InterpretPickTransformer.concept_influences_ f →
          y ∈ InterpretPickTransformer.concept_influences_ f → Qeq x y) →
  InterpretPickTransformer.picked_concepts_ f = seq 0 (length concepts).
Proof.
  intros Hq (totals & influential & infl & picked & names & _ & _ & Hinfl & Hpick & ->)
    %evaluate_counters_Ok [= <-] Hsame. simpl in *.
  apply mapM_ok_length in Hinfl. rewrite length_seq in Hinfl.
  rewrite Hq in Hpick. unfold InterpretPickTransformer.get_influential_concepts in Hpick.
  destruct (decide (infl = [])) as [->|Hne].
  - simpl in *. rewrite <- Hinfl. simpl.
    destruct (np_quantile [] _) as [thr|]; simpl in Hpick; [|done].
    by injection Hpick as <-.
  - rewrite np_unique_identical in Hpick by done. simpl in Hpick.
    injection Hpick as <-. by rewrite Hinfl.
Qed.

Lemma exceeds_zero (threshold : Q) :
  exceeds 0 (Some threshold) = true ↔ (threshold < 0)%Q.
Proof.
  unfold exceeds. rewrite negb_true_iff, <- not_true_iff_false, Qle_bool_iff.
  split; [apply Qnot_le_lt|apply Qlt_not_le].
Qed.

(** C4, as the code has it.  After fitting with a fixed threshold, a
    concept that never occurs has the influence ratio 0, and it is picked
    if and only if the threshold is negative: the comparison is strict, so
    that a threshold of 0 excludes it. *)
Theorem zero_count_concept_fixed_mode (self self' : t)
    counts influential_counts f totals (c : nat) :
  InterpretPickTransformer.quantile self = false →
  _evaluate_counters self counts influential_counts = Ok self' →
  InterpretPickTransformer.attrs self' = Some f →
  sum_axis0 counts = Ok totals →
  totals !! c = Some 0 →
  (c < length concepts)%nat →
  InterpretPickTransformer.concept_influences_ f !! c = Some 0%Q
  ∧ (c ∈ InterpretPickTransformer.picked_concepts_ f
     ↔ (InterpretPickTransformer.threshold self < 0)%Q).
Proof.
  intros Hq (totals' & influential & infl & picked & names & Ht & _ & Hinfl & Hpick & ->)
    %evaluate_counters_Ok [= <-] Htotals Hc Hlt. simpl.
  rewrite Htotals in Ht. injection Ht as <-.
  destruct (mapM_ok_lookup _ _ _ c c Hinfl) as (y & Hy & Hlook);
    [by apply lookup_seq_lt|].
  assert (y = 0%Q) as ->.
  { unfold InterpretPickTransformer.influence_ratio in Hy. rewrite Hc in Hy.
    destruct (influential !! c); simpl in Hy; congruence. }
  split; [done|].
  rewrite Hq in Hpick. injection Hpick as <-.
  etransitivity;
    [apply (elem_of_pick (Some (InterpretPickTransformer.threshold self)) infl c)|].
  split.
  - intros (i & Hi & Hex). rewrite Hlook in Hi. injection Hi as <-.
    by apply exceeds_zero.
  - intros Hthr. exists 0%Q. split; [done|]. by apply exceeds_zero.
Qed.

End selector_facts.

Lemma quantile_identical_ratios_pick_all_witness :
  InterpretPickTransformer.picked_concepts_
    (InterpretPickTransformer.mk_fitted 6 tt [1 # 2; 2 # 4; 3 # 6]%Q
       [0; 1; 2]%nat ["sky"; "tree"; "car"])
  = seq 0 (length ["sky"; "tree"; "car"]).
Proof.
  apply (quantile_identical_ratios_pick_all tt ["sky"; "tree"; "car"]
           (InterpretPickTransformer.mk (9 # 10) true None)
           (InterpretPickTransformer.mk (9 # 10) true
              (Some (InterpretPickTransformer.mk_fitted 6 tt [1 # 2; 2 # 4; 3 # 6]%Q
                       [0; 1; 2]%nat ["sky"; "tree"; "car"])))
           [[1; 2; 3]; [1; 2; 3]] [[1; 1; 1]; [0; 1; 2]]).
  - reflexivity.
  - vm_compute. reflexivity.
  - reflexivity.
  - intros x y Hx Hy.
    repeat (apply elem_of_cons in Hx as [->|Hx]);
      repeat (apply elem_of_cons in Hy as [->|Hy]);
      try reflexivity; try (by inversion Hx); by inversion Hy.
Defined.

Lemma zero_count_concept_fixed_mode_witness :
  [0; 1 # 2]%Q !! 0%nat = Some 0%Q
  ∧ (0%nat ∈ [0; 1]%nat ↔ (-1 # 2 < 0)%Q).
Proof.
  apply (zero_count_concept_fixed_mode tt ["sky"; "tree"]
           (InterpretPickTransformer.mk (-1 # 2) false None)
           (InterpretPickTransformer.mk (-1 # 2) false
              (Some (InterpretPickTransformer.mk_fitted 1 tt [0; 1 # 2]%Q
                       [0; 1]%nat ["sky"; "tree"])))
           [[0; 2]] [[0; 1]]
           (InterpretPickTransformer.mk_fitted 1 tt [0; 1 # 2]%Q [0; 1]%nat
              ["sky"; "tree"])
           [0; 2] 0%nat).
  - reflexivity.
  - vm_compute. reflexivity.
  - reflexivity.
  - reflexivity.
  - reflexivity.
  - simpl. lia.
Defined.

(** C4 as stated fails at the threshold 0: the concept [sky] never
    occurs, its influence ratio is 0, and it is not picked. *)
Lemma zero_count_concept_threshold_zero_excluded :
  ∃ self',
    InterpretPickTransformer._evaluate_counters tt ["sky"; "tree"]
      (InterpretPickTransformer.mk 0 false None) [[0; 2]] [[0; 1]] = Ok self'
    ∧ (InterpretPickTransformer.concept_influences_ <$>
         InterpretPickTransformer.attrs self') = Some [0; 1 # 2]%Q
    ∧ (InterpretPickTransformer.picked_concepts_ <$>
         InterpretPickTransformer.attrs self') = Some [1%nat].
Proof. eexists. split; [by vm_compute|]. by split. Qed.

Section fit_transform_facts.
Context {image mask stats : Type}.
Variable type2 : string → image → result (list (Z * mask * bool)).
Variable type2_stats : stats.
Variable concepts : list string.
Variable concept_ids_to_counts : list Z → list Z.

#[local] Abbreviation _get_single_counts :=
  (InterpretPickTransformer._get_single_counts type2 concept_ids_to_counts).
#[local] Abbreviation _get_counts :=
  (InterpretPickTransformer._get_counts type2 concept_ids_to_counts).
#[local] Abbreviation fit :=
  (InterpretPickTransformer.fit type2 type2_stats concepts concept_ids_to_counts).
#[local] Abbreviation transform :=
  (InterpretPickTransformer.transform (stats := stats) type2 concept_ids_to_counts).
#[local] Abbreviation fit_transform :=
  (InterpretPickTransformer.fit_transform type2 type2_stats concepts
     concept_ids_to_counts).
#[local] Abbreviation fit_then_transform :=
  (InterpretPickTransformer.fit_then_transform type2 type2_stats concepts
     concept_ids_to_counts).

Lemma traced_bind_Ok {A B} (f : A → traced B) l a :
  ((l, Ok a) : traced A) ≫= f = (l ++ fst (f a), snd (f a)).
Proof. unfold mbind, traced_bind. by destruct (f a). Qed.

Lemma traced_bind_lift {A B} (f : A → traced B) (r : result A) :
  lift r ≫= f = match r with Ok a => f a | Raise e => ([], Raise e) end.
Proof. unfold lift, mbind, traced_bind. destruct r; [by destruct (f a)|done]. Qed.

(** The explainer is called once for an image. *)
Lemma get_single_counts_trace image_id img :
  fst (_get_single_counts image_id img) = [image_id].
Proof.
  unfold InterpretPickTransformer._get_single_counts.
  destruct (type2 image_id img) as [r|e]; [|done].
  rewrite traced_bind_Ok, traced_bind_lift. simpl.
  by destruct (InterpretPickTransformer.unpack2 r).
Qed.

Lemma mapM_traced_trace {A B} (f : A → traced B) (l : list A) k :
  snd (mapM f l) = Ok k → fst (mapM f l) = l ≫= (λ x, fst (f x)).
Proof.
  revert k. induction l as [|x l IH]; intros k; simpl; [done|].
  destruct (f x) as [t [y|e]] eqn:Hfx; [|done].
  rewrite traced_bind_Ok. simpl.
  destruct (mapM f l) as [t' [k'|e]] eqn:Hl; [|done].
  rewrite traced_bind_Ok. simpl. intros _.
  specialize (IH k' eq_refl). simpl in IH. by rewrite IH, app_nil_r.
Qed.

(** A successful [_get_counts] has called the explainer once for every
    image, in order. *)
Lemma get_counts_trace X zipped :
  snd (_get_counts X) = Ok zipped →
  fst (_get_counts X) = map fst (ImageList.iter X).
Proof.
  intros Hok. unfold InterpretPickTransformer._get_counts in *.
  rewrite (mapM_traced_trace _ _ _ Hok). clear Hok.
  induction (ImageList.iter X) as [|[id img] l IH]; [done|].
  simpl. rewrite get_single_counts_trace. simpl. by f_equal.
Qed.

(** C5.  [fit_transform] returns what [fit] followed by [transform]
    returns, the fitted selector and the feature matrix or the same
    exception; when it succeeds it has called the explainer once for every
    image, where [fit] followed by [transform] calls it twice. *)
Theorem fit_transform_consistent (self : InterpretPickTransformer.t stats)
    (X : ImageList.t image) :
  snd (fit_transform self X) = snd (fit_then_transform self X)
  ∧ ∀ r, snd (fit_transform self X) = Ok r →
      fst (fit_transform self X) = map fst (ImageList.iter X)
      ∧ fst (fit_then_transform self X)
        = map fst (ImageList.iter X) ++ map fst (ImageList.iter X).
Proof.
  unfold InterpretPickTransformer.fit_transform,
    InterpretPickTransformer.fit_then_transform,
    InterpretPickTransformer.fit, InterpretPickTransformer.transform.
  pose proof (get_counts_trace X) as Htrace.
  destruct (_get_counts X) as [t [zipped|e]] eqn:Hget; [|done].
  specialize (Htrace zipped eq_refl). simpl in Htrace. subst t.
  unfold lift, mbind, traced_bind, mret, traced_ret.
  destruct (InterpretPickTransformer.unpack2 zipped) as [cols|e]; [|done].
  destruct (InterpretPickTransformer._evaluate_counters _ _ self _ _)
    as [self'|e] eqn:Heval; [|done].
  apply evaluate_counters_Ok in Heval
    as (totals & influential & infl & picked & names & _ & _ & _ & _ & ->).
  simpl.
  destruct (select_columns (fst cols) picked) as [m|e]; simpl; [|done].
  split; [done|]. intros r _. by rewrite !app_nil_r.
Qed.

End fit_transform_facts.

Lemma fit_transform_consistent_witness :
  let self := InterpretPickTransformer.mk (1 # 2) false None in
  let X := ImageList.mk ["a"; "b"] [0; 1]%nat in
  fst (InterpretPickTransformer.fit_transform two_concepts_type2 tt
         ["sky"; "tree"] two_concepts_counts self X) = ["a"; "b"]
  ∧ fst (InterpretPickTransformer.fit_then_transform two_concepts_type2 tt
           ["sky"; "tree"] two_concepts_counts self X) = ["a"; "b"; "a"; "b"].
Proof.
  intros self X.
  eapply (proj2 (fit_transform_consistent two_concepts_type2 tt ["sky"; "tree"]
                   two_concepts_counts self X)).
  vm_compute. reflexivity.
Defined.

(** ** Repetitions and the image stream *)

Section run_facts.
Context {image : Type}.
Variable dataset : string → list (string * image).
Variable collab : Experiment.collaborators image.

(** A loop that raises nothing: its first repetition and the loop over
    the others. *)
Lemma run_loop_cons_Ok (self : Experiment.t) rn rep_nos
    (it : list (string * image)) results :
  Experiment.run_loop collab self (rn :: rep_nos) it = Ok results →
  ∃ rest,
    results
    = Experiment.mk_repetition rn
        (take (Experiment.num_calibration_obs self) it)
        (take (Experiment.num_train_obs self)
           (drop (Experiment.num_calibration_obs self) it)) :: rest
    ∧ Experiment.run_loop collab self rep_nos
        (drop (Experiment.num_train_obs self)
           (drop (Experiment.num_calibration_obs self) it)) = Ok rest.
Proof.
  cbn [Experiment.run_loop Experiment.islice].
  destruct (Experiment.calibrate _ _ _); cbn [mbind result_bind]; [|done].
  destruct (ImageList.memory_mapped_image_list _ _); cbn [mbind result_bind]; [|done].
  destruct (Experiment.fit_and_score _ _ _); cbn [mbind result_bind]; [|done].
  destruct (Experiment.run_loop _ _ _ _) as [rest|]; cbn [mbind result_bind]; [|done].
  intros [= <-]. by exists rest.
Qed.

(** The slices drawn by the repetition at position [j] of a loop that
    starts on the stream [it]. *)
Lemma run_loop_lookup (self : Experiment.t) rep_nos
    (it : list (string * image)) results (j rn : nat) :
  Experiment.run_loop collab self rep_nos it = Ok results →
  rep_nos !! j = Some rn →
  results !! j
  = Some (Experiment.mk_repetition rn
            (take (Experiment.num_calibration_obs self)
               (drop (j * (Experiment.num_calibration_obs self
                           + Experiment.num_train_obs self)) it))
            (take (Experiment.num_train_obs self)
               (drop (j * (Experiment.num_calibration_obs self
                           + Experiment.num_train_obs self)
                      + Experiment.num_calibration_obs self) it))).
Proof.
  revert it results j.
  induction rep_nos as [|r rep_nos IH]; intros it results j Hloop; [done|].
  apply run_loop_cons_Ok in Hloop as (rest & -> & Hrest).
  destruct j as [|j]; simpl.
  - intros [= ->]. by rewrite drop_0.
  - intros Hj. rewrite (IH _ _ _ Hrest Hj). rewrite !drop_drop.
    do 3 f_equal; f_equal; lia.
Qed.

(** A run that raises nothing is the loop from [resume_at], on the stream
    after the skipped rows. *)
Lemma run_Ok (self : Experiment.t) (resume_at : nat) reps :
  Experiment.run dataset collab self resume_at = Ok reps →
  (1 ≤ resume_at)%nat
  ∧ Experiment.run_loop collab self
      (seq resume_at (Experiment.repetitions self + 1 - resume_at))
      (drop (Experiment.num_test_obs self
             + (resume_at - 1) * Experiment.num_train_obs self)
         (dataset (Experiment.images_url self))) = Ok reps.
Proof.
  unfold Experiment.run, assert.
  destruct (Nat.leb_spec 1 resume_at); cbn [mbind result_bind]; [|done].
  destruct (Experiment.prepare_test_observations _ _ _);
    cbn [mbind result_bind]; [|done].
  by intros Hloop.
Qed.

(** The training chunk of repetition [k] in a run resumed at [n]: it
    starts after the test images, the [n - 1] training chunks that the
    skip accounts for, and the calibration and training chunks of the
    repetitions [n] to [k - 1] and the calibration chunk of [k]. *)
Lemma run_train_chunk (self : Experiment.t) (n k : nat) reps :
  (1 ≤ n)%nat → (n ≤ k)%nat → (k ≤ Experiment.repetitions self)%nat →
  Experiment.run dataset collab self n = Ok reps →
  ∃ r, reps !! (k - n)%nat = Some r
     ∧ Experiment.rep_no r = k
     ∧ Experiment.train_images r
       = take (Experiment.num_train_obs self)
           (drop (Experiment.num_test_obs self
                  + (n - 1) * Experiment.num_train_obs self
                  + (k - n) * (Experiment.num_calibration_obs self
                               + Experiment.num_train_obs self)
                  + Experiment.num_calibration_obs self)
              (dataset (Experiment.images_url self))).
Proof.
  intros Hn Hnk Hk [_ Hloop]%run_Ok.
  eexists. split.
  - eapply run_loop_lookup; [exact Hloop|].
    apply lookup_seq. split; [reflexivity|lia].
  - split; simpl; [lia|]. rewrite drop_drop. do 2 f_equal. lia.
Qed.

End run_facts.

(** C1 fails on the code.  One test image, one calibration image and two
    training images per repetition, two repetitions over the images 0 to 9,
    with collaborators that raise nothing: the uninterrupted run trains
    repetition 2 on the images 5 and 6, the run resumed at repetition 2
    trains it on the images 4 and 5, because the skip does not count the
    calibration image of repetition 1. *)
Theorem resume_shifts_training_chunk :
  let e := experiment_of ["cat"; "dog"] 2 2 1 1 in
  (map Experiment.train_images <$> Experiment.run ten_images quiet e 1)
  = Ok [[("2", 2); ("3", 3)]; [("5", 5); ("6", 6)]]%nat
  ∧ (map Experiment.calibration_images <$> Experiment.run ten_images quiet e 1)
    = Ok [[("1", 1)]; [("4", 4)]]%nat
  ∧ (map Experiment.rep_no <$> Experiment.run ten_images quiet e 2) = Ok [2%nat]
  ∧ (map Experiment.train_images <$> Experiment.run ten_images quiet e 2)
    = Ok [[("4", 4); ("5", 5)]]%nat.
Proof. by vm_compute. Qed.

(** C3 fails on the code.  Four classes whose names are not in
    alphabetical order, and a surrogate that has seen the classes 0 and 2:
    the probability of class 0 is written to the column of class 1, and the
    column of class 0 holds 0.  The sorter is that of the class names, the
    search is in the class ids. *)
Theorem spread_probs_misplaces_unsorted_names :
  let e := experiment_of ["b"; "a"; "c"; "d"] 1 1 1 1 in
  Experiment.post_init e = Ok tt
  ∧ Experiment._spread_probs_to_all_classes 0%Q e
      [[3 # 10; 7 # 10]; [1 # 2; 1 # 2]]%Q [0; 2]
    = Ok [[0; 3 # 10; 7 # 10; 0]; [0; 1 # 2; 1 # 2; 0]]%Q.
Proof. by vm_compute. Qed.

(** ** Fingerprints *)

Lemma _freeze_value_inj : Inj (=) (=) _freeze_value.
Proof. intros [] [] [=]; by subst. Qed.

(** The dict that [_freeze] reads, after the default for the picker. *)
Lemma _freeze_lookup (obj : gmap string value) k :
  _freeze obj !! k
  = if decide (k ∈ KEY_PARAMS)
    then _freeze_value <$>
           (match obj !! "model_agnostic_picker"%string with
            | None => <["model_agnostic_picker"%string := VStr "passthrough"]> obj
            | Some _ => obj
            end) !! k
    else None.
Proof.
  unfold _freeze. rewrite lookup_fmap, map_lookup_filter.
  destruct (_ !! k) as [v|]; simpl; [|by case_decide].
  unfold guard. simpl. by repeat case_decide.
Qed.

(** Dicts that name their picker have the same fingerprint exactly when
    they agree on the key parameters. *)
Lemma _freeze_eq_iff (p1 p2 : gmap string value) :
  is_Some (p1 !! "model_agnostic_picker"%string) →
  is_Some (p2 !! "model_agnostic_picker"%string) →
  _freeze p1 = _freeze p2 ↔ agree_on_key_params p1 p2.
Proof.
  intros [v1 H1] [v2 H2]. split.
  - intros Heq k Hk. pose proof (f_equal (.!! k) Heq) as Hlook. simpl in Hlook.
    rewrite !_freeze_lookup, H1, H2, !decide_True in Hlook by done.
    destruct (p1 !! k), (p2 !! k); simpl in Hlook; try done.
    injection Hlook as Hlook. by apply _freeze_value_inj in Hlook as ->.
  - intros Hagree. apply map_eq. intros k.
    rewrite !_freeze_lookup, H1, H2. case_decide; [|done]. by rewrite Hagree.
Qed.

Lemma params_picker (e : Experiment.t) :
  is_Some (Experiment.params e !! "model_agnostic_picker"%string).
Proof. by eexists. Qed.

(** ** The runner *)

Lemma runner_inv_consistent st rows : runner_inv st rows → consistent rows.
Proof.
  intros (_ & Hinj & Hrows) r1 r2 Hr1 Hr2. split.
  - intros Heq. pose proof (Hrows r1 Hr1) as H1. pose proof (Hrows r2 Hr2) as H2.
    rewrite Heq in H1. congruence.
  - intros Heq. eapply Hinj; [by apply Hrows|]. rewrite Heq. by apply Hrows.
Qed.

Lemma runner_inv_init : runner_inv runner_init [].
Proof.
  split_and!; simpl.
  - intros fp n Hfp. by apply lookup_empty_Some in Hfp.
  - intros fp1 fp2 n Hfp. by apply lookup_empty_Some in Hfp.
  - intros r Hr. by inversion Hr.
Qed.

(** Giving a fresh fingerprint the next number keeps the bookkeeping. *)
Lemma runner_inv_fresh st rows fp new_rows dc :
  runner_inv st rows →
  exp_no_by_params st !! fp = None →
  (∀ r, r ∈ new_rows →
        _freeze (row_params r) = fp ∧ row_exp_no r = next_exp_no st) →
  runner_inv (mk_runner dc (<[fp := next_exp_no st]> (exp_no_by_params st))
                        (next_exp_no st + 1))
             (rows ++ new_rows).
Proof.
  intros (Hlt & Hinj & Hrows) Hnone Hnew. split_and!; simpl.
  - intros fp' n [[_ <-]|[_ Hl]]%lookup_insert_Some; [lia|].
    specialize (Hlt _ _ Hl). lia.
  - intros fp1 fp2 n [[<- <-]|[Hne1 Hl1]]%lookup_insert_Some
                     [[<- Heq]|[Hne2 Hl2]]%lookup_insert_Some; try done.
    + specialize (Hlt _ _ Hl2). lia.
    + specialize (Hlt _ _ Hl1). lia.
    + by eapply Hinj.
  - intros r [Hr|Hr]%elem_of_app.
    + rewrite lookup_insert_ne; [by apply Hrows|].
      intros ->. specialize (Hrows r Hr). congruence.
    + destruct (Hnew r Hr) as [-> ->]. by rewrite lookup_insert_eq.
Qed.

(** Using the number a fingerprint has keeps the bookkeeping. *)
Lemma runner_inv_known st rows fp n new_rows dc :
  runner_inv st rows →
  exp_no_by_params st !! fp = Some n →
  (∀ r, r ∈ new_rows → _freeze (row_params r) = fp ∧ row_exp_no r = n) →
  runner_inv (mk_runner dc (exp_no_by_params st) (next_exp_no st))
             (rows ++ new_rows).
Proof.
  intros (Hlt & Hinj & Hrows) Hsome Hnew. split_and!; simpl; [done|done|].
  intros r [Hr|Hr]%elem_of_app; [by apply Hrows|].
  by destruct (Hnew r Hr) as [-> ->].
Qed.

Section runner_facts.
Context {image : Type}.
Variable dataset : string → list (string * image).
Variable collab : Experiment.collaborators image.

Lemma run_experiment_inv st rows e st' new_rows :
  runner_inv st rows →
  run_experiment dataset collab st e = Ok (st', new_rows) →
  runner_inv st' (rows ++ new_rows)
  ∧ ∀ r, r ∈ new_rows → row_params r = Experiment.params e.
Proof.
  intros Hinv. unfold run_experiment.
  remember (Experiment.params e) as p eqn:Hp.
  remember (_freeze p) as fp eqn:Hfp.
  destruct (Nat.leb _ _).
  { intros [= <- <-]. rewrite app_nil_r. split; [done|]. by inversion 1. }
  assert (∀ exp_no (results : list (Experiment.repetition image)) r,
            r ∈ map (λ r, mk_row exp_no p (Experiment.rep_no r)) results →
            _freeze (row_params r) = fp ∧ row_exp_no r = exp_no
            ∧ row_params r = p) as Hnew.
  { intros exp_no results r (x & -> & _)%list_elem_of_fmap. simpl. by subst. }
  destruct (exp_no_by_params st !! fp) as [exp_no|] eqn:Hlook;
    cbv beta iota zeta;
    destruct (Experiment.run dataset collab e _) as [results|];
    cbn [mbind result_bind fst snd]; try done; intros [= <- <-].
  - split; [|by intros r (_ & _ & ?)%Hnew].
    eapply runner_inv_known; [done..|]. by intros r (? & ? & _)%Hnew.
  - split; [|by intros r (_ & _ & ?)%Hnew].
    apply runner_inv_fresh; [done..|]. simpl. by intros r (? & ? & _)%Hnew.
Qed.

Lemma run_experiment_list_inv experiments st rows st' new_rows :
  runner_inv st rows →
  run_experiment_list dataset collab st experiments = Ok (st', new_rows) →
  runner_inv st' (rows ++ new_rows).
Proof.
  revert st rows st' new_rows.
  induction experiments as [|e es IH]; intros st rows st' new_rows Hinv; simpl.
  - intros [= <- <-]. by rewrite app_nil_r.
  - destruct (run_experiment dataset collab st e) as [[st1 rows1]|] eqn:He;
      simpl; [|done].
    destruct (run_experiment_list dataset collab st1 es) as [[st2 rows2]|] eqn:Hes;
      simpl; [|done].
    intros [= <- <-]. rewrite app_assoc.
    eapply IH; [|done]. by eapply run_experiment_inv.
Qed.

End runner_facts.

Lemma consistent_sub rows rows' :
  consistent rows → (∀ r, r ∈ rows' → r ∈ rows) → consistent rows'.
Proof. intros Hc Hsub r1 r2 Hr1 Hr2. apply Hc; by apply Hsub. Qed.

(** Loading a row of a consistent ledger raises nothing and keeps the
    bookkeeping. *)
Lemma load_row_inv st rows e :
  runner_inv st rows → runner_from_rows st rows → consistent (rows ++ [e]) →
  ∃ st', load_row st e = Ok st'
       ∧ runner_inv st' (rows ++ [e]) ∧ runner_from_rows st' (rows ++ [e]).
Proof.
  intros Hinv Hfrom Hcons. pose proof Hinv as (Hlt & Hinj & Hrows).
  assert (e ∈ rows ++ [e]) as He by (apply elem_of_app; right; by left).
  unfold load_row.
  destruct (exp_no_by_params st !! _freeze (row_params e)) as [n|] eqn:Hlook; simpl.
  - destruct (Hfrom _ _ Hlook) as (r & Hr & Hfp & <-).
    assert (row_exp_no r = row_exp_no e) as Heq.
    { apply Hcons; [apply elem_of_app; by left|done|done]. }
    rewrite Heq, Z.eqb_refl. simpl. eexists. split; [done|]. split.
    + eapply runner_inv_known; [done|done|].
      intros r' Hr'%list_elem_of_singleton. by subst r'.
    + intros fp n Hfpn. destruct (Hfrom _ _ Hfpn) as (r' & ? & ? & ?).
      exists r'. split; [apply elem_of_app; by left|done].
  - eexists. split; [done|]. simpl. split; [split_and!; simpl|].
    + intros fp n [[_ <-]|[_ Hl]]%lookup_insert_Some; [lia|].
      specialize (Hlt _ _ Hl). lia.
    + assert (∀ fp n, exp_no_by_params st !! fp = Some n → n ≠ row_exp_no e)
        as Hfresh.
      { intros fp n Hfpn Heq. destruct (Hfrom _ _ Hfpn) as (r & Hr & Hfp & Hn).
        assert (_freeze (row_params r) = _freeze (row_params e)) as Hsame.
        { apply Hcons; [apply elem_of_app; by left|done|congruence]. }
        rewrite Hfp in Hsame. congruence. }
      intros fp1 fp2 n [[<- <-]|[Hne1 Hl1]]%lookup_insert_Some
                       [[<- Heq]|[Hne2 Hl2]]%lookup_insert_Some; try done.
      * by destruct (Hfresh _ _ Hl2).
      * by destruct (Hfresh _ _ Hl1).
      * by eapply Hinj.
    + intros r [Hr|Hr%list_elem_of_singleton]%elem_of_app.
      * rewrite lookup_insert_ne; [by apply Hrows|].
        intros Heq. specialize (Hrows r Hr). congruence.
      * subst r. by rewrite lookup_insert_eq.
    + unfold runner_from_rows. simpl.
      intros fp n [[<- <-]|[_ Hl]]%lookup_insert_Some; [by exists e|].
      destruct (Hfrom _ _ Hl) as (r' & ? & ? & ?).
      exists r'. split; [apply elem_of_app; by left|done].
Qed.

Lemma load_rows_inv rest st rows :
  runner_inv st rows → runner_from_rows st rows → consistent (rows ++ rest) →
  ∃ st', load_rows st rest = Ok st' ∧ runner_inv st' (rows ++ rest).
Proof.
  revert st rows. induction rest as [|e rest IH]; intros st rows Hinv Hfrom Hcons.
  - exists st. by rewrite app_nil_r.
  - destruct (load_row_inv st rows e Hinv Hfrom) as (st1 & Hload & Hinv1 & Hfrom1).
    { eapply consistent_sub; [exact Hcons|]. intros r Hr.
      rewrite elem_of_app in *. rewrite elem_of_cons.
      destruct Hr as [?|Hr%list_elem_of_singleton]; auto. }
    simpl. rewrite Hload. simpl.
    destruct (IH st1 (rows ++ [e]) Hinv1 Hfrom1) as (st' & ? & ?).
    { by rewrite <- app_assoc. }
    exists st'. by rewrite (app_assoc rows [e] rest : rows ++ e :: rest = _).
Qed.

Section run_experiments_facts.
Context {image : Type}.
Variable dataset : string → list (string * image).
Variable collab : Experiment.collaborators image.

(** C9.  The rows that [run_experiments] leaves (after a new run, or after
    continuing a run whose rows hold one number per fingerprint) hold one
    experiment number per fingerprint and one fingerprint per number; and
    two configurations with rows carry the same number exactly when they
    differ at most in parameters outside the key parameters. *)
Theorem experiment_numbers_follow_fingerprints
    (previous : option (list row)) (experiments : list Experiment.t) rows' :
  from_option consistent True previous →
  run_experiments dataset collab previous experiments = Ok rows' →
  consistent rows'
  ∧ (∃ new_rows, rows' = default [] previous ++ new_rows)
  ∧ ∀ e1 e2 r1 r2,
      r1 ∈ rows' → r2 ∈ rows' →
      row_params r1 = Experiment.params e1 →
      row_params r2 = Experiment.params e2 →
      agree_on_key_params (Experiment.params e1) (Experiment.params e2)
      ↔ row_exp_no r1 = row_exp_no r2.
Proof.
  intros Hprev Hrun.
  assert (∃ st new_rows,
            runner_inv st (default [] previous)
            ∧ run_experiment_list dataset collab st experiments = Ok new_rows
            ∧ rows' = default [] previous ++ snd new_rows)
    as (st & [st' new_rows] & Hinv & Hlist & ->).
  { unfold run_experiments in Hrun. destruct previous as [rows|]; simpl in *.
    - destruct (load_rows_inv rows runner_init [] runner_inv_init)
        as (st & Hload & Hinv); [|done|].
      { intros fp n Hfp. simpl in Hfp. by apply lookup_empty_Some in Hfp. }
      rewrite Hload in Hrun. simpl in Hrun.
      destruct rows as [|r rows]; [done|]. simpl in Hrun.
      destruct (run_experiment_list dataset collab st experiments) as [res|] eqn:Hres;
        [|done].
      simpl in Hrun. injection Hrun as <-. by exists st, res.
    - destruct (run_experiment_list dataset collab runner_init experiments)
        as [res|] eqn:Hres; [|done].
      simpl in Hrun. injection Hrun as <-.
      exists runner_init, res. split_and!; [apply runner_inv_init|done|done]. }
  simpl.
  pose proof (run_experiment_list_inv dataset collab _ _ _ _ _ Hinv Hlist) as Hinv'.
  apply runner_inv_consistent in Hinv'.
  split_and!; [done|by eexists|].
  intros e1 e2 r1 r2 Hr1 Hr2 Hp1 Hp2.
  rewrite <- (Hinv' r1 r2 Hr1 Hr2), Hp1, Hp2.
  symmetry. apply _freeze_eq_iff; apply params_picker.
Qed.

End run_experiments_facts.

Lemma experiment_numbers_follow_fingerprints_witness :
  ∃ rows',
    run_experiments ten_images quiet None
      [experiment_of ["cat"; "dog"] 2 2 1 1;
       experiment_of ["cat"; "dog"] 3 2 1 2;
       experiment_of ["cat"; "dog"] 2 1 1 1] = Ok rows'
    ∧ consistent rows'
    ∧ map (λ r, (row_exp_no r, row_rep_no r)) rows'
      = [(1, 1%nat); (1, 2%nat); (1, 2%nat); (1, 3%nat); (2, 1%nat); (2, 2%nat)].
Proof.
  assert (map (λ r, (row_exp_no r, row_rep_no r)) <$>
            run_experiments ten_images quiet None
              [experiment_of ["cat"; "dog"] 2 2 1 1;
               experiment_of ["cat"; "dog"] 3 2 1 2;
               experiment_of ["cat"; "dog"] 2 1 1 1]
          = Ok [(1, 1%nat); (1, 2%nat); (1, 2%nat); (1, 3%nat);
                (2, 1%nat); (2, 2%nat)]) as Hnos
    by (vm_compute; reflexivity).
  destruct (run_experiments ten_images quiet None
              [experiment_of ["cat"; "dog"] 2 2 1 1;
               experiment_of ["cat"; "dog"] 3 2 1 2;
               experiment_of ["cat"; "dog"] 2 1 1 1]) as [rows'|e] eqn:Hrun.
  - exists rows'. split; [reflexivity|]. split.
    + apply (experiment_numbers_follow_fingerprints ten_images quiet None
               [experiment_of ["cat"; "dog"] 2 2 1 1;
                experiment_of ["cat"; "dog"] 3 2 1 2;
                experiment_of ["cat"; "dog"] 2 1 1 1] rows' I Hrun).
    + injection Hnos as Hnos. exact Hnos.
  - discriminate Hnos.
Defined.

(** * Further properties of the code *)

(** ** [class_counts] and [filter_for_split] *)

Lemma count_key_le_iff (x y : Z * Z) :
  count_key_le x y = true
  ↔ (fst (count_key x) < fst (count_key y))%Q
    ∨ (fst (count_key x) == fst (count_key y) ∧ fst x ≤ fst y)%Q.
Proof.
  unfold count_key_le. simpl.
  rewrite orb_true_iff, andb_true_iff, negb_true_iff, <- not_true_iff_false,
    Qle_bool_iff, Qeq_bool_iff, Z.leb_le.
  split; (intros [H|H]; [left|by right]).
  - by apply Qnot_le_lt.
  - by apply Qlt_not_le.
Qed.

Lemma count_key_le_total (x y : Z * Z) :
  count_key_le x y = true ∨ count_key_le y x = true.
Proof.
  rewrite !count_key_le_iff.
  destruct (Q_dec (fst (count_key x)) (fst (count_key y))) as [[Hlt|Hgt]|Heq];
    [by left; left|by right; left|].
  destruct (Z.le_ge_cases (fst x) (fst y)); [left|right]; right.
  - done.
  - split; [by symmetry|done].
Qed.

Lemma count_key_le_trans (x y z : Z * Z) :
  count_key_le x y = true → count_key_le y z = true → count_key_le x z = true.
Proof.
  rewrite !count_key_le_iff.
  intros [Hxy|[Hxy Hs]] [Hyz|[Hyz Hs']].
  - left. by eapply Qlt_trans.
  - left. by rewrite <- Hyz.
  - left. by rewrite Hxy.
  - right. split; [by rewrite Hxy|lia].
Qed.

(** On counts that are not negative, the order of the keys of
    [class_counts] is: larger counts first, then smaller class ids. *)
Lemma count_key_le_counts s1 c1 s2 c2 :
  0 ≤ c1 → 0 ≤ c2 →
  count_key_le (s1, c1) (s2, c2) = true ↔ c2 < c1 ∨ (c1 = c2 ∧ s1 ≤ s2).
Proof.
  intros H1 H2. unfold count_key_le, count_key. simpl.
  destruct (c1 + 1) as [|p1|p1] eqn:E1; try lia.
  destruct (c2 + 1) as [|p2|p2] eqn:E2; try lia.
  unfold Qle_bool, Qeq_bool, Qinv. simpl.
  rewrite orb_true_iff, andb_true_iff, negb_true_iff, Z.leb_gt, Z.leb_le.
  rewrite Pos.eqb_eq. lia.
Qed.

Lemma StronglySorted_impl_Forall {A} (R R' : A → A → Prop) (P : A → Prop) l :
  StronglySorted R l → Forall P l →
  (∀ x y, P x → P y → R x y → R' x y) →
  StronglySorted R' l.
Proof.
  intros Hs HP Himpl. induction Hs as [|x l Hs IH Hx]; [constructor|].
  apply Forall_cons in HP as [HPx HPl]. constructor; [by apply IH|].
  rewrite Forall_forall in *. intros y Hy. apply Himpl; auto.
Qed.

(** X1.  [class_counts] lists the classes by decreasing count, and classes
    of equal count by increasing class id; no count is negative. *)
Theorem class_counts_sorted predicted_classes ac counts :
  class_counts predicted_classes (Some ac) = Ok counts →
  StronglySorted (λ x y, snd y < snd x ∨ (snd x = snd y ∧ fst x ≤ fst y)) counts
  ∧ Forall (λ x, 0 ≤ snd x) counts.
Proof.
  intros Hcc.
  assert (Forall (λ x, 0 ≤ snd x) counts) as Hnn.
  { apply Forall_forall. intros [s c] Hin.
    apply (elem_of_class_counts _ _ _ _ _ Hcc) in Hin as [Hs ->].
    apply occurrences_pos in Hs. simpl. lia. }
  split; [|done].
  rewrite class_counts_Some in Hcc. injection Hcc as <-.
  eapply StronglySorted_impl_Forall; [|exact Hnn|].
  - apply sorted_StronglySorted;
      [apply count_key_le_total|apply count_key_le_trans].
  - intros [s1 c1] [s2 c2] Hx Hy Hle. simpl in *.
    by apply count_key_le_counts in Hle.
Qed.

Lemma class_counts_sorted_witness :
  StronglySorted (λ x y, snd y < snd x ∨ (snd x = snd y ∧ fst x ≤ fst y))
    [(0, 3); (2, 1); (1, 0); (3, 0)].
Proof.
  apply (proj1 (class_counts_sorted [2; 0; 0; 0] [0; 1; 2; 3] _ eq_refl)).
Defined.

Lemma occurrences_universe p ac :
  NoDup ac → occurrences p ac = if decide (p ∈ ac) then 1 else 0.
Proof.
  intros Hnd. pose proof (occurrences_NoDup p ac Hnd) as Hle.
  pose proof (occurrences_pos p ac) as Hpos.
  pose proof (occurrences_nonneg p ac) as Hnn.
  case_decide as Hin.
  - apply Hpos in Hin. lia.
  - destruct (decide (0 < occurrences p ac)) as [Hlt|]; [|lia].
    by apply Hpos in Hlt.
Qed.

(** X2.  With a duplicate-free class universe that holds every predicted
    class, [class_counts] lists every class of the universe exactly once,
    with the number of its predictions (0 for a class never predicted). *)
Theorem class_counts_universe predicted_classes ac counts :
  NoDup ac → (∀ p, p ∈ predicted_classes → p ∈ ac) →
  class_counts predicted_classes (Some ac) = Ok counts →
  map fst counts ≡ₚ ac
  ∧ ∀ s c, (s, c) ∈ counts → c = occurrences s predicted_classes.
Proof.
  intros Hnd Hsub Hcc. split.
  - pose proof Hcc as Hcc'. rewrite class_counts_Some in Hcc'. injection Hcc' as <-.
    rewrite sorted_perm. rewrite map_map. simpl.
    apply NoDup_Permutation; [apply Counter_NoDup|done|].
    intros s. fold (map fst (Counter (predicted_classes ++ ac))).
    unfold Counter. rewrite Counter_foldl_keys, elem_of_app. simpl.
    split; [intros [Hs|[Hs|Hs]]; [by inversion Hs|by apply Hsub|done]|].
    intros Hs. right. by right.
  - intros s c Hin. apply (elem_of_class_counts _ _ _ _ _ Hcc) in Hin as [Hs ->].
    rewrite occurrences_app, (occurrences_universe s ac) by done.
    rewrite decide_True; [lia|].
    apply elem_of_app in Hs as [Hs|Hs]; [by apply Hsub|done].
Qed.

Lemma class_counts_universe_witness :
  map fst [(0, 3); (2, 1); (1, 0); (3, 0)] ≡ₚ [0; 1; 2; 3].
Proof.
  apply (class_counts_universe [2; 0; 0; 0] [0; 1; 2; 3]).
  - by_compute.
  - apply Forall_forall. by_compute.
  - vm_compute. reflexivity.
Defined.

(** X3.  The mask of [filter_for_split], for a duplicate-free universe: an
    observation is kept when its predicted class is predicted at least
    [min_k_folds] times if the class is in the universe, and at least
    [min_k_folds + 1] times if it is not. *)
Theorem filter_for_split_mask predicted_classes min_k_folds ac :
  NoDup ac →
  filter_for_split predicted_classes min_k_folds (Some ac)
  = Ok (map (λ p, bool_decide
                    (min_k_folds + (if decide (p ∈ ac) then 0 else 1)
                     ≤ occurrences p predicted_classes))
            predicted_classes).
Proof.
  intros Hnd. rewrite filter_for_split_Some. f_equal.
  apply map_ext. intros p. apply bool_decide_ext.
  rewrite occurrences_app, (occurrences_universe p ac) by done.
  case_decide; lia.
Qed.

Lemma filter_for_split_mask_witness :
  filter_for_split [7; 7; 0; 0; 1] 2 (Some [0; 1])
  = Ok [false; false; true; true; false].
Proof.
  rewrite (filter_for_split_mask [7; 7; 0; 0; 1] 2 [0; 1]); [reflexivity|].
  by_compute.
Defined.

(** X4.  [determine_k_folds] raises [IndexError] on no predictions and
    nothing else; its result is at most [max_k_folds] and at most the
    number of occurrences of every predicted class. *)
Theorem determine_k_folds_bounds predicted_classes max_k_folds :
  match determine_k_folds predicted_classes max_k_folds with
  | Ok k =>
      predicted_classes ≠ [] ∧ k ≤ max_k_folds
      ∧ ∀ s, s ∈ predicted_classes → k ≤ occurrences s predicted_classes
  | Raise e => e = IndexError ∧ predicted_classes = []
  end.
Proof.
  destruct predicted_classes as [|p l] eqn:Hl; [done|]. rewrite <- Hl.
  assert (predicted_classes ≠ []) as Hne by (by subst).
  destruct (determine_k_folds_spec predicted_classes max_k_folds Hne)
    as (s & Hs & Hleast & ->).
  split_and!; [done|lia|]. intros s' Hs'. specialize (Hleast s' Hs'). lia.
Qed.

(** X5.  With a duplicate-free class universe and
    [2 ≤ min_k_folds ≤ max_k_folds], the fold planning of [run_cv] raises
    nothing; the mask has one entry for every observation and the number of
    splits lies between [min_k_folds] and [max_k_folds]. *)
Theorem run_cv_plan_total predicted_classes ac min_k_folds max_k_folds :
  NoDup ac → 2 ≤ min_k_folds → min_k_folds ≤ max_k_folds →
  ∃ mask cv,
    run_cv_plan predicted_classes (Some ac) min_k_folds max_k_folds = Ok (mask, cv)
    ∧ length mask = length predicted_classes
    ∧ min_k_folds ≤ n_splits cv ≤ max_k_folds.
Proof.
  intros Hnd Hmin Hk. unfold run_cv_plan.
  rewrite bool_decide_eq_true_2 by done. simpl.
  rewrite filter_for_split_Some. simpl.
  set (retained := λ p, bool_decide
         (min_k_folds ≤ occurrences p (predicted_classes ++ ac) - 1)).
  destruct (existsb id (map retained predicted_classes)) eqn:Hex; simpl.
  - apply existsb_id_map in Hex as (p & Hp & Hret).
    rewrite mask_select_map.
    set (R := filter (λ p, retained p = true) predicted_classes).
    assert (p ∈ R) as HpR by (by apply list_elem_of_filter).
    assert (R ≠ []) as HRne by (intros HR; rewrite HR in HpR; by inversion HpR).
    destruct (determine_k_folds_spec R max_k_folds HRne) as (s & Hs & _ & ->).
    simpl. apply list_elem_of_filter in Hs as [Hsret Hsin].
    assert (min_k_folds ≤ occurrences s R) as Hocc.
    { unfold R. rewrite occurrences_filter, decide_True by done.
      apply bool_decide_eq_true_1 in Hsret. rewrite occurrences_app in Hsret.
      pose proof (occurrences_NoDup s ac Hnd). lia. }
    rewrite check_n_splits_Ok by lia. simpl.
    eexists _, _. split; [done|]. rewrite length_map. split; [done|].
    simpl. lia.
  - rewrite check_n_splits_Ok by done. simpl.
    eexists _, _. split; [done|]. rewrite !length_map. simpl. lia.
Qed.

Lemma run_cv_plan_total_witness :
  ∃ mask cv,
    run_cv_plan [0; 0; 1; 0; 2; 0; 1; 0] (Some [0; 1; 2]) 3 4 = Ok (mask, cv)
    ∧ length mask = 8%nat ∧ 3 ≤ n_splits cv ≤ 4.
Proof.
  apply (run_cv_plan_total [0; 0; 1; 0; 2; 0; 1; 0] [0; 1; 2] 3 4).
  - by_compute.
  - lia.
  - lia.
Defined.

Lemma mask_select_length {A B} (mask : list bool) (l1 : list A) (l2 : list B) :
  length l1 = length l2 →
  length (mask_select mask l1) = length (mask_select mask l2).
Proof.
  revert l1 l2. induction mask as [|b mask IH]; intros [|x l1] [|y l2]; try done.
  simpl. intros [= Hlen]. destruct b; simpl; auto.
Qed.

(** ** [ImageList] *)

(** X7.  Integer indexing of a corpus with as many ids as images: a
    position from 0 yields the pair at that position, a negative position
    counts from the end, and a position outside [-n, n) raises
    [IndexError]. *)
Theorem getitem_int {image} (self : ImageList.t image) (i : Z) :
  length (ImageList.image_ids self) = length (ImageList.images self) →
  let n := Z.of_nat (ImageList.len self) in
  if decide (- n ≤ i < n)
  then ∃ id img,
         ImageList.image_ids self !! Z.to_nat (i `mod` n) = Some id
         ∧ ImageList.images self !! Z.to_nat (i `mod` n) = Some img
         ∧ ImageList.getitem self (ImageList.IdxInt i)
           = Ok (ImageList.Single id img)
  else ImageList.getitem self (ImageList.IdxInt i) = Raise IndexError.
Proof.
  intros Hlen n. unfold ImageList.getitem, np_index_int. simpl.
  unfold ImageList.len in n. rewrite <- Hlen. fold n.
  case_decide as Hi.
  - rewrite (proj2 (Z.leb_le _ _)), (proj2 (Z.ltb_lt _ _)) by lia. simpl.
    assert ((if Z.ltb i 0 then i + n else i) = i `mod` n) as ->.
    { destruct (Z.ltb_spec i 0).
      - rewrite <- (Z.mod_small (i + n) n) by lia.
        by rewrite <- (Z.mod_add i 1 n), Z.mul_1_l by lia.
      - by rewrite Z.mod_small by lia. }
    assert (Z.to_nat (i `mod` n) < length (ImageList.image_ids self))%nat as Hlt.
    { pose proof (Z.mod_pos_bound i n). lia. }
    destruct (lookup_lt_is_Some_2 _ _ Hlt) as [id Hid].
    rewrite Hlen in Hlt. destruct (lookup_lt_is_Some_2 _ _ Hlt) as [img Himg].
    exists id, img. by rewrite Hid, Himg.
  - destruct (Z.leb_spec (- n) i), (Z.ltb_spec i n); simpl; try done. lia.
Qed.

Lemma getitem_int_witness :
  ImageList.getitem (ImageList.mk ["a"; "b"; "c"] [10; 11; 12]%nat)
    (ImageList.IdxInt (-1)) = Ok (ImageList.Single "c" 12%nat)
  ∧ ImageList.getitem (ImageList.mk ["a"; "b"; "c"] [10; 11; 12]%nat)
      (ImageList.IdxInt 3) = Raise IndexError.
Proof.
  split.
  - destruct (getitem_int (ImageList.mk ["a"; "b"; "c"] [10; 11; 12]%nat) (-1)
                eq_refl) as (id & img & Hid & Himg & ->).
    vm_compute in Hid, Himg. by simplify_eq.
  - exact (getitem_int (ImageList.mk ["a"; "b"; "c"] [10; 11; 12]%nat) 3 eq_refl).
Defined.

Lemma mask_select_length_count {A} (mask : list bool) (l : list A) :
  length mask = length l →
  length (mask_select mask l) = length (filter (λ b, b = true) mask).
Proof.
  revert l. induction mask as [|b mask IH]; intros [|x l]; try done.
  simpl. intros [= Hlen]. rewrite filter_cons.
  destruct b; simpl; rewrite ?decide_True, ?decide_False by done; simpl; auto.
Qed.

Lemma zip_mask_select {A B} (mask : list bool) (l1 : list A) (l2 : list B) :
  length l1 = length l2 →
  zip (mask_select mask l1) (mask_select mask l2) = mask_select mask (zip l1 l2).
Proof.
  revert l1 l2. induction mask as [|b mask IH]; intros [|x l1] [|y l2]; try done.
  simpl. intros [= Hlen]. destruct b; simpl; by rewrite IH.
Qed.

(** X8.  Indexing a corpus by a boolean mask: a mask of the length of the
    corpus yields the sub-corpus of the selected pairs, with as many
    elements as the mask holds [True]; a mask of another length raises
    [IndexError]. *)
Theorem getitem_mask {image} (self : ImageList.t image) (mask : list bool) :
  length (ImageList.image_ids self) = length (ImageList.images self) →
  if decide (length mask = ImageList.len self)
  then ∃ sub,
         ImageList.getitem self (ImageList.IdxMask mask) = Ok (ImageList.Sub sub)
         ∧ ImageList.iter sub = mask_select mask (ImageList.iter self)
         ∧ ImageList.len sub = length (filter (λ b, b = true) mask)
  else ImageList.getitem self (ImageList.IdxMask mask) = Raise IndexError.
Proof.
  intros Hlen. unfold ImageList.getitem, ImageList.len. simpl.
  unfold np_index_mask. case_decide as Hm.
  - rewrite <- Hlen, Hm, Nat.eqb_refl. simpl. unfold ImageList.init.
    rewrite (mask_select_length mask _ _ Hlen), Nat.eqb_refl. simpl.
    eexists. split; [done|]. unfold ImageList.iter, ImageList.len. simpl.
    split; [by apply zip_mask_select|by apply mask_select_length_count].
  - destruct (Nat.eqb_spec (length mask) (length (ImageList.image_ids self)));
      [congruence|done].
Qed.

Lemma getitem_mask_witness :
  ∃ sub,
    ImageList.getitem (ImageList.mk ["a"; "b"; "c"] [10; 11; 12]%nat)
      (ImageList.IdxMask [true; false; true]) = Ok (ImageList.Sub sub)
    ∧ ImageList.iter sub = [("a", 10%nat); ("c", 12%nat)].
Proof.
  destruct (getitem_mask (ImageList.mk ["a"; "b"; "c"] [10; 11; 12]%nat)
              [true; false; true] eq_refl) as (sub & Hget & Hiter & _).
  exists sub. split; [exact Hget|exact Hiter].
Defined.

Lemma forallb_false_elem_of {A} (f : A → bool) (l : list A) :
  forallb f l = false → ∃ x, x ∈ l ∧ f x = false.
Proof.
  induction l as [|x l IH]; simpl; [done|].
  intros [Hx|Hl]%andb_false_iff.
  - exists x. split; [by left|done].
  - destruct (IH Hl) as (y & Hy & Hfy). exists y. split; [by right|done].
Qed.

(** X9.  [memory_mapped_image_list] needs at least one image, images of
    one shape, and three dimensions in that shape.  It raises [ValueError]
    on an exhausted stream and on a stream with images of two shapes, and
    [AssertionError] on images of one shape that has not three dimensions;
    otherwise it yields a corpus whose iteration gives the pairs of the
    stream back, in order. *)
Theorem memory_mapped_image_list_iter {image} (shape : image → list nat)
    (image_iter : list (string * image)) :
  match ImageList.memory_mapped_image_list shape image_iter with
  | Ok il =>
      image_iter ≠ [] ∧ ImageList.iter il = image_iter
      ∧ ImageList.len il = length image_iter
      ∧ Forall (λ x, length (shape (snd x)) = 3%nat) image_iter
  | Raise e =>
      (e = ValueError
       ∧ (image_iter = []
          ∨ ∃ x y, x ∈ image_iter ∧ y ∈ image_iter
                   ∧ shape (snd x) ≠ shape (snd y)))
      ∨ (e = AssertionError
         ∧ image_iter ≠ []
         ∧ ∃ s, length s ≠ 3%nat ∧ Forall (λ x, shape (snd x) = s) image_iter)
  end.
Proof.
  destruct image_iter as [|[id img] l]; [left; split; [done|by left]|].
  unfold ImageList.memory_mapped_image_list, ImageList.np_array.
  cbn [map snd fst].
  destruct (forallb _ (map snd l)) eqn:Hshapes; cbn [mbind result_bind].
  - assert (Forall (λ x, shape (snd x) = shape img) ((id, img) :: l)) as Hall.
    { constructor; [done|]. apply Forall_forall. intros x Hx.
      rewrite forallb_forall in Hshapes.
      eapply bool_decide_eq_true_1, Hshapes, in_map, list_elem_of_In, Hx. }
    unfold ImageList.init.
    assert (length (id :: map fst l) = length (img :: map snd l)) as ->
      by (simpl; by rewrite !length_map).
    rewrite Nat.eqb_refl.
    cbn [assert mbind result_bind ImageList.ndim].
    destruct (Nat.eqb_spec (S (length (shape img))) 4) as [Hdim|Hdim];
      cbn [assert mbind result_bind].
    + split_and!; [done| |unfold ImageList.len; simpl; by rewrite length_map|].
      * unfold ImageList.iter. simpl. f_equal. apply zip_fst_snd.
      * eapply Forall_impl; [exact Hall|]. simpl. intros x ->. lia.
    + right. split_and!; [done..|]. exists (shape img). split; [lia|done].
  - left. split; [done|]. right.
    apply forallb_false_elem_of in Hshapes as (i & Hi & Hne).
    apply list_elem_of_fmap in Hi as ([id' img'] & -> & Hin).
    exists (id', img'), (id, img). split_and!; [by right|by left|].
    by apply bool_decide_eq_false_1 in Hne.
Qed.

Example memory_mapped_examples :
  let shape := λ n : nat, replicate n 2%nat in
  ImageList.iter <$> ImageList.memory_mapped_image_list shape [("a", 3); ("b", 3)]%nat
  = Ok [("a", 3); ("b", 3)]%nat
  ∧ ImageList.memory_mapped_image_list shape [("a", 3); ("b", 4)]%nat
    = Raise ValueError
  ∧ ImageList.memory_mapped_image_list shape [("a", 2); ("b", 2)]%nat
    = Raise AssertionError
  ∧ ImageList.memory_mapped_image_list shape ([] : list (string * nat))
    = Raise ValueError.
Proof. by vm_compute. Qed.

(** ** The selector: shapes, bounds and failures *)

Lemma pick_sorted {A} (P : nat * A → Prop) `{!∀ x, Decision (P x)} (l : list A) k :
  StronglySorted lt (map fst (filter P (imap (λ i x, (k + i, x)%nat) l)))
  ∧ Forall (λ c, k ≤ c < k + length l)%nat
           (map fst (filter P (imap (λ i x, (k + i, x)%nat) l))).
Proof.
  revert k. induction l as [|x l IH]; intros k; [by split; constructor|].
  simpl. destruct (IH (S k)) as [Hs Hb].
  rewrite (imap_ext _ (λ i x, (S k + i, x)%nat))
    by (intros; unfold compose; f_equal; lia).
  assert (Forall (λ c, k ≤ c < k + S (length l))%nat
            (map fst (filter P (imap (λ i x, (S k + i, x)%nat) l)))) as Hb'.
  { eapply Forall_impl; [exact Hb|]. simpl. lia. }
  rewrite filter_cons. case_decide; simpl; [|done].
  split; constructor; try done.
  - eapply Forall_impl; [exact Hb|]. simpl. lia.
  - simpl. lia.
Qed.

Lemma StronglySorted_lt_seq j n : StronglySorted lt (seq j n).
Proof.
  revert j. induction n as [|n IH]; intros j; simpl; constructor; [apply IH|].
  apply Forall_forall. intros c Hc%elem_of_seq. lia.
Qed.

Section selector_shape.
Context {stats : Type}.
Variable type2_stats : stats.
Variable concepts : list string.

(** X10.  What a successful fit leaves: an influence ratio for every
    concept; picked concept ids that are ids of concepts, in increasing
    order and without repetition; and their names, in the same order.
    The threshold and the mode are unchanged. *)
Theorem evaluate_counters_shape (self self' : InterpretPickTransformer.t stats)
    counts influential_counts :
  InterpretPickTransformer._evaluate_counters type2_stats concepts self
    counts influential_counts = Ok self' →
  InterpretPickTransformer.threshold self' = InterpretPickTransformer.threshold self
  ∧ InterpretPickTransformer.quantile self' = InterpretPickTransformer.quantile self
  ∧ ∃ f, InterpretPickTransformer.attrs self' = Some f
       ∧ length (InterpretPickTransformer.concept_influences_ f) = length concepts
       ∧ StronglySorted lt (InterpretPickTransformer.picked_concepts_ f)
       ∧ Forall (λ c, c < length concepts)%nat
                (InterpretPickTransformer.picked_concepts_ f)
       ∧ Forall2 (λ c name, concepts !! c = Some name)
                 (InterpretPickTransformer.picked_concepts_ f)
                 (InterpretPickTransformer.picked_concept_names_ f).
Proof.
  unfold InterpretPickTransformer._evaluate_counters.
  destruct (sum_axis0 counts) as [totals|]; simpl; [|done].
  destruct (sum_axis0 influential_counts) as [influential|]; simpl; [|done].
  destruct (mapM _ (seq 0 (length concepts))) as [infl|] eqn:Hinfl; simpl; [|done].
  destruct (InterpretPickTransformer.get_influential_concepts _ _ infl)
    as [picked|] eqn:Hpick; simpl; [|done].
  destruct (mapM _ picked) as [names|] eqn:Hnames; simpl; [|done].
  intros [= <-]. simpl. split_and!; [done..|]. eexists. split; [done|]. simpl.
  apply mapM_ok_length in Hinfl. rewrite length_seq in Hinfl.
  assert (StronglySorted lt picked ∧ Forall (λ c, c < length concepts)%nat picked)
    as [Hs Hb].
  { unfold InterpretPickTransformer.get_influential_concepts in Hpick.
    assert (∀ thr, StronglySorted lt
              (map fst (filter (λ ii, exceeds (snd ii) thr = true)
                               (imap (λ idx i, (idx, i)) infl)))
            ∧ Forall (λ c, c < length concepts)%nat
              (map fst (filter (λ ii, exceeds (snd ii) thr = true)
                               (imap (λ idx i, (idx, i)) infl)))) as Hpicks.
    { intros thr.
      destruct (pick_sorted (λ ii, exceeds (snd ii) thr = true) infl 0) as [? Hb].
      split; [done|]. eapply Forall_impl; [exact Hb|]. simpl. lia. }
    destruct (InterpretPickTransformer.quantile self).
    - destruct (Nat.eqb _ _).
      + injection Hpick as <-. rewrite Hinfl. split.
        * apply StronglySorted_lt_seq.
        * apply Forall_forall. intros c Hc%elem_of_seq. lia.
      + destruct (np_quantile _ _) as [thr|]; simpl in Hpick; [|done].
        injection Hpick as <-. apply Hpicks.
    - injection Hpick as <-.
      apply (Hpicks (Some (InterpretPickTransformer.threshold self))). }
  split_and!; [done..|].
  clear Hpick Hs Hb. revert names Hnames.
  induction picked as [|c picked IH]; intros names; simpl.
  - intros [= <-]. constructor.
  - destruct (concepts !! c) as [n|] eqn:Hc; simpl; [|done].
    destruct (mapM _ picked) as [names'|]; simpl; [|done].
    intros [= <-]. constructor; [done|]. by apply IH.
Qed.

End selector_shape.

Lemma evaluate_counters_shape_witness :
  StronglySorted lt [0; 2]%nat
  ∧ Forall2 (λ c name, ["sky"; "tree"; "car"] !! c = Some name)
            [0; 2]%nat ["sky"; "car"].
Proof.
  destruct (evaluate_counters_shape tt ["sky"; "tree"; "car"]
              (InterpretPickTransformer.mk (1 # 2) false None)
              (InterpretPickTransformer.mk (1 # 2) false
                 (Some (InterpretPickTransformer.mk_fitted 5 tt
                          [3 # 4; 1 # 3; 1 # 1]%Q [0; 2]%nat ["sky"; "car"])))
              [[2; 1; 0]; [2; 2; 1]] [[2; 0; 0]; [1; 1; 1]])
    as (_ & _ & f & [= <-] & _ & Hs & _ & Hn).
  - vm_compute. reflexivity.
  - split; [exact Hs|exact Hn].
Defined.

(** The quantile of ratios that are not negative is not negative. *)
Lemma lerp_nonneg (lo hi pos : Q) :
  (0 <= lo)%Q → (0 <= hi)%Q →
  (0 <= lo + (pos - inject_Z (Qfloor pos)) * (hi - lo))%Q.
Proof.
  intros Hlo Hhi.
  pose proof (Qfloor_le pos) as Hg0. pose proof (Qlt_floor pos) as Hg1.
  rewrite inject_Z_plus in Hg1. change (inject_Z 1) with 1%Q in Hg1.
  set (g := (pos - inject_Z (Qfloor pos))%Q).
  assert (0 <= g)%Q as Hg0' by (unfold g; lra).
  assert (g <= 1)%Q as Hg1' by (unfold g; lra).
  clearbody g.
  assert (0 <= (1 - g) * lo)%Q as H1 by (apply Qmult_le_0_compat; [lra|done]).
  assert (0 <= g * hi)%Q as H2 by (by apply Qmult_le_0_compat).
  lra.
Qed.

Lemma np_quantile_nonneg (a : list Q) (q v : Q) :
  (∀ r, r ∈ a → (0 <= r)%Q) →
  np_quantile a q = Ok (Some v) → (0 <= v)%Q.
Proof.
  intros Hnn. unfold np_quantile.
  destruct (negb _); [done|]. destruct a as [|x a']; [done|].
  set (a := x :: a') in *. intros Heq.
  assert (∀ n, (0 <= nth n (sorted Qle_bool a) x)%Q) as Hnth.
  { intros n. destruct (nth_in_or_default n (sorted Qle_bool a) x) as [Hin| ->].
    - apply Hnn. by apply list_elem_of_In, elem_of_sorted in Hin.
    - apply Hnn. by left. }
  match type of Heq with
  | Ok (Some ?e) = _ => assert (v = e) as -> by congruence
  end.
  by apply lerp_nonneg.
Qed.

(** X11.  In quantile mode, when the influence ratios are not all equal and
    none is negative, a concept with the ratio 0 is not picked. *)
Theorem quantile_mode_excludes_zero_ratio (q : Q) (infl : list Q)
    (picked : list nat) (c : nat) :
  (∀ r, r ∈ infl → (0 <= r)%Q) →
  length (np_unique infl) ≠ 1%nat →
  InterpretPickTransformer.get_influential_concepts q true infl = Ok picked →
  infl !! c = Some 0%Q →
  c ∉ picked.
Proof.
  intros Hnn Hne Hpick Hc.
  unfold InterpretPickTransformer.get_influential_concepts in Hpick.
  destruct (Nat.eqb_spec (length (np_unique infl)) 1); [done|].
  destruct (np_quantile infl q) as [thr|] eqn:Hq; simpl in Hpick; [|done].
  injection Hpick as <-. intros Hin.
  apply (elem_of_pick thr infl c) in Hin as (i & Hi & Hex).
  rewrite Hc in Hi. injection Hi as <-.
  destruct thr as [v|]; [|done].
  apply exceeds_zero in Hex.
  pose proof (np_quantile_nonneg infl q v Hnn Hq). lra.
Qed.

Lemma quantile_mode_excludes_zero_ratio_witness :
  0%nat ∉ [2%nat].
Proof.
  apply (quantile_mode_excludes_zero_ratio (1 # 2) [0; 1 # 2; 1]%Q [2%nat] 0).
  - intros r Hr. repeat (apply elem_of_cons in Hr as [->|Hr]); try done.
    by inversion Hr.
  - by vm_compute.
  - vm_compute. reflexivity.
  - reflexivity.
Defined.

(** X12.  Raising the fixed threshold picks no new concept. *)
Theorem fixed_threshold_monotone (t1 t2 : Q) (infl : list Q) (p1 p2 : list nat) :
  (t1 <= t2)%Q →
  InterpretPickTransformer.get_influential_concepts t1 false infl = Ok p1 →
  InterpretPickTransformer.get_influential_concepts t2 false infl = Ok p2 →
  ∀ c, c ∈ p2 → c ∈ p1.
Proof.
  intros Hle [= <-] [= <-] c Hc.
  apply (elem_of_pick (Some t2) infl c) in Hc as (i & Hi & Hex).
  apply (elem_of_pick (Some t1) infl c). exists i. split; [done|].
  unfold exceeds in *. apply negb_true_iff in Hex. apply negb_true_iff.
  apply not_true_iff_false. apply not_true_iff_false in Hex.
  rewrite Qle_bool_iff in *. intros Hit. apply Hex. lra.
Qed.

Lemma fixed_threshold_monotone_witness :
  InterpretPickTransformer.get_influential_concepts (1 # 4) false [0; 1 # 3; 1]%Q
  = Ok [1; 2]%nat
  ∧ InterpretPickTransformer.get_influential_concepts (1 # 2) false [0; 1 # 3; 1]%Q
    = Ok [2%nat]
  ∧ 2%nat ∈ [1; 2]%nat.
Proof.
  split_and!; [vm_compute; reflexivity..|].
  apply (fixed_threshold_monotone (1 # 4) (1 # 2) [0; 1 # 3; 1]%Q [1; 2]%nat [2%nat]).
  - by vm_compute.
  - vm_compute. reflexivity.
  - vm_compute. reflexivity.
  - apply list_elem_of_here.
Defined.

Section fit_failures.
Context {image mask stats : Type}.
Variable type2 : string → image → result (list (Z * mask * bool)).
Variable type2_stats : stats.
Variable concepts : list string.
Variable concept_ids_to_counts : list Z → list Z.

Lemma traced_bind_snd {A B} (f : A → traced B) (m : traced A) :
  snd (m ≫= f) = match snd m with Ok a => snd (f a) | Raise e => Raise e end.
Proof.
  destruct m as [l [a|e]]; [|done]. unfold mbind, traced_bind. simpl.
  by destruct (f a).
Qed.

Lemma get_single_counts_snd image_id img :
  match type2 image_id img with
  | Ok [] =>
      snd (InterpretPickTransformer._get_single_counts type2
             concept_ids_to_counts image_id img) = Raise ValueError
  | Ok _ =>
      is_ok (snd (InterpretPickTransformer._get_single_counts type2
                    concept_ids_to_counts image_id img)) = true
  | Raise e =>
      snd (InterpretPickTransformer._get_single_counts type2
             concept_ids_to_counts image_id img) = Raise e
  end.
Proof.
  unfold InterpretPickTransformer._get_single_counts.
  destruct (type2 image_id img) as [[|o r]|e]; done.
Qed.

Lemma get_counts_no_concepts (l : list (string * image)) :
  (∀ x, x ∈ l → is_ok (type2 (fst x) (snd x)) = true) →
  (∃ x, x ∈ l ∧ type2 (fst x) (snd x) = Ok []) →
  snd (mapM (λ x, InterpretPickTransformer._get_single_counts type2
                    concept_ids_to_counts (fst x) (snd x)) l)
  = Raise ValueError.
Proof.
  induction l as [|x l IH]; intros Hok (y & Hy & Hnone); [by inversion Hy|].
  match goal with
  | |- snd (mapM ?f _) = _ =>
      change (snd (f x ≫= λ y, mapM f l ≫= λ k, mret (y :: k)) = Raise ValueError)
  end.
  rewrite traced_bind_snd. cbv beta.
  pose proof (get_single_counts_snd (fst x) (snd x)) as Hx.
  pose proof (Hok x (list_elem_of_here _ _)) as Hokx.
  destruct (type2 (fst x) (snd x)) as [[|o r]|e] eqn:Htype; [by rewrite Hx| |done].
  destruct (snd (InterpretPickTransformer._get_single_counts _ _ _ _))
    as [v|]; [|done].
  rewrite traced_bind_snd.
  apply elem_of_cons in Hy as [->|Hy]; [congruence|].
  rewrite IH; [done| |by exists y].
  intros z Hz. apply Hok. by right.
Qed.

(** X13.  [fit] needs images, and concepts on every image: on an empty
    corpus it raises [ValueError], and so it does when the explainer
    reports no concept occurrence on one of the images (and fails on
    none). *)
Theorem fit_needs_concepts (self : InterpretPickTransformer.t stats)
    (X : ImageList.t image) :
  (∀ x, x ∈ ImageList.iter X → is_ok (type2 (fst x) (snd x)) = true) →
  ImageList.iter X = []
  ∨ (∃ x, x ∈ ImageList.iter X ∧ type2 (fst x) (snd x) = Ok []) →
  snd (InterpretPickTransformer.fit type2 type2_stats concepts
         concept_ids_to_counts self X) = Raise ValueError.
Proof.
  intros Hok Hbad. unfold InterpretPickTransformer.fit.
  rewrite traced_bind_snd. unfold InterpretPickTransformer._get_counts.
  destruct Hbad as [->|Hbad]; [done|].
  by rewrite get_counts_no_concepts.
Qed.

End fit_failures.

Lemma fit_needs_concepts_witness :
  snd (InterpretPickTransformer.fit
         (λ id img, if Nat.eqb img 1 then Ok [] else two_concepts_type2 id img)
         tt ["sky"; "tree"] two_concepts_counts
         (InterpretPickTransformer.mk (1 # 2) false None)
         (ImageList.mk ["a"; "b"] [0; 1]%nat)) = Raise ValueError.
Proof.
  apply (fit_needs_concepts
           (λ id img, if Nat.eqb img 1 then Ok [] else two_concepts_type2 id img)).
  - apply Forall_forall. repeat constructor.
  - right. exists ("b", 1%nat). split; [|reflexivity].
    apply elem_of_cons. right. apply elem_of_cons. by left.
Defined.

Lemma mapM_ok_Forall2 {A B} (f : A → result B) (l : list A) k :
  mapM f l = Ok k → Forall2 (λ x y, f x = Ok y) l k.
Proof.
  revert k. induction l as [|x l IH]; intros k; simpl; [by intros [= <-]; constructor|].
  destruct (f x) eqn:Hfx; simpl; [|done].
  destruct (mapM f l); simpl; [|done].
  intros [= <-]. constructor; [done|]. by apply IH.
Qed.

Lemma select_columns_shape rows cols m :
  select_columns rows cols = Ok m →
  length m = length rows ∧ Forall (λ row, length row = length cols) m.
Proof.
  unfold select_columns. destruct rows as [|r rs]; [by intros [= <-]|].
  destruct (forallb _ rs); [|done]. intros Hm. split; [by apply mapM_ok_length in Hm|].
  apply mapM_ok_Forall2 in Hm. apply Forall_forall. intros row Hrow.
  apply list_elem_of_lookup in Hrow as [i Hi].
  destruct (Forall2_lookup_r _ _ _ _ _ Hm Hi) as (x & _ & Hx).
  by apply mapM_ok_length in Hx.
Qed.

Lemma mapM_traced_length {A B} (f : A → traced B) (l : list A) k :
  snd (mapM f l) = Ok k → length k = length l.
Proof.
  revert k. induction l as [|x l IH]; intros k; simpl; [by intros [= <-]|].
  destruct (f x) as [t [y|e]]; [|done].
  destruct (mapM f l) as [t' [k'|e]]; [|done]. simpl.
  intros [= <-]. simpl. f_equal. by apply IH.
Qed.

Section transform_facts.
Context {image mask stats : Type}.
Variable type2 : string → image → result (list (Z * mask * bool)).
Variable concept_ids_to_counts : list Z → list Z.

(** X14.  [transform] on a selector that is not fitted raises
    [NotFittedError] without calling the explainer.  On a fitted selector,
    when it succeeds, it has called the explainer once for every image, and
    the matrix has a row for every image and a column for every picked
    concept. *)
Theorem transform_shape (self : InterpretPickTransformer.t stats)
    (X : ImageList.t image) :
  match InterpretPickTransformer.attrs self with
  | None =>
      InterpretPickTransformer.transform type2 concept_ids_to_counts self X
      = ([], Raise NotFittedError)
  | Some f =>
      ∀ m,
        snd (InterpretPickTransformer.transform type2 concept_ids_to_counts self X)
        = Ok m →
        fst (InterpretPickTransformer.transform type2 concept_ids_to_counts self X)
        = map fst (ImageList.iter X)
        ∧ length m = length (ImageList.iter X)
        ∧ Forall (λ row, length row
                         = length (InterpretPickTransformer.picked_concepts_ f)) m
  end.
Proof.
  unfold InterpretPickTransformer.transform,
    InterpretPickTransformer.check_is_fitted,
    InterpretPickTransformer.get_picked_concepts_.
  destruct (InterpretPickTransformer.attrs self) as [f|]; [|done].
  intros m. unfold lift, mbind, traced_bind.
  pose proof (get_counts_trace type2 concept_ids_to_counts X) as Htrace.
  pose proof (mapM_traced_length
                (λ x, InterpretPickTransformer._get_single_counts type2
                        concept_ids_to_counts (fst x) (snd x))
                (ImageList.iter X)) as Hlen.
  fold (InterpretPickTransformer._get_counts type2 concept_ids_to_counts X) in Hlen.
  destruct (InterpretPickTransformer._get_counts type2 concept_ids_to_counts X)
    as [t [zipped|e]]; [|done].
  specialize (Htrace zipped eq_refl). specialize (Hlen zipped eq_refl).
  simpl in Htrace. subst t.
  destruct (InterpretPickTransformer.unpack2 zipped) as [cols|e] eqn:Hcols; [|done].
  simpl. destruct (select_columns (fst cols) _) as [m'|e] eqn:Hsel; [|done].
  simpl. intros [= <-]. rewrite !app_nil_r. split; [done|].
  apply select_columns_shape in Hsel as [Hrows Hcolsn].
  split; [|done]. rewrite Hrows, <- Hlen.
  destruct zipped; [done|]. injection Hcols as <-. simpl. by rewrite length_map.
Qed.

End transform_facts.

Lemma transform_shape_witness :
  let self := InterpretPickTransformer.mk (1 # 2) false
                (Some (InterpretPickTransformer.mk_fitted 2 tt [1; 0]%Q
                         [0%nat] ["sky"])) in
  let X := ImageList.mk ["a"; "b"] [0; 1]%nat in
  fst (InterpretPickTransformer.transform two_concepts_type2
         two_concepts_counts self X) = ["a"; "b"]
  ∧ length [[1]; [1]] = 2%nat
  ∧ Forall (λ row, length row = 1%nat) [[1]; [1]].
Proof.
  intros self X.
  apply (transform_shape two_concepts_type2 two_concepts_counts self X [[1]; [1]]).
  vm_compute. reflexivity.
Defined.

(** ** The image stream of an experiment *)

Section stream_facts.
Context {image : Type}.
Variable dataset : string → list (string * image).
Variable collab : Experiment.collaborators image.

(** X15.  Where a resumed run reads its training images: the training
    chunk of repetition [k] in a run resumed at repetition [n] starts
    [(n - 1) * num_calibration_obs] images before the training chunk of
    repetition [k] in the uninterrupted run. *)
Theorem resumed_run_offsets (self : Experiment.t) (n k : nat) reps_full reps_resumed :
  (1 ≤ n)%nat → (n ≤ k)%nat → (k ≤ Experiment.repetitions self)%nat →
  Experiment.run dataset collab self 1 = Ok reps_full →
  Experiment.run dataset collab self n = Ok reps_resumed →
  let start := (Experiment.num_test_obs self
                + (k - 1) * (Experiment.num_calibration_obs self
                             + Experiment.num_train_obs self)
                + Experiment.num_calibration_obs self)%nat in
  ∃ r_full r_resumed,
    reps_full !! (k - 1)%nat = Some r_full
    ∧ reps_resumed !! (k - n)%nat = Some r_resumed
    ∧ Experiment.rep_no r_full = k ∧ Experiment.rep_no r_resumed = k
    ∧ Experiment.train_images r_full
      = take (Experiment.num_train_obs self)
          (drop start (dataset (Experiment.images_url self)))
    ∧ Experiment.train_images r_resumed
      = take (Experiment.num_train_obs self)
          (drop (start - (n - 1) * Experiment.num_calibration_obs self)
             (dataset (Experiment.images_url self))).
Proof.
  intros Hn Hnk Hk Hfull Hres start.
  destruct (run_train_chunk dataset collab self 1 k reps_full)
    as (r1 & H1 & Hno1 & Ht1);
    [lia..|done|].
  destruct (run_train_chunk dataset collab self n k reps_resumed)
    as (r2 & H2 & Hno2 & Ht2);
    [lia..|done|].
  exists r1, r2. split_and!; try done.
  - rewrite Ht1. do 2 f_equal. unfold start. lia.
  - rewrite Ht2. do 2 f_equal. unfold start. nia.
Qed.

(** X16.  Without calibration images, resuming is exact: repetition [k]
    of a run resumed at [n] trains on the images that repetition [k] of the
    uninterrupted run trains on. *)
Theorem resume_exact_without_calibration (self : Experiment.t) (n k : nat)
    reps_full reps_resumed :
  Experiment.num_calibration_obs self = 0%nat →
  (1 ≤ n)%nat → (n ≤ k)%nat → (k ≤ Experiment.repetitions self)%nat →
  Experiment.run dataset collab self 1 = Ok reps_full →
  Experiment.run dataset collab self n = Ok reps_resumed →
  Experiment.train_images <$> reps_resumed !! (k - n)%nat
  = Experiment.train_images <$> reps_full !! (k - 1)%nat
  ∧ is_Some (reps_resumed !! (k - n)%nat).
Proof.
  intros Hc Hn Hnk Hk Hfull Hres.
  destruct (run_train_chunk dataset collab self 1 k reps_full)
    as (r1 & H1 & Hno1 & Ht1);
    [lia..|done|].
  destruct (run_train_chunk dataset collab self n k reps_resumed)
    as (r2 & H2 & Hno2 & Ht2);
    [lia..|done|].
  rewrite H1, H2. simpl. split; [|by eexists].
  rewrite Ht1, Ht2, Hc. do 3 f_equal. nia.
Qed.

Lemma run_loop_concat (self : Experiment.t) rep_nos (it : list (string * image))
    results :
  Experiment.run_loop collab self rep_nos it = Ok results →
  concat (map (λ r, Experiment.calibration_images r ++ Experiment.train_images r)
              results)
  = take (length rep_nos * (Experiment.num_calibration_obs self
                            + Experiment.num_train_obs self)) it.
Proof.
  revert it results.
  induction rep_nos as [|r rep_nos IH]; intros it results Hloop.
  - simpl in Hloop. by injection Hloop as <-.
  - apply run_loop_cons_Ok in Hloop as (rest & -> & Hrest). simpl.
    rewrite (IH _ _ Hrest), take_take_drop, drop_drop. simpl.
    by rewrite take_take_drop.
Qed.

(** X17.  On a store without repeated rows, the slices of a run do not
    overlap: the test images and the calibration and training chunks of all
    its repetitions are pairwise disjoint. *)
Theorem run_chunks_disjoint (self : Experiment.t) (resume_at : nat) reps :
  NoDup (dataset (Experiment.images_url self)) →
  Experiment.run dataset collab self resume_at = Ok reps →
  NoDup (Experiment.test_images dataset self
         ++ concat (map (λ r, Experiment.calibration_images r
                              ++ Experiment.train_images r) reps)).
Proof.
  intros Hnd [_ Hloop]%run_Ok. rewrite (run_loop_concat _ _ _ _ Hloop).
  unfold Experiment.test_images, Experiment._prepare_image_iter. simpl.
  rewrite drop_0.
  set (s := dataset (Experiment.images_url self)) in *.
  set (T := Experiment.num_test_obs self).
  set (m := (_ * _)%nat).
  rewrite <- drop_drop.
  eapply sublist_NoDup; [exact Hnd|].
  rewrite <- (take_drop T s) at 3.
  apply sublist_app; [done|].
  etransitivity; [apply sublist_take|apply sublist_drop].
Qed.

End stream_facts.

Lemma resumed_run_offsets_witness :
  ∃ r_full r_resumed,
    Experiment.train_images r_full = [("5", 5); ("6", 6)]%nat
    ∧ Experiment.train_images r_resumed = [("4", 4); ("5", 5)]%nat.
Proof.
  destruct (Experiment.run ten_images quiet (experiment_of ["cat"; "dog"] 2 2 1 1) 1)
    as [reps_full|] eqn:Hfull; [|by vm_compute in Hfull].
  destruct (Experiment.run ten_images quiet (experiment_of ["cat"; "dog"] 2 2 1 1) 2)
    as [reps_resumed|] eqn:Hres; [|by vm_compute in Hres].
  destruct (resumed_run_offsets ten_images quiet
              (experiment_of ["cat"; "dog"] 2 2 1 1)
              2 2 reps_full reps_resumed)
    as (r1 & r2 & _ & _ & _ & _ & H1 & H2); [simpl; lia..|done|done|].
  exists r1, r2. split; [exact H1|exact H2].
Defined.

Lemma resume_exact_without_calibration_witness :
  ∃ reps_full reps_resumed,
    Experiment.run ten_images quiet (experiment_of ["cat"; "dog"] 3 2 0 1) 1
    = Ok reps_full
    ∧ Experiment.run ten_images quiet (experiment_of ["cat"; "dog"] 3 2 0 1) 2
      = Ok reps_resumed
    ∧ Experiment.train_images <$> reps_resumed !! 1%nat
      = Experiment.train_images <$> reps_full !! 2%nat.
Proof.
  eexists _, _. split; [reflexivity|]. split; [reflexivity|].
  apply (resume_exact_without_calibration ten_images quiet
           (experiment_of ["cat"; "dog"] 3 2 0 1) 2 3); simpl; try lia; reflexivity.
Defined.

Lemma run_chunks_disjoint_witness :
  ∃ reps,
    Experiment.run ten_images quiet (experiment_of ["cat"; "dog"] 2 2 1 1) 1
    = Ok reps
    ∧ NoDup (Experiment.test_images ten_images (experiment_of ["cat"; "dog"] 2 2 1 1)
             ++ concat (map (λ r, Experiment.calibration_images r
                                  ++ Experiment.train_images r) reps)).
Proof.
  eexists. split; [reflexivity|].
  apply (run_chunks_disjoint ten_images quiet
           (experiment_of ["cat"; "dog"] 2 2 1 1) 1).
  - by_compute.
  - reflexivity.
Defined.

(** ** Re-expanding probabilities when the class names are in order *)

Lemma StronglySorted_lookup_lt {A} (R : A → A → Prop) (l : list A) i j x y :
  StronglySorted R l → l !! i = Some x → l !! j = Some y → (i < j)%nat → R x y.
Proof.
  intros Hs. revert i j. induction Hs as [|z l Hs IH Hz]; intros i j; [done|].
  destruct i as [|i], j as [|j]; simpl; try lia.
  - intros [= <-] Hy _. rewrite Forall_forall in Hz. apply Hz.
    by eapply list_elem_of_lookup_2.
  - intros Hx Hy Hlt. apply (IH i j); [done..|lia].
Qed.

Lemma sorted_seq_id (le : nat → nat → bool) k m :
  (∀ i j, (k ≤ i)%nat → (i < j)%nat → (j < k + m)%nat → le i j = true) →
  sorted le (seq k m) = seq k m.
Proof.
  revert k. induction m as [|m IH]; intros k Hle; [done|].
  unfold sorted in *. simpl. rewrite IH by (intros; apply Hle; lia).
  destruct m as [|m]; [done|]. simpl. by rewrite Hle by lia.
Qed.

Lemma String_ltb_leb a b : String.ltb a b = true → String.leb a b = true.
Proof. unfold String.ltb, String.leb. by destruct (String.compare a b). Qed.

(** Class names in alphabetical order are their own sorter. *)
Lemma np_argsort_sorted names :
  StronglySorted (λ a b, String.ltb a b = true) names →
  np_argsort names = seq 0 (length names).
Proof.
  intros Hs. unfold np_argsort. apply sorted_seq_id. intros i j _ Hij Hj.
  destruct (lookup_lt_is_Some_2 names i) as [a Ha]; [lia|].
  destruct (lookup_lt_is_Some_2 names j) as [b Hb]; [lia|].
  rewrite (nth_lookup_Some _ _ _ _ Ha), (nth_lookup_Some _ _ _ _ Hb).
  apply String_ltb_leb.
  exact (StronglySorted_lookup_lt _ _ i j a b Hs Ha Hb Hij).
Qed.

(** The binary search in the class ids [0 .. n-1], read through the
    identity: it finds a class id at its own position, from any bounds
    that enclose it. *)
Lemma binsearch_range (n : nat) (key : Z) fuel (min_idx max_idx : nat) :
  0 ≤ key < Z.of_nat n →
  Z.of_nat min_idx ≤ key → key ≤ Z.of_nat max_idx → (max_idx ≤ n)%nat →
  (max_idx - min_idx < fuel)%nat →
  binsearch fuel (map Z.of_nat (seq 0 n)) (seq 0 n) key min_idx max_idx
  = Ok (Z.to_nat key).
Proof.
  intros Hkey. revert min_idx max_idx.
  induction fuel as [|fuel IH]; intros lo hi Hlo Hhi Hn Hfuel; [lia|].
  simpl. destruct (Nat.ltb_spec lo hi) as [Hlt|Hge].
  - set (mid := (lo + Nat.div2 (hi - lo))%nat).
    assert (lo ≤ mid < hi)%nat as Hmid.
    { assert (Nat.div2 (hi - lo) < hi - lo)%nat as Hd by (apply Nat.lt_div2; lia).
      unfold mid. clear mid. revert Hd. generalize (Nat.div2 (hi - lo)). lia. }
    clearbody mid.
    rewrite (lookup_seq_lt 0 n mid) by lia. simpl.
    rewrite list_lookup_fmap, (lookup_seq_lt 0 n mid) by lia. simpl.
    destruct (Z.ltb_spec (Z.of_nat mid) key); apply IH; lia.
  - f_equal. lia.
Qed.

Lemma searchsorted_keys_range (n : nat) (keys : list Z) last_key min_idx max_idx :
  Forall (λ key, 0 ≤ key < Z.of_nat n) keys →
  Z.of_nat min_idx ≤ last_key → last_key ≤ Z.of_nat max_idx → (max_idx ≤ n)%nat →
  searchsorted_keys (map Z.of_nat (seq 0 n)) (seq 0 n) keys last_key min_idx max_idx
  = Ok (map Z.to_nat keys).
Proof.
  intros Hkeys. revert last_key min_idx max_idx.
  induction Hkeys as [|key keys Hkey Hkeys IH]; intros last lo hi Hlo Hhi Hn; [done|].
  cbn [searchsorted_keys]. rewrite length_map, length_seq.
  rewrite binsearch_range; try done.
  - unfold mbind, result_bind. rewrite IH by lia. done.
  - destruct (Z.ltb_spec last key); simpl; lia.
  - destruct (Z.ltb_spec last key); simpl; [lia|].
    destruct (Nat.ltb_spec hi n); lia.
  - destruct (Z.ltb_spec last key); simpl; [lia|].
    destruct (Nat.ltb_spec hi n); lia.
  - destruct (Z.ltb_spec last key); simpl; [lia|].
    destruct (Nat.ltb_spec hi n); lia.
Qed.

Lemma np_searchsorted_range (n : nat) (keys : list Z) :
  Forall (λ key, 0 ≤ key < Z.of_nat n) keys →
  np_searchsorted (map Z.of_nat (seq 0 n)) keys (seq 0 n) = Ok (map Z.to_nat keys).
Proof.
  intros Hkeys. unfold np_searchsorted.
  rewrite length_map, Nat.eqb_refl. cbn [negb].
  destruct keys as [|key0 keys']; [done|].
  rewrite ?length_map, ?length_seq.
  apply searchsorted_keys_range; [done|..]; apply Forall_cons in Hkeys as [? _]; lia.
Qed.

Lemma mapM_ok_map {A B} (f : A → result B) (g : A → B) (l : list A) :
  (∀ x, x ∈ l → f x = Ok (g x)) → mapM f l = Ok (map g l).
Proof.
  induction l as [|x l IH]; intros Hf; [done|].
  simpl. rewrite Hf by (by left). simpl.
  rewrite IH by (intros; apply Hf; by right). done.
Qed.

(** Assigning values to distinct columns of a row *)
Lemma assign_foldl {F} (idx : list nat) (vals row0 : list F) :
  NoDup idx → Forall (λ c, c < length row0)%nat idx → length vals = length idx →
  let row := foldl (λ row cv, <[fst cv := snd cv]> row) row0 (zip idx vals) in
  length row = length row0
  ∧ (∀ j c p, idx !! j = Some c → vals !! j = Some p → row !! c = Some p)
  ∧ (∀ k, k ∉ idx → row !! k = row0 !! k).
Proof.
  revert vals row0. induction idx as [|c idx IH]; intros vals row0 Hnd Hlt Hlen.
  { simpl. split_and!; [done| |done]. by intros j c p. }
  destruct vals as [|v vals]; [done|]. injection Hlen as Hlen.
  apply NoDup_cons in Hnd as [Hc Hnd]. apply Forall_cons in Hlt as [Hclt Hlt].
  destruct (IH vals (<[c := v]> row0)) as (Hl & Hset & Hkeep); [done| |done|].
  { eapply Forall_impl; [exact Hlt|]. intros k. by rewrite length_insert. }
  simpl. split_and!.
  - by rewrite Hl, length_insert.
  - intros [|j] c' p; simpl.
    + intros [= <-] [= <-]. rewrite Hkeep by done.
      by apply list_lookup_insert_eq.
    + apply Hset.
  - intros k Hk. apply not_elem_of_cons in Hk as [Hkc Hk].
    rewrite Hkeep by done. by apply list_lookup_insert_ne.
Qed.

Lemma assign_columns_same_length {F} (row : list F) idx probs :
  length probs = length idx →
  Experiment.assign_columns row idx probs
  = Ok (foldl (λ row cv, <[fst cv := snd cv]> row) row (zip idx probs)).
Proof.
  intros Hlen. unfold Experiment.assign_columns.
  by rewrite Hlen, Nat.eqb_refl.
Qed.

Section spread_facts.
Context {F : Type}.
Variable zero : F.

(** X18.  With class names in alphabetical order, the re-expansion is
    right: for a surrogate that has seen the distinct classes [classes_]
    of the universe, every row of the result has a column for every class,
    holds the probability of each seen class in the column of its id and
    [0.] in the columns of the classes not seen. *)
Theorem spread_probs_sorted_names (self : Experiment.t)
    (probs : list (list F)) (classes_ : list Z) :
  Experiment.post_init self = Ok tt →
  StronglySorted (λ a b, String.ltb a b = true) (Experiment.class_names self) →
  Forall (λ c, 0 ≤ c < Z.of_nat (Experiment.num_classes self)) classes_ →
  NoDup classes_ →
  Forall (λ row, length row = length classes_) probs →
  ∃ out,
    Experiment._spread_probs_to_all_classes zero self probs classes_ = Ok out
    ∧ Forall2 (λ row row',
         length row' = Experiment.num_classes self
         ∧ (∀ j c p, classes_ !! j = Some c → row !! j = Some p →
                     row' !! Z.to_nat c = Some p)
         ∧ (∀ k, (k < Experiment.num_classes self)%nat →
                 Z.of_nat k ∉ classes_ → row' !! k = Some zero))
       probs out.
Proof.
  intros Hinit Hsorted Hrange Hnd Hrows.
  unfold Experiment.post_init, assert in Hinit.
  destruct (Nat.eqb_spec (length (Experiment.class_names self))
              (Experiment.num_classes self)) as [Hn|]; [|done].
  set (n := Experiment.num_classes self) in *.
  unfold Experiment._spread_probs_to_all_classes, Experiment.all_class_ids.
  rewrite np_argsort_sorted, Hn by done. fold n.
  rewrite np_searchsorted_range by done. cbn [mbind result_bind].
  set (idx := map Z.to_nat classes_).
  rewrite (mapM_ok_map _ id idx); cycle 1.
  { intros i (c & -> & Hc)%list_elem_of_fmap. rewrite Forall_forall in Hrange.
    specialize (Hrange c Hc). by rewrite lookup_seq_lt by lia. }
  rewrite map_id. cbn [mbind result_bind].
  assert (NoDup idx) as Hnd'.
  { apply NoDup_fmap_2_strong; [|done]. intros c c' Hc Hc' Heq.
    rewrite Forall_forall in Hrange.
    pose proof (Hrange c Hc). pose proof (Hrange c' Hc'). lia. }
  assert (Forall (λ c, c < length (replicate n zero))%nat idx) as Hlt.
  { rewrite length_replicate. apply Forall_forall.
    intros i (c & -> & Hc)%list_elem_of_fmap. rewrite Forall_forall in Hrange.
    specialize (Hrange c Hc). lia. }
  exists (map (λ row, foldl (λ r cv, <[fst cv := snd cv]> r) (replicate n zero)
                        (zip idx row)) probs).
  split.
  - clear Hnd' Hlt. induction Hrows as [|row probs Hrow Hrows IH]; [done|].
    cbn [map zip zip_with mapM fst snd].
    rewrite assign_columns_same_length
      by (by unfold idx; rewrite length_map).
    cbn [mbind result_bind]. cbn [map zip zip_with mapM fst snd] in IH.
    rewrite IH. done.
  - apply Forall2_fmap_r, Forall_Forall2_diag.
    eapply Forall_impl; [exact Hrows|]. intros row Hrow. simpl in Hrow.
    destruct (assign_foldl idx row (replicate n zero) Hnd' Hlt)
      as (Hl & Hset & Hkeep); [by rewrite Hrow; unfold idx; rewrite length_map|].
    split_and!.
    + by rewrite Hl, length_replicate.
    + intros j c p Hc Hp. apply (Hset j); [|done].
      unfold idx. by rewrite list_lookup_fmap, Hc.
    + intros k Hk Hnot. rewrite Hkeep; [by apply lookup_replicate_2|].
      intros (c & -> & Hc)%list_elem_of_fmap. rewrite Forall_forall in Hrange.
      specialize (Hrange c Hc). apply Hnot. by rewrite Z2Nat.id by lia.
Qed.

End spread_facts.

Lemma spread_probs_sorted_names_witness :
  ∃ out,
    Experiment._spread_probs_to_all_classes 0%Q
      (experiment_of ["a"; "b"; "c"; "d"] 1 1 1 1)
      [[3 # 10; 7 # 10]; [1 # 2; 1 # 2]]%Q [0; 2] = Ok out
    ∧ out = [[3 # 10; 0; 7 # 10; 0]; [1 # 2; 0; 1 # 2; 0]]%Q.
Proof.
  destruct (spread_probs_sorted_names 0%Q
              (experiment_of ["a"; "b"; "c"; "d"] 1 1 1 1)
              [[3 # 10; 7 # 10]; [1 # 2; 1 # 2]]%Q [0; 2])
    as (out & Hout & _).
  - reflexivity.
  - repeat (constructor; [|repeat constructor]). constructor.
  - repeat constructor; simpl; lia.
  - by_compute.
  - by repeat constructor.
  - exists out. split; [exact Hout|].
    vm_compute in Hout. by injection Hout as <-.
Defined.

Lemma foldl_insert_length {F} (cvs : list (nat * F)) (row : list F) :
  length (foldl (λ row cv, <[fst cv := snd cv]> row) row cvs) = length row.
Proof.
  revert row. induction cvs as [|cv cvs IH]; intros row; [done|].
  simpl. by rewrite IH, length_insert.
Qed.

Lemma assign_columns_length {F} (row : list F) idx probs row' :
  Experiment.assign_columns row idx probs = Ok row' → length row' = length row.
Proof.
  unfold Experiment.assign_columns.
  destruct (Nat.eqb _ _); simpl.
  - intros [= <-]. apply foldl_insert_length.
  - destruct probs as [|p [|]]; simpl; try done.
    intros [= <-]. apply foldl_insert_length.
Qed.

Section predictions_facts.
Context {F : Type}.
Variable zero : F.

(** The rows of a re-expanded matrix have a column for every class name. *)
Lemma spread_probs_row_lengths (self : Experiment.t) probs classes_ out :
  Experiment._spread_probs_to_all_classes zero self probs classes_ = Ok out →
  Forall (λ row, length row = length (Experiment.class_names self)) out.
Proof.
  unfold Experiment._spread_probs_to_all_classes.
  destruct (np_searchsorted _ _ _) as [found|]; simpl; [|done].
  destruct (mapM _ found) as [idx|]; simpl; [|done].
  intros Hout. apply mapM_ok_Forall2 in Hout.
  apply Forall_forall. intros row' Hrow'.
  apply list_elem_of_lookup in Hrow' as [i Hi].
  destruct (Forall2_lookup_r _ _ _ _ _ Hout Hi) as ([row0 prow] & Hz & Hassign).
  apply assign_columns_length in Hassign. rewrite Hassign. simpl.
  apply list_elem_of_lookup_2, elem_of_zip_l in Hz.
  apply list_elem_of_fmap in Hz as (? & -> & _). by rewrite length_replicate.
Qed.

(** X19.  [_get_predictions] passes on the exception of the re-expansion;
    otherwise, with two class names it returns the column of class 1 of the
    re-expanded matrix, and with another number of class names the
    re-expanded matrix itself. *)
Theorem get_predictions_binary_collapse (self : Experiment.t) pred classes_ :
  match Experiment._spread_probs_to_all_classes zero self pred classes_ with
  | Ok out =>
      Experiment._get_predictions zero self pred classes_
      = Ok (if Nat.eqb (length (Experiment.class_names self)) 2
            then Experiment.Vector (map (λ row, default zero (row !! 1%nat)) out)
            else Experiment.Matrix out)
  | Raise e => Experiment._get_predictions zero self pred classes_ = Raise e
  end.
Proof.
  unfold Experiment._get_predictions.
  pose proof (spread_probs_row_lengths self pred classes_) as Hlen.
  destruct (Experiment._spread_probs_to_all_classes zero self pred classes_)
    as [out|e]; [|done].
  specialize (Hlen out eq_refl). simpl.
  destruct (Nat.eqb_spec (length (Experiment.class_names self)) 2) as [Hn|]; [|done].
  rewrite Hn in Hlen.
  rewrite (mapM_ok_map _ (λ row, default zero (row !! 1%nat))); [done|].
  intros row Hrow. rewrite Forall_forall in Hlen. specialize (Hlen row Hrow).
  destruct row as [|? [|? ?]]; done.
Qed.

End predictions_facts.

(** ** Fingerprints and the ledger *)

Lemma Qred_inject_Z_inj (a b : Z) :
  Qred (inject_Z a) = Qred (inject_Z b) → a = b.
Proof.
  intros Heq.
  assert (Qred (inject_Z a) == Qred (inject_Z b))%Q as Hq by (by rewrite Heq).
  rewrite !Qred_correct in Hq. by apply inject_Z_injective.
Qed.

(** The key parameters of an experiment, in the order of [KEY_PARAMS]. *)
Lemma params_key_lookups (e : Experiment.t) :
  map (λ k, Experiment.params e !! k) KEY_PARAMS
  = [Some (VStr (Experiment.classifier_name e));
     Some (VStr (Experiment.images_url e));
     Some (VInt (Z.of_nat (Experiment.num_train_obs e)));
     Some (VInt (Z.of_nat (Experiment.num_calibration_obs e)));
     Some (VStr (Experiment.interpreter_str e));
     Some (VStr (Experiment.type2_str e));
     Some (VStr (Experiment.type1_str e));
     Some (VStr (Experiment.model_agnostic_picker_str e));
     Some (VNum (Experiment.max_perturbed_area e));
     Some (VNum (Experiment.max_concept_overlap e))].
Proof. vm_compute. reflexivity. Qed.

Lemma freeze_params_eq_iff (e1 e2 : Experiment.t) :
  _freeze (Experiment.params e1) = _freeze (Experiment.params e2)
  ↔ map (λ k, Experiment.params e1 !! k) KEY_PARAMS
    = map (λ k, Experiment.params e2 !! k) KEY_PARAMS.
Proof.
  rewrite _freeze_eq_iff by apply params_picker.
  unfold agree_on_key_params. rewrite map_ext_in_iff.
  by setoid_rewrite list_elem_of_In.
Qed.

(** X20.  Two experiments have the same fingerprint exactly when they have
    the same classifier, store of images, numbers of training and
    calibration images, interpreter, explainers, picker and interpreter
    thresholds.  The other fields (the number of test images, the class and
    concept names, the random state, the number of repetitions) do not
    matter. *)
Theorem fingerprint_fields (e1 e2 : Experiment.t) :
  _freeze (Experiment.params e1) = _freeze (Experiment.params e2)
  ↔ Experiment.classifier_name e1 = Experiment.classifier_name e2
    ∧ Experiment.images_url e1 = Experiment.images_url e2
    ∧ Experiment.num_train_obs e1 = Experiment.num_train_obs e2
    ∧ Experiment.num_calibration_obs e1 = Experiment.num_calibration_obs e2
    ∧ Experiment.interpreter_str e1 = Experiment.interpreter_str e2
    ∧ Experiment.type2_str e1 = Experiment.type2_str e2
    ∧ Experiment.type1_str e1 = Experiment.type1_str e2
    ∧ Experiment.model_agnostic_picker_str e1
      = Experiment.model_agnostic_picker_str e2
    ∧ Experiment.max_perturbed_area e1 = Experiment.max_perturbed_area e2
    ∧ Experiment.max_concept_overlap e1 = Experiment.max_concept_overlap e2.
Proof.
  rewrite freeze_params_eq_iff, !params_key_lookups. split.
  - intros [= H1 H2 H3%Qred_inject_Z_inj H4%Qred_inject_Z_inj H5 H6 H7 H8 H9 H10].
    split_and!; try done; lia.
  - intros (-> & -> & -> & -> & -> & -> & -> & -> & -> & ->). done.
Qed.

Lemma run_loop_rep_nos {image} (collab : Experiment.collaborators image)
    (self : Experiment.t) rep_nos (it : list (string * image)) results :
  Experiment.run_loop collab self rep_nos it = Ok results →
  map Experiment.rep_no results = rep_nos.
Proof.
  revert it results.
  induction rep_nos as [|r rep_nos IH]; intros it results Hloop.
  - simpl in Hloop. by injection Hloop as <-.
  - apply run_loop_cons_Ok in Hloop as (rest & -> & Hrest). simpl.
    by rewrite (IH _ _ Hrest).
Qed.

Lemma load_row_error st e err : load_row st e = Raise err → err = AssertionError.
Proof.
  unfold load_row. destruct (exp_no_by_params st !! _); simpl; [|done].
  unfold assert. by destruct (Z.eqb _ _); simpl; [|intros [= <-]].
Qed.

(** A loaded row keeps the numbers loaded before, gives its fingerprint
    its number and counts one more repetition for it. *)
Lemma load_row_Ok st e st' :
  load_row st e = Ok st' →
  (∀ fp n, exp_no_by_params st !! fp = Some n →
           exp_no_by_params st' !! fp = Some n)
  ∧ exp_no_by_params st' !! _freeze (row_params e) = Some (row_exp_no e)
  ∧ ∀ fp, done_count st' fp
          = (done_count st fp
             + if decide (_freeze (row_params e) = fp) then 1 else 0)%nat.
Proof.
  unfold load_row.
  destruct (exp_no_by_params st !! _freeze (row_params e)) as [n|] eqn:Hlook; simpl.
  - unfold assert. destruct (Z.eqb_spec n (row_exp_no e)) as [->|]; simpl; [|done].
    intros [= <-]. simpl. split_and!; [done|done|].
    intros fp. unfold done_count. simpl. rewrite lookup_insert.
    case_decide; [subst; simpl; lia|lia].
  - intros [= <-]. simpl. split_and!.
    + intros fp n Hfp. rewrite lookup_insert_ne; [done|]. congruence.
    + by rewrite lookup_insert_eq.
    + intros fp. unfold done_count. simpl. rewrite lookup_insert.
      case_decide; [subst; simpl; lia|lia].
Qed.

Lemma load_rows_error rows st err :
  load_rows st rows = Raise err → err = AssertionError.
Proof.
  revert st. induction rows as [|e rows IH]; intros st; simpl; [done|].
  destruct (load_row st e) as [st1|err'] eqn:Hrow; simpl.
  - apply IH.
  - intros [= <-]. by eapply load_row_error.
Qed.

Lemma load_rows_Ok rows st st' :
  load_rows st rows = Ok st' →
  (∀ fp n, exp_no_by_params st !! fp = Some n →
           exp_no_by_params st' !! fp = Some n)
  ∧ (∀ r, r ∈ rows →
          exp_no_by_params st' !! _freeze (row_params r) = Some (row_exp_no r))
  ∧ ∀ fp, done_count st' fp
          = (done_count st fp
             + length (filter (λ r, _freeze (row_params r) = fp) rows))%nat.
Proof.
  revert st. induction rows as [|e rows IH]; intros st; simpl.
  - intros [= <-]. split_and!; [done|by inversion 1|]. intros fp. simpl. lia.
  - destruct (load_row st e) as [st1|] eqn:Hrow; simpl; [|done].
    intros Hrows. apply load_row_Ok in Hrow as (Hkeep1 & Hnew1 & Hdone1).
    apply IH in Hrows as (Hkeep & Hnew & Hdone). split_and!.
    + auto.
    + intros r [->|Hr]%elem_of_cons; auto.
    + intros fp. rewrite Hdone, Hdone1, filter_cons.
      case_decide; simpl; lia.
Qed.

(** X21.  Continuing a run is refused when its ledger is unusable: with no
    row it raises [StopIteration], and with two rows of the same
    fingerprint and different experiment numbers it raises
    [AssertionError]. *)
Theorem resume_rejects_bad_ledger {image}
    (dataset : string → list (string * image))
    (collab : Experiment.collaborators image)
    (rows : list row) (experiments : list Experiment.t) :
  run_experiments dataset collab (Some []) experiments = Raise StopIteration
  ∧ ((∃ r1 r2, r1 ∈ rows ∧ r2 ∈ rows
             ∧ _freeze (row_params r1) = _freeze (row_params r2)
             ∧ row_exp_no r1 ≠ row_exp_no r2) →
     run_experiments dataset collab (Some rows) experiments
     = Raise AssertionError).
Proof.
  split; [done|]. intros (r1 & r2 & Hr1 & Hr2 & Hfp & Hno).
  unfold run_experiments.
  destruct (load_rows runner_init rows) as [st|err] eqn:Hload; simpl.
  - apply load_rows_Ok in Hload as (_ & Hrows & _).
    pose proof (Hrows r1 Hr1) as H1. pose proof (Hrows r2 Hr2) as H2.
    rewrite Hfp in H1. congruence.
  - by apply load_rows_error in Hload as ->.
Qed.

Lemma resume_rejects_bad_ledger_witness :
  run_experiments ten_images quiet
    (Some [mk_row 1 (Experiment.params (experiment_of ["cat"; "dog"] 2 2 1 1)) 1;
           mk_row 2 (Experiment.params (experiment_of ["cat"; "dog"] 2 2 1 3)) 1])
    [] = Raise AssertionError.
Proof.
  apply (resume_rejects_bad_ledger ten_images quiet).
  eexists _, _. split_and!.
  - by left.
  - right. by left.
  - simpl. apply freeze_params_eq_iff. by rewrite !params_key_lookups.
  - done.
Defined.

Section ledger_facts.
Context {image : Type}.
Variable dataset : string → list (string * image).
Variable collab : Experiment.collaborators image.

(** X22.  The rows written for an experiment, with [d] rows already
    counted for its fingerprint.  When [d] reaches [repetitions] nothing is
    run or written and the bookkeeping is unchanged.  Otherwise the
    experiment is run from repetition [d + 1]: what the run raises is
    passed on; when it raises nothing, the rows are those of the
    repetitions [d + 1] to [repetitions], in order, each with the
    parameters of the experiment, and the counter of the fingerprint has
    become [d + 1], whatever the number of rows. *)
Theorem run_experiment_rows (st : runner) (e : Experiment.t) :
  let fp := _freeze (Experiment.params e) in
  let d := done_count st fp in
  if decide (Experiment.repetitions e ≤ d)%nat
  then run_experiment dataset collab st e = Ok (st, [])
  else match Experiment.run dataset collab e (S d) with
       | Ok _ =>
           ∃ st' rows,
             run_experiment dataset collab st e = Ok (st', rows)
             ∧ map row_rep_no rows = seq (S d) (Experiment.repetitions e - d)
             ∧ Forall (λ r, row_params r = Experiment.params e) rows
             ∧ done_count st' fp = S d
       | Raise err => run_experiment dataset collab st e = Raise err
       end.
Proof.
  intros fp d. unfold run_experiment.
  remember (Experiment.params e) as p eqn:Hp.
  change (_freeze p) with fp. fold d.
  destruct (Nat.leb_spec (Experiment.repetitions e) d) as [Hle|Hlt].
  { by rewrite decide_True by done. }
  rewrite decide_False by lia.
  assert (∀ st1 : runner,
            done_count
              (mk_runner (<[fp := S (done_count st1 fp)]> (done_counter st1))
                         (exp_no_by_params st1) (next_exp_no st1)) fp
            = S (done_count st1 fp)) as Hdone.
  { intros st1. unfold done_count at 1. simpl. by rewrite lookup_insert_eq. }
  assert (∀ exp_no dc,
            done_count (mk_runner (done_counter st) exp_no dc) fp = d) as Hsame
    by done.
  destruct (exp_no_by_params st !! fp) as [exp_no|]; cbv beta iota zeta;
    rewrite !Hdone, ?Hsame; fold d;
    destruct (Experiment.run dataset collab e (S d)) as [results|err] eqn:Hrun;
    cbn [mbind result_bind]; try done;
    apply run_Ok in Hrun as [_ Hloop];
    apply run_loop_rep_nos in Hloop;
    (eexists _, _; split; [done|]; split_and!;
     [transitivity (map Experiment.rep_no results);
        [by rewrite map_map|rewrite Hloop; f_equal; lia]
     |by apply Forall_forall; intros r (x & -> & _)%list_elem_of_fmap
     |]).
  - unfold done_count at 1. simpl. by rewrite lookup_insert_eq.
  - unfold done_count at 1. simpl. by rewrite lookup_insert_eq.
Qed.

Lemma run_experiment_list_completed (st : runner) (experiments : list Experiment.t) :
  (∀ e, e ∈ experiments →
        (Experiment.repetitions e
         ≤ done_count st (_freeze (Experiment.params e)))%nat) →
  run_experiment_list dataset collab st experiments = Ok (st, []).
Proof.
  induction experiments as [|e es IH]; intros Hdone; [done|].
  cbn [run_experiment_list]. unfold run_experiment at 1.
  specialize (Hdone e (list_elem_of_here _ _)) as Hd.
  apply Nat.leb_le in Hd. rewrite Hd. cbn [mbind result_bind fst snd].
  by rewrite IH by (intros; apply Hdone; by right).
Qed.

(** X23.  Continuing a run whose experiments are all completed writes
    nothing: when the ledger holds, for every experiment, at least as many
    rows of its fingerprint as it has repetitions, the ledger is
    unchanged. *)
Theorem resume_completed_is_idempotent (rows : list row)
    (experiments : list Experiment.t) :
  rows ≠ [] → consistent rows →
  (∀ e, e ∈ experiments →
        (Experiment.repetitions e
         ≤ length (filter (λ r, _freeze (row_params r)
                              = _freeze (Experiment.params e)) rows))%nat) →
  run_experiments dataset collab (Some rows) experiments = Ok rows.
Proof.
  intros Hne Hcons Hdone. unfold run_experiments.
  destruct (load_rows_inv rows runner_init [] runner_inv_init) as (st & Hload & _);
    [|done|].
  { intros fp n Hfp. simpl in Hfp. by apply lookup_empty_Some in Hfp. }
  rewrite Hload. cbn [mbind result_bind]. destruct rows as [|r rows']; [done|].
  cbn [mbind result_bind default].
  apply load_rows_Ok in Hload as (_ & _ & Hcount).
  rewrite run_experiment_list_completed;
    [cbn [mbind result_bind snd]; by rewrite app_nil_r|].
  intros e He. rewrite Hcount. specialize (Hdone e He).
  unfold done_count at 1. simpl. rewrite lookup_empty. simpl. lia.
Qed.


End ledger_facts.

Lemma resume_completed_is_idempotent_witness :
  let e := experiment_of ["cat"; "dog"] 2 2 1 1 in
  let rows := [mk_row 1 (Experiment.params e) 1; mk_row 1 (Experiment.params e) 2] in
  run_experiments ten_images quiet (Some rows) [e] = Ok rows.
Proof.
  intros e rows.
  apply (resume_completed_is_idempotent ten_images quiet rows [e]).
  - done.
  - intros r1 r2 Hr1 Hr2.
    assert (∀ r, r ∈ rows → row_params r = Experiment.params e ∧ row_exp_no r = 1)
      as Hrows.
    { intros r Hr. repeat (apply elem_of_cons in Hr as [->|Hr]); try done.
      by inversion Hr. }
    destruct (Hrows r1 Hr1) as [-> ->]. by destruct (Hrows r2 Hr2) as [-> ->].
  - intros e' ->%list_elem_of_singleton. unfold rows.
    rewrite !filter_cons, !decide_True by done. simpl. lia.
Defined.

(** The two outcomes of an experiment that is run: on the store of ten
    images, two rows; on a store of two images, the [ValueError] of the
    empty training slice. *)
Example run_experiment_examples :
  let e := experiment_of ["cat"; "dog"] 2 2 1 1 in
  (map (λ r, (row_exp_no r, row_rep_no r)) ∘ snd
     <$> run_experiment ten_images quiet runner_init e)
  = Ok [(1, 1%nat); (1, 2%nat)]
  ∧ (map (λ r, (row_exp_no r, row_rep_no r)) ∘ snd
       <$> run_experiment (λ url, take 2 (ten_images url)) quiet runner_init e)
    = Raise ValueError.
Proof. split; vm_compute; reflexivity. Qed.


(** ** Perturbers of concept counts *)

(** X25.  [GlobalPerturber.perturb] yields the original counts first,
    without an image id.  When no concept is influential it yields nothing
    else and leaves the sampler alone; otherwise it draws
    [num_perturbations] samples (or as many as the sampler has) and yields,
    for each, counts that are at least the influential counts and at least
    the sampled counts, with the id of the sample. *)
Theorem global_perturb_yields (num_perturbations : nat)
    (influential_counts counts : list Z) (sampler : list (list Z * string)) :
  Forall (λ s, length (fst s) = length influential_counts) sampler →
  let (ys, rest) :=
    GlobalPerturber.perturb num_perturbations influential_counts counts sampler in
  ys !! 0%nat = Some (counts, None)
  ∧ if decide (Forall (λ c, c = 0) influential_counts)
    then ys = [(counts, None)] ∧ rest = sampler
    else length ys = S (num_perturbations `min` length sampler)
         ∧ rest = drop num_perturbations sampler
         ∧ ∀ i s, (i < num_perturbations)%nat → sampler !! i = Some s →
             ∃ y, ys !! S i = Some (y, Some (snd s))
                ∧ Forall2 Z.le influential_counts y
                ∧ Forall2 Z.le (fst s) y.
Proof.
  intros Hlen. unfold GlobalPerturber.perturb.
  destruct (existsb _ influential_counts) eqn:Hex.
  - split; [done|]. rewrite decide_False; cycle 1.
    { intros Hall. apply existsb_exists in Hex as (c & Hc & Hnz).
      rewrite Forall_forall in Hall.
      rewrite (Hall c) in Hnz by (by apply list_elem_of_In). done. }
    split_and!; [simpl; by rewrite length_map, length_take|done|].
    intros i s Hi Hs. eexists. split.
    + simpl. rewrite list_lookup_fmap, lookup_take_lt, Hs by done. done.
    + rewrite Forall_forall in Hlen.
      specialize (Hlen s (list_elem_of_lookup_2 _ _ _ Hs)).
      revert Hlen. generalize (fst s). clear.
      induction influential_counts as [|a l IH]; intros [|b k]; try done.
      simpl. intros [= Hlen]. destruct (IH k Hlen).
      split; constructor; try done; lia.
  - split; [done|]. rewrite decide_True; [done|].
    apply Forall_forall. intros c Hc.
    destruct (Z.eqb_spec c 0) as [|Hne]; [done|].
    assert (existsb (λ c, negb (Z.eqb c 0)) influential_counts = true) as Hex'.
    { apply existsb_exists. exists c. split; [by apply list_elem_of_In|].
      by apply negb_true_iff, Z.eqb_neq. }
    congruence.
Qed.

Lemma global_perturb_yields_witness :
  GlobalPerturber.perturb 2 [1; 0; 2] [1; 3; 2]
    [([0; 5; 0], "a"); ([4; 0; 1], "b"); ([9; 9; 9], "c")]
  = ([([1; 3; 2], None); ([1; 5; 2], Some "a"); ([4; 0; 2], Some "b")],
     [([9; 9; 9], "c")])
  ∧ ∃ y, Forall2 Z.le [1; 0; 2] y ∧ Forall2 Z.le [4; 0; 1] y.
Proof.
  split; [reflexivity|].
  pose proof (global_perturb_yields 2 [1; 0; 2] [1; 3; 2]
                [([0; 5; 0], "a"); ([4; 0; 1], "b"); ([9; 9; 9], "c")]) as H.
  simpl in H. destruct H as (_ & _ & _ & H); [by repeat constructor|].
  destruct (H 1%nat ([4; 0; 1], "b")) as (y & _ & H1 & H2); [lia|done|].
  by exists y.
Defined.

Section local_perturber.
Import LocalPerturber.

Lemma elem_of_product {A} (pools : list (list A)) (xs : list A) :
  xs ∈ product pools ↔ Forall2 (λ x pool, x ∈ pool) xs pools.
Proof.
  revert xs. induction pools as [|pool pools IH]; intros xs; simpl.
  - rewrite list_elem_of_singleton. split; [intros ->; constructor | by inversion 1].
  - rewrite list_elem_of_bind. split.
    + intros (x & Hxs & Hx). apply list_elem_of_bind in Hxs as (rest & Hxs & Hrest).
      apply list_elem_of_singleton in Hxs as ->. constructor; [done|]. by apply IH.
    + inversion 1 as [|x ? rest ? Hx Hrest]; subst. exists x. split; [|done].
      apply list_elem_of_bind. exists rest.
      split; [by apply list_elem_of_singleton | by apply IH].
Qed.

Lemma length_bind_const {A B} (f : A → list B) (l : list A) (n : nat) :
  (∀ x, length (f x) = n) → length (l ≫= f) = (length l * n)%nat.
Proof.
  intros Hf. induction l as [|x l IH]; [done|].
  rewrite bind_cons, length_app, Hf, IH. simpl. lia.
Qed.

Lemma length_bind_singleton {A B} (f : A → B) (l : list A) :
  length (x ← l; [f x]) = length l.
Proof. rewrite (length_bind_const _ l 1%nat) by done. lia. Qed.

Lemma length_product {A} (pools : list (list A)) :
  length (product pools) = foldr Nat.mul 1%nat (map length pools).
Proof.
  induction pools as [|pool pools IH]; [done|]. simpl.
  rewrite (length_bind_const _ pool (length (product pools))); [by rewrite IH|].
  intros x. apply length_bind_singleton.
Qed.

Lemma head_product {A} (pools : list (list A)) (hs : list A) :
  Forall2 (λ h pool, head pool = Some h) hs pools →
  head (product pools) = Some hs.
Proof.
  induction 1 as [|h pool hs pools Hh _ IH]; [done|]. simpl.
  destruct pool as [|x pool]; [done|]. injection Hh as ->.
  destruct (product pools) as [|r rs]; [done|]. by injection IH as ->.
Qed.

Lemma flatnonzero_map {B} (F : Z → B) (G : nat → B) (f : nat → nat) (a : list Z) :
  (∀ i c, a !! i = Some c → G (f i) = F c) →
  map G (map fst (filter (λ ic : nat * Z, snd ic ≠ 0) (imap (λ i c, (f i, c)) a)))
  = map F (filter (λ c, c ≠ 0) a).
Proof.
  revert f. induction a as [|x a IH]; intros f Hf; [done|].
  rewrite imap_cons.
  change (imap ((λ i c, (f i, c)) ∘ S) a) with (imap (λ i c, ((f ∘ S) i, c)) a).
  rewrite !filter_cons. simpl snd.
  destruct (decide (x ≠ 0)); simpl.
  - f_equal; [by apply (Hf 0%nat)|]. apply IH. intros i c Hi. by apply (Hf (S i)).
  - apply IH. intros i c Hi. by apply (Hf (S i)).
Qed.

Lemma map_flatnonzero {B} (F : Z → B) (a : list Z) :
  map (λ idx, F (nth idx a 0)) (flatnonzero a) = map F (filter (λ c, c ≠ 0) a).
Proof.
  unfold flatnonzero. apply (flatnonzero_map F _ (λ i, i)).
  intros i c Hi. by rewrite (nth_lookup_Some _ _ _ _ Hi).
Qed.

Lemma elem_of_flatnonzero (a : list Z) (i : nat) :
  i ∈ flatnonzero a ↔ ∃ c, a !! i = Some c ∧ c ≠ 0.
Proof.
  unfold flatnonzero. rewrite list_elem_of_fmap. split.
  - intros ([j c] & -> & [Hc Hin]%list_elem_of_filter).
    apply elem_of_lookup_imap in Hin as (k & y & [= -> ->] & Hk). by exists y.
  - intros (c & Hi & Hc). exists (i, c). split; [done|].
    apply list_elem_of_filter. split; [done|].
    apply elem_of_lookup_imap. by exists i, c.
Qed.

Lemma flatnonzero_NoDup (a : list Z) : NoDup (flatnonzero a).
Proof.
  unfold flatnonzero. apply NoDup_fmap_fst.
  - intros i y1 y2 [_ H1]%list_elem_of_filter [_ H2]%list_elem_of_filter.
    apply elem_of_lookup_imap in H1 as (k1 & c1 & [= -> ->] & Hk1).
    apply elem_of_lookup_imap in H2 as (k2 & c2 & [= -> ->] & Hk2).
    congruence.
  - apply NoDup_filter. apply NoDup_alt. intros i j [k c] Hi Hj.
    rewrite list_lookup_imap in Hi, Hj.
    destruct (a !! i); destruct (a !! j); simplify_eq/=. done.
Qed.

Lemma uint8_small (z : Z) : 0 ≤ z ≤ 255 → uint8 z = z.
Proof. intros. unfold uint8. apply Z.mod_small. lia. Qed.

Lemma apply_drops_length (counts : list Z) (drops : list (Z * nat)) :
  length (apply_drops counts drops) = length counts.
Proof.
  unfold apply_drops. revert counts.
  induction drops as [|d drops IH]; intros counts; [done|]. simpl.
  rewrite IH. destruct (counts !! d.2); [apply length_insert|done].
Qed.

Lemma apply_drops_other (counts : list Z) (drops : list (Z * nat)) (j : nat) :
  j ∉ map snd drops → apply_drops counts drops !! j = counts !! j.
Proof.
  unfold apply_drops. revert counts.
  induction drops as [|[k idx] drops IH]; intros counts Hj; [done|]. simpl in *.
  apply not_elem_of_cons in Hj as [Hne Hj]. rewrite IH by done.
  destruct (counts !! idx); [|done]. by apply list_lookup_insert_ne.
Qed.

Lemma apply_drops_dropped (counts : list Z) (drops : list (Z * nat))
    (k : Z) (j : nat) (c : Z) :
  NoDup (map snd drops) → (k, j) ∈ drops → counts !! j = Some c →
  0 ≤ k ≤ c → c ≤ 255 →
  apply_drops counts drops !! j = Some (c - k).
Proof.
  revert counts. induction drops as [|[k0 idx] drops IH];
    intros counts Hnd Hin Hc Hk Hc255; [by apply elem_of_nil in Hin|].
  simpl in Hnd. apply NoDup_cons in Hnd as [Hidx Hnd].
  change (apply_drops counts ((k0, idx) :: drops))
    with (apply_drops (match counts !! idx with
                       | Some c => <[idx := uint8 (c - k0)]> counts
                       | None => counts
                       end) drops).
  apply elem_of_cons in Hin as [[= <- <-]|Hin].
  - rewrite apply_drops_other by done. rewrite Hc.
    rewrite list_lookup_insert_eq by (by eapply lookup_lt_Some).
    by rewrite uint8_small by lia.
  - assert (idx ≠ j) as Hne.
    { intros ->. apply Hidx. apply list_elem_of_fmap. by exists (k, j). }
    apply IH; try done.
    destruct (counts !! idx); [|done]. by rewrite list_lookup_insert_ne.
Qed.

Lemma elem_of_range (n k : Z) : k ∈ range n ↔ 0 ≤ k < n.
Proof.
  unfold range. rewrite list_elem_of_fmap. split.
  - intros (i & -> & Hi). apply elem_of_seq in Hi. lia.
  - intros Hk. exists (Z.to_nat k). split; [lia|]. apply elem_of_seq. lia.
Qed.

Lemma length_range (n : Z) : length (range n) = Z.to_nat n.
Proof. unfold range. by rewrite length_map, length_seq. Qed.

Lemma head_range (n : Z) : 0 < n → head (range n) = Some 0.
Proof.
  intros Hn. unfold range. destruct (Z.to_nat n) as [|m] eqn:Hm; [lia|done].
Qed.

(** Drops at the droppable positions, each within the droppable count:
    what both ways of perturbing subtract. *)
Lemma apply_drops_within (counts droppable : list Z) (drops : list (Z * nat)) :
  Forall2 (λ c d, 0 ≤ d ≤ c ∧ c ≤ 255) counts droppable →
  map snd drops = flatnonzero droppable →
  Forall (λ d, 0 ≤ fst d ≤ nth (snd d) droppable 0) drops →
  Forall2 Z.le (apply_drops counts drops) counts
  ∧ Forall2 Z.le (zip_with Z.sub counts droppable) (apply_drops counts drops).
Proof.
  intros Hcd Hidx Hk.
  assert (NoDup (map snd drops)) as Hnd by (rewrite Hidx; apply flatnonzero_NoDup).
  assert (∀ j c d, counts !! j = Some c → droppable !! j = Some d →
            ∃ k, 0 ≤ k ≤ d ∧ apply_drops counts drops !! j = Some (c - k)) as Hy.
  { intros j c d Hc Hd.
    destruct (Forall2_lookup_lr _ _ _ _ _ _ Hcd Hc Hd) as (Hd0 & Hc255).
    destruct (decide (d = 0)) as [->|Hne].
    - exists 0. split; [lia|]. rewrite apply_drops_other, Hc, Z.sub_0_r; [done|].
      rewrite Hidx, elem_of_flatnonzero. intros (d' & Hd' & Hne). congruence.
    - assert (j ∈ map snd drops) as Hj.
      { rewrite Hidx. apply elem_of_flatnonzero. by exists d. }
      apply list_elem_of_fmap in Hj as ([k j'] & -> & Hin). simpl in *.
      rewrite Forall_forall in Hk. specialize (Hk _ Hin). simpl in Hk.
      rewrite (nth_lookup_Some _ _ _ _ Hd) in Hk.
      exists k. split; [done|]. eapply apply_drops_dropped; eauto; lia. }
  pose proof (Forall2_length _ _ _ Hcd) as Hlen.
  split; apply Forall2_same_length_lookup_2.
  - apply apply_drops_length.
  - intros j v c Hv Hc.
    destruct (lookup_lt_is_Some_2 droppable j) as [d Hd].
    { rewrite <- Hlen. by eapply lookup_lt_Some. }
    destruct (Hy j c d Hc Hd) as (k & Hk' & Hv'). simplify_eq. lia.
  - rewrite apply_drops_length, length_zip_with. lia.
  - intros j l v [c [d (-> & Hc & Hd)]]%lookup_zip_with_Some Hv.
    destruct (Hy j c d Hc Hd) as (k & Hk' & Hv'). simplify_eq. lia.
Qed.

Lemma prod_succ_pos (droppable : list Z) :
  Forall (λ d, 0 ≤ d) droppable →
  1 ≤ foldr Z.mul 1 (map (λ d, d + 1) droppable).
Proof. induction 1 as [|d l Hd _ IH]; simpl; [lia|nia]. Qed.

Lemma prod_succ_filter (droppable : list Z) :
  Forall (λ d, 0 ≤ d) droppable →
  foldr Nat.mul 1%nat (map (λ c, Z.to_nat (c + 1)) (filter (λ c, c ≠ 0) droppable))
  = Z.to_nat (foldr Z.mul 1 (map (λ d, d + 1) droppable)).
Proof.
  induction 1 as [|d l Hd Hl IH]; [done|].
  pose proof (prod_succ_pos l Hl).
  rewrite filter_cons. simpl foldr at 2. rewrite Z2Nat.inj_mul by lia.
  rewrite <- IH. destruct (decide (d ≠ 0)) as [Hne|Heq]; simpl.
  - done.
  - assert (d = 0) as -> by lia. simpl. lia.
Qed.

Lemma product_gens_drops (droppable : list Z) (indices : list nat)
    (drops : list (Z * nat)) :
  Forall2 (λ x pool, x ∈ pool) drops
    (map (λ droppable_index,
            map (λ drop_count, (drop_count, droppable_index))
                (range (nth droppable_index droppable 0 + 1))) indices)
  ↔ map snd drops = indices
    ∧ Forall (λ d, 0 ≤ fst d ≤ nth (snd d) droppable 0) drops.
Proof.
  revert drops. induction indices as [|idx indices IH]; intros drops; simpl.
  - split.
    + by inversion 1.
    + intros [Hd _]. destruct drops; [constructor|done].
  - split.
    + inversion 1 as [|[k i] ? drops' ? Hx Hrest]; subst.
      apply list_elem_of_fmap in Hx as (k' & [= -> ->] & Hk%elem_of_range).
      apply IH in Hrest as [<- Hall]. split; [done|]. constructor; [simpl; lia|done].
    + intros [Hd Hall]. destruct drops as [|[k i] drops]; [done|].
      simpl in Hd. injection Hd as -> Hd. apply Forall_cons in Hall as [Hk Hall].
      constructor.
      * apply list_elem_of_fmap. exists k. split; [done|].
        apply elem_of_range. simpl in Hk. lia.
      * apply IH. by split.
Qed.

Lemma head_map {A B} (f : A → B) (l : list A) : head (map f l) = f <$> head l.
Proof. by destruct l. Qed.

Lemma head_gens (droppable : list Z) (indices : list nat) :
  Forall (λ d, 0 ≤ d) droppable →
  Forall2 (λ h pool, head pool = Some h)
    (map (λ idx, (0, idx)) indices)
    (map (λ droppable_index,
            map (λ drop_count, (drop_count, droppable_index))
                (range (nth droppable_index droppable 0 + 1))) indices).
Proof.
  intros Hd0. apply Forall2_fmap, Forall_Forall2_diag, Forall_forall.
  intros idx _. simpl. rewrite head_map, head_range; [done|].
  rewrite nth_lookup. destruct (droppable !! idx) as [d|] eqn:Hd; simpl; [|lia].
  rewrite Forall_forall in Hd0.
  specialize (Hd0 d (list_elem_of_lookup_2 _ _ _ Hd)). simpl in Hd0. lia.
Qed.

Lemma perturb_exhaustive_length (counts droppable_counts : list Z) :
  Forall (λ d, 0 ≤ d) droppable_counts →
  length (_perturb_exhaustive counts droppable_counts)
  = Z.to_nat (foldr Z.mul 1 (map (λ d, d + 1) droppable_counts)).
Proof.
  intros Hd0. unfold _perturb_exhaustive. cbv zeta.
  rewrite length_map, length_product, map_map.
  rewrite <- prod_succ_filter by done.
  rewrite <- (map_flatnonzero (λ c, Z.to_nat (c + 1))).
  f_equal. apply map_ext. intros idx. by rewrite length_map, length_range.
Qed.

Lemma perturb_exhaustive_within (counts droppable_counts y : list Z)
    (o : option string) :
  Forall2 (λ c d, 0 ≤ d ≤ c ∧ c ≤ 255) counts droppable_counts →
  (y, o) ∈ _perturb_exhaustive counts droppable_counts →
  o = None
  ∧ Forall2 Z.le y counts
  ∧ Forall2 Z.le (zip_with Z.sub counts droppable_counts) y.
Proof.
  intros Hcd (drops & [= -> ->] & Hdrops)%list_elem_of_fmap. split; [done|].
  apply elem_of_product, product_gens_drops in Hdrops as [Hidx Hk].
  by apply apply_drops_within.
Qed.

(** X26.  [LocalPerturber._perturb_exhaustive], on counts that are at least
    the droppable counts and droppable counts below 255: it yields as many
    arrays as the product of the droppable counts plus one, the original
    counts first, none with an image id; and an array is yielded exactly
    when it lies, position by position, between the counts minus the
    droppable counts and the counts. *)
Theorem perturb_exhaustive_all_combinations (counts droppable_counts : list Z) :
  Forall2 (λ c d, 0 ≤ d ≤ c ∧ c ≤ 255 ∧ d ≤ 254) counts droppable_counts →
  let ys := _perturb_exhaustive counts droppable_counts in
  length ys = Z.to_nat (foldr Z.mul 1 (map (λ d, d + 1) droppable_counts))
  ∧ head ys = Some (counts, None)
  ∧ ∀ y o, (y, o) ∈ ys ↔
      o = None
      ∧ Forall2 Z.le y counts
      ∧ Forall2 Z.le (zip_with Z.sub counts droppable_counts) y.
Proof.
  intros Hcd ys.
  assert (Forall2 (λ c d, 0 ≤ d ≤ c ∧ c ≤ 255) counts droppable_counts) as Hcd'.
  { eapply Forall2_impl; [exact Hcd|]. simpl. lia. }
  assert (Forall (λ d, 0 ≤ d) droppable_counts) as Hd0.
  { apply Forall_forall. intros d [j Hd]%list_elem_of_lookup.
    destruct (Forall2_lookup_r _ _ _ _ _ Hcd Hd) as (c & _ & ?). lia. }
  pose proof (Forall2_length _ _ _ Hcd) as Hlen.
  subst ys. unfold _perturb_exhaustive. cbv zeta. split_and!.
  - by apply perturb_exhaustive_length.
  - rewrite head_map, (head_product _ _ (head_gens droppable_counts _ Hd0)).
    simpl. do 2 f_equal. apply list_eq. intros j.
    destruct (decide (j ∈ flatnonzero droppable_counts)) as [Hj|Hj].
    + pose proof Hj as (d & Hd & _)%elem_of_flatnonzero.
      destruct (Forall2_lookup_r _ _ _ _ _ Hcd Hd) as (c & Hc & ?).
      rewrite (apply_drops_dropped counts _ 0 j c), Hc, ?Z.sub_0_r; try done; try lia.
      * rewrite map_map. simpl. rewrite map_id. apply flatnonzero_NoDup.
      * apply list_elem_of_fmap. by exists j.
    + apply apply_drops_other. by rewrite map_map, map_id.
  - intros y o. split; [by apply perturb_exhaustive_within|].
    rewrite list_elem_of_fmap.
    + intros (-> & Hyc & Hly).
      pose proof (Forall2_length _ _ _ Hyc) as Hleny.
      set (drops := map (λ idx, (nth idx counts 0 - nth idx y 0, idx))
                        (flatnonzero droppable_counts)).
      assert (∀ j c d v, counts !! j = Some c → droppable_counts !! j = Some d →
                y !! j = Some v → c - d ≤ v ≤ c) as Hv.
      { intros j c d v Hc Hd Hyv. split.
        - eapply (Forall2_lookup_lr _ _ _ j (c - d) v Hly); [|done].
          apply lookup_zip_with_Some. by exists c, d.
        - by eapply (Forall2_lookup_lr _ _ _ j v c Hyc). }
      assert (map snd drops = flatnonzero droppable_counts) as Hsnd.
      { unfold drops. rewrite map_map. simpl. apply map_id. }
      exists drops. split.
      * f_equal. apply list_eq. intros j.
        destruct (counts !! j) as [c|] eqn:Hc; cycle 1.
        { rewrite (proj2 (lookup_ge_None y j)),
            (proj2 (lookup_ge_None (apply_drops counts drops) j)); [done| |].
          - rewrite apply_drops_length. by apply lookup_ge_None.
          - rewrite Hleny. by apply lookup_ge_None. }
        destruct (lookup_lt_is_Some_2 droppable_counts j) as [d Hd].
        { rewrite <- Hlen. by eapply lookup_lt_Some. }
        destruct (lookup_lt_is_Some_2 y j) as [v Hyv].
        { rewrite Hleny. by eapply lookup_lt_Some. }
        destruct (Forall2_lookup_lr _ _ _ _ _ _ Hcd Hc Hd) as (? & ? & ?).
        pose proof (Hv j c d v Hc Hd Hyv).
        rewrite Hyv. destruct (decide (d = 0)) as [->|Hne].
        -- rewrite apply_drops_other, Hc; [f_equal; lia|].
           rewrite Hsnd, elem_of_flatnonzero. intros (d' & Hd' & Hne). congruence.
        -- rewrite (apply_drops_dropped counts drops (c - v) j c); try done; try lia.
           ++ f_equal. lia.
           ++ rewrite Hsnd. apply flatnonzero_NoDup.
           ++ apply list_elem_of_fmap. exists j.
              rewrite (nth_lookup_Some _ _ _ _ Hc), (nth_lookup_Some _ _ _ _ Hyv).
              split; [done|]. apply elem_of_flatnonzero. by exists d.
      * apply elem_of_product, product_gens_drops. split; [done|].
        apply Forall_forall. intros [k j] (idx & [= -> ->] & Hidx)%list_elem_of_fmap.
        simpl. apply elem_of_flatnonzero in Hidx as (d & Hd & Hne).
        destruct (Forall2_lookup_r _ _ _ _ _ Hcd Hd) as (c & Hc & ?).
        destruct (lookup_lt_is_Some_2 y idx) as [v Hyv].
        { rewrite Hleny. by eapply lookup_lt_Some. }
        rewrite (nth_lookup_Some _ _ _ _ Hc), (nth_lookup_Some _ _ _ _ Hyv),
          (nth_lookup_Some _ _ _ _ Hd).
        pose proof (Hv idx c d v Hc Hd Hyv). lia.
Qed.

Lemma perturb_exhaustive_all_combinations_witness :
  _perturb_exhaustive [2; 1; 3] [1; 0; 2]
  = [([2; 1; 3], None); ([2; 1; 2], None); ([2; 1; 1], None);
     ([1; 1; 3], None); ([1; 1; 2], None); ([1; 1; 1], None)]
  ∧ ([1; 1; 2], None) ∈ _perturb_exhaustive [2; 1; 3] [1; 0; 2].
Proof.
  split; [reflexivity|].
  assert (Forall2 (λ c d, 0 ≤ d ≤ c ∧ c ≤ 255 ∧ d ≤ 254) [2; 1; 3] [1; 0; 2])
    as Hcd by (repeat constructor; lia).
  destruct (perturb_exhaustive_all_combinations _ _ Hcd) as (_ & _ & H).
  apply H. split_and!; [done|repeat constructor; lia..].
Defined.

Lemma random_drops_spec (randint : nat → Z → Z) (droppable : list Z)
    (indices : list nat) (calls : nat) :
  (∀ k high, 0 < high → 0 ≤ randint k high < high) →
  Forall (λ d, 0 ≤ d) droppable →
  map snd (random_drops randint droppable indices calls) = indices
  ∧ Forall (λ d, 0 ≤ fst d ≤ nth (snd d) droppable 0)
      (random_drops randint droppable indices calls).
Proof.
  intros Hrand Hd0. revert calls.
  induction indices as [|idx indices IH]; intros calls; simpl; [by split|].
  destruct (IH (S calls)) as [-> Hall]. split; [done|].
  constructor; [|done]. simpl.
  assert (0 ≤ nth idx droppable 0) as Hnth.
  { rewrite nth_lookup. destruct (droppable !! idx) as [d|] eqn:Hd; simpl; [|lia].
    rewrite Forall_forall in Hd0.
    by apply (Hd0 d (list_elem_of_lookup_2 _ _ _ Hd)). }
  specialize (Hrand calls (nth idx droppable 0 + 1)). lia.
Qed.

Lemma random_rounds_spec (randint : nat → Z → Z) (counts droppable : list Z)
    (rounds calls : nat) :
  length (random_rounds randint counts droppable rounds calls) = rounds
  ∧ ∀ y o, (y, o) ∈ random_rounds randint counts droppable rounds calls →
      o = None
      ∧ ∃ calls', y = apply_drops counts
                        (random_drops randint droppable (flatnonzero droppable) calls').
Proof.
  revert calls. induction rounds as [|rounds IH]; intros calls; simpl.
  - split; [done|]. intros y o Hin. by apply elem_of_nil in Hin.
  - destruct (IH (calls + length (flatnonzero droppable))%nat) as [-> Hin]. split; [done|].
    intros y o [[= -> ->]|Hy]%elem_of_cons; [|by apply Hin].
    split; [done|]. by exists calls.
Qed.

Lemma droppable_counts_exact (influential_counts counts : list Z) :
  Forall2 (λ i c, 0 ≤ i ≤ c ∧ c ≤ 254) influential_counts counts →
  zip_with (λ c i, uint8 (c - i)) counts influential_counts
  = zip_with Z.sub counts influential_counts
  ∧ Forall2 (λ c d, 0 ≤ d ≤ c ∧ c ≤ 255) counts
      (zip_with Z.sub counts influential_counts)
  ∧ map (λ d, uint8 (d + 1)) (zip_with Z.sub counts influential_counts)
    = map (λ d, d + 1) (zip_with Z.sub counts influential_counts)
  ∧ foldr Z.mul 1 (map (λ d, d + 1) (zip_with Z.sub counts influential_counts))
    = foldr Z.mul 1 (zip_with (λ c i, c - i + 1) counts influential_counts)
  ∧ zip_with Z.sub counts (zip_with Z.sub counts influential_counts)
    = influential_counts.
Proof.
  induction 1 as [|i c il cl Hic _ (IH1 & IH2 & IH3 & IH4 & IH5)]; [by split_and!|].
  simpl. rewrite IH1, IH3, IH4, IH5, !uint8_small by lia.
  split_and!; try done; [constructor; [lia|done] | f_equal; lia].
Qed.

(** X27.  [LocalPerturber.perturb], on influential counts that are at most
    the counts, counts below 255, and a number of combinations that fits
    64 bits: whatever [np.random.randint] returns within its bounds, the
    number of arrays yielded is the smaller of [max_perturbations] and the
    number of combinations, and every array yielded keeps at least the
    influential counts, exceeds the counts nowhere and has no image id. *)
Theorem local_perturb_yields (randint : nat → Z → Z) (max_perturbations : Z)
    (influential_counts counts : list Z) :
  Forall2 (λ i c, 0 ≤ i ≤ c ∧ c ≤ 254) influential_counts counts →
  (∀ k high, 0 < high → 0 ≤ randint k high < high) →
  let combinations :=
    foldr Z.mul 1 (zip_with (λ c i, c - i + 1) counts influential_counts) in
  combinations < 2 ^ 64 →
  let ys := perturb randint max_perturbations influential_counts counts in
  length ys = Z.to_nat (Z.min max_perturbations combinations)
  ∧ ∀ y o, (y, o) ∈ ys →
      o = None ∧ Forall2 Z.le influential_counts y ∧ Forall2 Z.le y counts.
Proof.
  intros Hic Hrand combinations Hsmall ys. subst ys. unfold perturb. cbv zeta.
  destruct (droppable_counts_exact _ _ Hic) as (-> & Hcd & -> & Hprod & Hinfl).
  fold combinations in Hprod.
  assert (Forall (λ d, 0 ≤ d) (zip_with Z.sub counts influential_counts)) as Hd0.
  { apply Forall_forall. intros d [j Hd]%list_elem_of_lookup.
    destruct (Forall2_lookup_r _ _ _ _ _ Hcd Hd) as (c & _ & ?). lia. }
  pose proof (prod_succ_pos _ Hd0) as Hpos. rewrite Hprod in Hpos.
  unfold multiply_reduce. rewrite Hprod, Z.mod_small by lia.
  destruct (Z.ltb_spec max_perturbations combinations) as [Hlt|Hge].
  - unfold _perturb_random.
    destruct (random_rounds_spec randint counts
                (zip_with Z.sub counts influential_counts)
                (Z.to_nat max_perturbations) 0) as [-> Hin].
    split; [f_equal; lia|]. intros y o Hy.
    destruct (Hin y o Hy) as (-> & calls' & ->). split; [done|].
    destruct (random_drops_spec randint (zip_with Z.sub counts influential_counts)
                (flatnonzero (zip_with Z.sub counts influential_counts)) calls'
                Hrand Hd0) as [Hidx Hk].
    destruct (apply_drops_within _ _ _ Hcd Hidx Hk) as [Hle Hge].
    by rewrite Hinfl in Hge.
  - rewrite perturb_exhaustive_length, Hprod by done.
    split; [f_equal; lia|]. intros y o Hy.
    destruct (perturb_exhaustive_within _ _ _ _ Hcd Hy) as (-> & Hle & Hge').
    by rewrite Hinfl in Hge'.
Qed.

Lemma local_perturb_yields_witness :
  perturb (λ k high, Z.of_nat k `mod` high) 4 [1; 1; 1] [2; 1; 3]
  = [([2; 1; 2], None); ([2; 1; 3], None); ([2; 1; 1], None); ([2; 1; 2], None)]
  ∧ length (perturb (λ k high, Z.of_nat k `mod` high) 4 [1; 1; 1] [2; 1; 3]) = 4%nat.
Proof.
  split; [reflexivity|].
  assert (Forall2 (λ i c, 0 ≤ i ≤ c ∧ c ≤ 254) [1; 1; 1] [2; 1; 3]) as Hic
    by (repeat constructor; lia).
  assert (∀ (k : nat) high, 0 < high → 0 ≤ Z.of_nat k `mod` high < high) as Hrand
    by (intros; by apply Z.mod_pos_bound).
  destruct (local_perturb_yields (λ k high, Z.of_nat k `mod` high) 4
              [1; 1; 1] [2; 1; 3] Hic Hrand) as [H _]; [done|exact H].
Defined.

End local_perturber.

(** ** Batches of images *)

Lemma batch_loop_concat {A} (batch_size : Z) (rows current_batch : list A) :
  concat (batch_loop batch_size rows current_batch) = current_batch ++ rows.
Proof.
  revert current_batch. induction rows as [|row rows IH]; intros cur; simpl.
  - destruct cur; simpl; by rewrite ?app_nil_r.
  - destruct (Z.ltb_spec (Z.of_nat (length (cur ++ [row]))) batch_size).
    + rewrite IH. by rewrite <- app_assoc.
    + simpl. rewrite IH. simpl. by rewrite <- app_assoc.
Qed.

Lemma batch_loop_sizes {A} (batch_size : Z) (rows current_batch : list A) :
  Z.of_nat (length current_batch) < Z.max 1 batch_size →
  let batches := batch_loop batch_size rows current_batch in
  Forall (λ b, 1 ≤ Z.of_nat (length b) ≤ Z.max 1 batch_size) batches
  ∧ ∀ i b, batches !! i = Some b → (S i < length batches)%nat →
           Z.of_nat (length b) = Z.max 1 batch_size.
Proof.
  revert current_batch. induction rows as [|row rows IH]; intros cur Hcur; simpl.
  - destruct cur as [|x cur]; simpl.
    + split; [constructor|]. intros i b Hb. done.
    + split; [repeat constructor; simpl in *; lia|].
      intros i b Hb Hi. simpl in Hi. lia.
  - destruct (Z.ltb_spec (Z.of_nat (length (cur ++ [row]))) batch_size) as [Hlt|Hge].
    + apply IH. lia.
    + destruct (IH [] ltac:(simpl; lia)) as [IH1 IH2].
      rewrite length_app in Hge. simpl in Hge.
      assert (Z.of_nat (length (cur ++ [row])) = Z.max 1 batch_size) as Hfull.
      { rewrite length_app. simpl. lia. }
      split.
      * constructor; [lia|done].
      * intros [|i] b Hb Hi; simpl in *.
        -- by injection Hb as <-.
        -- apply (IH2 i b Hb). lia.
Qed.

(** X28.  [batch_iter] cuts the rows of the reader into batches: the
    batches, one after the other, are the rows in their order; no batch is
    empty or longer than [batch_size] (one row, when [batch_size] is below
    one); every batch but the last is full. *)
Theorem batch_iter_partition {A} (batch_size : Z) (rows : list A) :
  let batches := batch_iter batch_size rows in
  concat batches = rows
  ∧ Forall (λ b, 1 ≤ Z.of_nat (length b) ≤ Z.max 1 batch_size) batches
  ∧ ∀ i b, batches !! i = Some b → (S i < length batches)%nat →
           Z.of_nat (length b) = Z.max 1 batch_size.
Proof.
  intros batches. subst batches. unfold batch_iter.
  split; [apply batch_loop_concat|].
  apply (batch_loop_sizes batch_size rows []). simpl. lia.
Qed.

(** ** Nested logging *)

Section logging.
Import LoggingMixin.

Lemma _log_nesting (self : t) (msg : string) :
  log_nesting (_log self msg) = log_nesting self.
Proof. done. Qed.

(** X29.  [_log_task] is balanced: around a body that leaves the nesting
    as it found it and only adds messages, on a normal and on an
    exceptional exit of the body alike, the task returns what the body
    returns, restores the nesting, and writes the closing line with the
    prefix of the opening line, after the messages of the body. *)
Theorem log_task_balanced {A} (self : t) (msg : string)
    (body : t → result A * t) :
  (∀ s, log_nesting (snd (body s)) = log_nesting s) →
  (∀ s, ∃ ms, messages (snd (body s)) = messages s ++ ms) →
  let r := _log_task self msg body in
  fst r = fst (body (_log_group_start self msg))
  ∧ log_nesting (snd r) = log_nesting self
  ∧ ∃ ms,
      messages (snd r)
      = messages (_log self ("<" +:+ msg +:+ ">")) ++ ms
        ++ drop (length (messages self)) (messages (_log self "<done/>")).
Proof.
  intros Hnest Hmsgs r. subst r. unfold _log_task.
  specialize (Hnest (_log_group_start self msg)).
  specialize (Hmsgs (_log_group_start self msg)).
  destruct (body (_log_group_start self msg)) as [res s']. simpl in *.
  destruct Hmsgs as [ms Hms]. split_and!; [done|lia|].
  exists ms. rewrite Hms, Hnest, drop_app_length.
  replace (log_nesting self + 1 - 1) with (log_nesting self) by lia.
  by rewrite <- !app_assoc.
Qed.

Lemma log_task_balanced_witness :
  let self := mk 1 ["-- <a/>"] in
  let r := _log_task self "outer"
             (λ s, _log_task s "inner" (λ s, (Raise ValueError, _log_item s "x"))) in
  r = (Raise ValueError : result unit,
       mk 1 ["-- <a/>"; "-- <outer>"; "---- <inner>"; "------ <x/>";
             "---- <done/>"; "-- <done/>"])
  ∧ log_nesting (snd r) = 1.
Proof.
  split; [reflexivity|].
  apply (log_task_balanced (A := unit) (mk 1 ["-- <a/>"]) "outer"
           (λ s, _log_task s "inner" (λ s, (Raise ValueError, _log_item s "x")))).
  - intros s. simpl. lia.
  - intros s. eexists. simpl. rewrite <- !app_assoc. reflexivity.
Defined.

End logging.
